(** * proton-drive-sync: the job queue, the executor and the change flush

    A shallow embedding of [src/db/schema.ts], [src/jobs.ts], the delete and
    create operations on the drive and the one-shot change flush of the sync
    command, with the properties of the job store, the retry policy and the
    executor loop stated over it.

    Conventions.
    - A JavaScript [Date] is its millisecond count, an integer ([Z]).
    - The SQLite table [sync_jobs] is the list of its rows in rowid order,
      with the last value handed out by AUTOINCREMENT next to it. A
      timestamp column holds whole seconds.
    - [Math.random()] and the clock reads are inputs of the functions that
      perform them. A JavaScript number is the rational it stands for; every
      operation on numbers that are not integers rounds its result as IEEE
      754 binary64 does ([Double.round]). Infinities and NaN are outside
      the model: the numbers of the code stay far below 2^1024.
    - Every call to the drive client can throw (a rejected promise, an
      async iterable that fails).
    - [console.log] output is not modelled; [logger] calls are. *)

From Stdlib Require Import Ascii String ZArith QArith Qround Lqa Qpower.
From stdpp Require Import base option list gmap strings.

Local Open Scope string_scope.
Local Open Scope list_scope.
Local Open Scope Z_scope.

(* ====================================================================== *)
(** ** JavaScript strings and [path] helpers *)
(* ====================================================================== *)

Module Js.

Definition slash : ascii := "/"%char.

Definition chars (s : string) : list ascii := list_ascii_of_string s.
Definition str (l : list ascii) : string := string_of_list_ascii l.

(** [s.startsWith(p)] *)
Definition startsWith (s p : string) : bool := String.prefix p s.

(** [s.endsWith("/")] *)
Definition endsWithSlash (s : string) : bool :=
  match reverse (chars s) with
  | c :: _ => bool_decide (c = slash)
  | [] => false
  end.

(** [s.slice(n)] *)
Definition sliceFrom (n : nat) (s : string) : string := str (drop n (chars s)).

(** [s.slice(0, -1)] *)
Definition dropLast (s : string) : string :=
  str (reverse (drop 1 (reverse (chars s)))).

Fixpoint dropWhile {A} (p : A → bool) (l : list A) : list A :=
  match l with
  | [] => []
  | x :: l' => if p x then dropWhile p l' else l
  end.

Fixpoint takeWhile {A} (p : A → bool) (l : list A) : list A :=
  match l with
  | [] => []
  | x :: l' => if p x then x :: takeWhile p l' else []
  end.

Definition isSlash (c : ascii) : bool := bool_decide (c = slash).
Definition notSlash (c : ascii) : bool := negb (isSlash c).

(** [path.basename(p)] of Node (POSIX flavour): the last non-empty
    segment, trailing slashes ignored. *)
Definition basename (p : string) : string :=
  let r := dropWhile isSlash (reverse (chars p)) in
  str (reverse (takeWhile notSlash r)).

(** [path.dirname(p)] of Node (POSIX flavour): the scan runs from the end
    of the path down to index 1. *)
Definition dirname (p : string) : string :=
  match chars p with
  | [] => "."
  | c0 :: tl =>
      let hasRoot := isSlash c0 in
      let r := dropWhile notSlash (dropWhile isSlash (reverse tl)) in
      match r with
      | [] => if hasRoot then "/" else "."
      | _ :: rest =>
          if hasRoot && bool_decide (rest = []) then "//"
          else str (c0 :: reverse rest)
      end
  end.

(** [s.split("/")] on the characters, segment by segment. *)
Fixpoint splitAux (cur : list ascii) (l : list ascii) : list string :=
  match l with
  | [] => [str (reverse cur)]
  | c :: l' =>
      if isSlash c then str (reverse cur) :: splitAux [] l'
      else splitAux (c :: cur) l'
  end.

Definition splitSlash (s : string) : list string := splitAux [] (chars s).

Definition nonEmpty (s : string) : bool := negb (bool_decide (s = EmptyString)).

End Js.

(* ====================================================================== *)
(** ** JavaScript numbers *)
(* ====================================================================== *)

Module Double.

Local Open Scope Q_scope.

(** Rounding to the nearest integer, a tie to the even one. *)
Definition roundEven (x : Q) : Z :=
  let f := Qfloor x in
  match Qcompare (x - inject_Z f) (1 # 2) with
  | Lt => f
  | Gt => (f + 1)%Z
  | Eq => if Z.even f then f else (f + 1)%Z
  end.

(** For [x > 0], the exponent [e] with [2^(e+52) <= x < 2^(e+53)]: the
    doubles around [x] are the multiples of [2^e]. *)
Definition binade (x : Q) : Z :=
  let e0 := (Z.log2 (Qnum x) - Z.log2 (Zpos (Qden x)) - 52)%Z in
  if Qle_bool (2 ^ (e0 + 52)) x then e0 else (e0 - 1)%Z.

(** The double nearest to [x > 0], a tie to the even significand; below
    [2^(-1022)] the doubles are the multiples of [2^(-1074)]. *)
Definition roundPos (x : Q) : Q :=
  let e := Z.max (binade x) (-1074) in
  inject_Z (roundEven (x / 2 ^ e)) * 2 ^ e.

(** The double that an operation with the exact result [x] returns. *)
Definition round (x : Q) : Q :=
  match Qcompare x 0 with
  | Eq => 0
  | Gt => roundPos x
  | Lt => - roundPos (- x)
  end.

(** [ToIntegerOrInfinity], as [new Date(value)] applies it to a time
    value: the fraction is cut off. *)
Definition truncate (x : Q) : Z :=
  if Qle_bool 0 x then Qfloor x else Qceiling x.

End Double.

(* ====================================================================== *)
(** ** [src/db/schema.ts] *)
(* ====================================================================== *)

(** [SyncJobStatus]: the object literal has exactly these three keys. *)
Inductive SyncJobStatus := PENDING | SYNCED | BLOCKED.

(** The text stored in the [status] column. *)
Definition SyncJobStatus_text (s : SyncJobStatus) : string :=
  match s with
  | PENDING => "PENDING"
  | SYNCED => "SYNCED"
  | BLOCKED => "BLOCKED"
  end.

(** [SyncEventType]: exactly these three keys. *)
Inductive SyncEventType := CREATE | UPDATE | DELETE.


#[global] Instance SyncJobStatus_eq_dec : EqDecision SyncJobStatus.
Proof. solve_decision. Defined.

#[global] Instance SyncEventType_eq_dec : EqDecision SyncEventType.
Proof. solve_decision. Defined.

(** A row of [sync_jobs]. [id] and [nRetries] are non-negative integer
    columns; [retry_at] and [created_at] are the two columns declared
    [integer(..., { mode: 'timestamp' })]: they hold whole seconds. *)
Record SyncJob := mkSyncJob {
  id : nat;
  eventType : SyncEventType;
  localPath : string;
  remotePath : string;
  status : SyncJobStatus;
  retry_at : Z;
  nRetries : nat;
  lastError : option string;
  created_at : Z;
}.

(** How the ORM maps a [Date] to a timestamp column and back: it writes
    [Math.floor(date.getTime() / 1000)] and reads the integer [s] as
    [new Date(s * 1000)]. *)
Definition toTimestamp (date : Z) : Z := date / 1000.
Definition fromTimestamp (seconds : Z) : Z := seconds * 1000.

(** [job.retryAt] and [job.createdAt], the [Date]s a select returns. *)
Definition retryAt (j : SyncJob) : Z := fromTimestamp (retry_at j).
Definition createdAt (j : SyncJob) : Z := fromTimestamp (created_at j).

(** The database file: the rows of [sync_jobs] in rowid order, the
    AUTOINCREMENT sequence of the table, and the [clocks] table keyed by
    its primary key [directory]. *)
Record Db := mkDb {
  syncJobs : list SyncJob;
  jobSeq : nat;
  clocks : gmap string string;
}.

Definition emptyDb : Db := mkDb [] 0 ∅.

Definition withJobs (f : list SyncJob → list SyncJob) (d : Db) : Db :=
  mkDb (f (syncJobs d)) (jobSeq d) (clocks d).

(** [db.update(syncJobs).set(...).where(eq(syncJobs.id, jobId)).run()] *)
Definition updateWhereId (jobId : nat) (f : SyncJob → SyncJob) (d : Db) : Db :=
  withJobs (fmap (λ j, if decide (id j = jobId) then f j else j)) d.

(* ====================================================================== *)
(** ** [src/jobs.ts]: the queue *)
(* ====================================================================== *)

Definition MAX_RETRIES : nat := 10.
Definition BASE_RETRY_DELAY_MS : Z := 1000.
Definition MAX_RETRY_DELAY_MS : Z := 5 * 60 * 1000.

Record EnqueueParams := mkParams {
  p_eventType : SyncEventType;
  p_localPath : string;
  p_remotePath : string;
}.

(** [enqueueJob(params, dryRun)]; [now] is the value of [new Date()] at the
    insert (it fills [retryAt] and the default of [createdAt]; both columns
    keep the whole seconds of it). *)
Definition enqueueJob (params : EnqueueParams) (dryRun : bool) (now : Z)
    (d : Db) : Db :=
  if dryRun then d
  else
    let newId := S (jobSeq d) in
    mkDb (syncJobs d ++
            [ {| id := newId;
                 eventType := p_eventType params;
                 localPath := p_localPath params;
                 remotePath := p_remotePath params;
                 status := PENDING;
                 retry_at := toTimestamp now;
                 nRetries := 0;
                 lastError := None;
                 created_at := toTimestamp now |} ])
         newId (clocks d).

(** The [where] clause of [getNextPendingJob]: the bound [new Date()] goes
    through the mapping of the column, so whole seconds are compared. *)
Definition whereReady (now : Z) (j : SyncJob) : Prop :=
  status j = PENDING ∧ retry_at j ≤ toTimestamp now.

#[global] Instance whereReady_dec now j : Decision (whereReady now j).
Proof. unfold whereReady. apply _. Defined.

(** The same condition on the [Date] the row reads back with. *)
Definition readyAt (now : Z) (j : SyncJob) : Prop :=
  status j = PENDING ∧ retryAt j ≤ now.

(** [orderBy(retryAt).limit(1)] over the rows in rowid order: the first
    row with the smallest [retry_at]. Among rows with equal [retry_at] the
    one with the lowest rowid comes first, as a scan of the index
    [idx_sync_jobs_status_retry] on [(status, retry_at)] yields them. *)
Definition earliest (best : option SyncJob) (j : SyncJob) : option SyncJob :=
  match best with
  | Some b => if decide (retry_at j < retry_at b) then Some j else Some b
  | None => Some j
  end.

(** [getNextPendingJob()]: select, filter, order by [retryAt], limit 1.
    It is a read: the database is not an output. [now] is [new Date()]. *)
Definition getNextPendingJob (now : Z) (d : Db) : option SyncJob :=
  foldl earliest None (filter (whereReady now) (syncJobs d)).

(** [markJobSynced(jobId, dryRun)] *)
Definition markJobSynced (jobId : nat) (dryRun : bool) (d : Db) : Db :=
  if dryRun then d
  else updateWhereId jobId
         (λ j, {| id := id j; eventType := eventType j;
                  localPath := localPath j; remotePath := remotePath j;
                  status := SYNCED; retry_at := retry_at j;
                  nRetries := nRetries j; lastError := None;
                  created_at := created_at j |}) d.

(** [markJobBlocked(jobId, error, dryRun)] *)
Definition markJobBlocked (jobId : nat) (error : string) (dryRun : bool)
    (d : Db) : Db :=
  if dryRun then d
  else updateWhereId jobId
         (λ j, {| id := id j; eventType := eventType j;
                  localPath := localPath j; remotePath := remotePath j;
                  status := BLOCKED; retry_at := retry_at j;
                  nRetries := nRetries j; lastError := Some error;
                  created_at := created_at j |}) d.

(** [Math.min(BASE_RETRY_DELAY_MS * Math.pow(2, nRetries), MAX_RETRY_DELAY_MS)]:
    the product is an integer with a significand of seven bits, so it is
    exact as long as it is finite, and the minimum is the integer below. *)
Definition baseDelay (n : nat) : Z :=
  Z.min (BASE_RETRY_DELAY_MS * 2 ^ Z.of_nat n) MAX_RETRY_DELAY_MS.

(** [Math.random() * baseDelay * 0.5], for the draw [r] of [Math.random()]:
    two multiplications from the left, each rounded. *)
Definition jitter (n : nat) (r : Q) : Q :=
  Double.round (Double.round (r * inject_Z (baseDelay n)) * (1 # 2)).

(** [baseDelay + jitter] *)
Definition retryDelay (n : nat) (r : Q) : Q :=
  Double.round (inject_Z (baseDelay n) + jitter n r).

(** [new Date(Date.now() + delay)]: the sum is rounded, and the [Date]
    constructor cuts its argument to a whole number of milliseconds. (Beyond
    8.64e15 ms the [Date] would be invalid; a clock read stays 450000 ms
    below that.) *)
Definition retryDate (now : Z) (n : nat) (r : Q) : Z :=
  Double.truncate (Double.round (inject_Z now + retryDelay n r)).

(** The lines the modelled code hands to [logger]. *)
Inductive LogLine :=
  | LogDeleting (remote : string)
  | LogDeleted (remote : string)
  | LogAlreadyGone (remote : string)
  | LogCreating (remote : string)
  | LogUpdating (remote : string)
  | LogSuccess (remote : string) (nodeUid : option string)
  | LogRetryScheduled (jobId : nat) (seconds : Z) (attempt : nat)
  | LogFailedPermanently (jobId : nat) (message : string)
  | LogEnqueueing (e : SyncEventType) (isDir : bool) (path : string)
  | LogProcessed (n : nat)
  | LogSyncingSince (dir : string)
  | LogFirstRun (dir : string)
  | LogNoChanges.

(** [Math.round(delay / 1000)]: the quotient is rounded to a double,
    [Math.round] then takes the nearest integer, a tie upwards. *)
Definition roundSeconds (delay : Q) : Z :=
  Qfloor (Double.round (delay / 1000) + (1 # 2)).

(** [scheduleRetry(jobId, nRetries, error, dryRun)]: [now] is [Date.now()],
    [r] the draw of [Math.random()]. The [status] column is not in the
    [set] clause; [retry_at] keeps the whole seconds of the [Date]. The
    second component is the line logged. *)
Definition scheduleRetry (jobId nRetries_ : nat) (error : string)
    (dryRun : bool) (now : Z) (r : Q) (d : Db) : Db * list LogLine :=
  if dryRun then (d, [])
  else
    let delay := retryDelay nRetries_ r in
    let retryAt_ := retryDate now nRetries_ r in
    (updateWhereId jobId
       (λ j, {| id := id j; eventType := eventType j;
                localPath := localPath j; remotePath := remotePath j;
                status := status j; retry_at := toTimestamp retryAt_;
                nRetries := nRetries_ + 1; lastError := Some error;
                created_at := created_at j |}) d,
     [LogRetryScheduled jobId (roundSeconds delay) (nRetries_ + 1)]).

(** [getJobCounts()] *)
Definition countStatus (s : SyncJobStatus) (d : Db) : nat :=
  length (filter (λ j, status j = s) (syncJobs d)).

Definition getJobCounts (d : Db) : nat * nat * nat :=
  (countStatus PENDING d, countStatus SYNCED d, countStatus BLOCKED d).

(* ====================================================================== *)
(** ** The drive client *)
(* ====================================================================== *)

Record NodeData := mkNode {
  nd_name : string;
  nd_uid : string;
  nd_type : string;
}.

(** [{ ok, value?, error? }] as [iterateFolderChildren] yields it. *)
Record NodeResult := mkNodeResult {
  nr_ok : bool;
  nr_value : option NodeData;
}.

(** [{ ok, value?: { uid }, error? }]; [error] as the template literal
    prints it. *)
Record UidResult := mkUidResult {
  ur_ok : bool;
  ur_value : option string;
  ur_error : string;
}.

Record DeleteResult := mkDeleteResult {
  dr_ok : bool;
  dr_error : string;
}.

Record UploadMetadata := mkMeta {
  mediaType : string;
  expectedSize : Z;
  modificationTime : Z;
}.

(** What a call either returns or throws ([Error.message]). *)
Inductive Result (A : Type) :=
  | Returned (a : A)
  | Thrown (message : string).
Arguments Returned {A} a.
Arguments Thrown {A} message.

(** The calls that go out to the drive. *)
Inductive ClientCall :=
  | CallGetMyFilesRootFolder
  | CallIterateFolderChildren (folderUid : string)
  | CallTrashNodes (uids : list string)
  | CallDeleteNodes (uids : list string)
  | CallCreateFolder (parentUid name : string)
  | CallGetFileUploader (parentUid name : string) (meta : UploadMetadata)
  | CallGetFileRevisionUploader (nodeUid : string) (meta : UploadMetadata).

Definition isRemoval (c : ClientCall) : bool :=
  match c with
  | CallTrashNodes _ | CallDeleteNodes _ => true
  | _ => false
  end.

Section Drive.

(** The state behind the client (the remote tree and whatever else the
    SDK holds) is opaque. *)
Context {Drive : Type}.

(** The capabilities the code uses. Every call either returns or throws.
    An async iterable is drained by the loop that consumes it: it returns
    the results it yields, or throws when the iteration fails (the loops of
    the code keep nothing of what was yielded before). An uploader stands
    for its whole protocol ([writeStream] and then [completion()]): it ends
    with the node uid or throws. *)
Record ProtonDriveClient := mkClient {
  getMyFilesRootFolder : Drive → Result UidResult;
  iterateFolderChildren : string → Drive → Result (list NodeResult);
  trashNodes : list string → Drive → Result (list DeleteResult) * Drive;
  deleteNodes : list string → Drive → Result (list DeleteResult) * Drive;
  createFolder : string → string → Drive → Result UidResult * Drive;
  getFileUploader :
    string → string → UploadMetadata → Drive → Result string * Drive;
  getFileRevisionUploader :
    string → UploadMetadata → Drive → Result string * Drive;
}.

(** The drive together with the journal of the calls made to it. *)
Record Remote := mkRemote {
  drive : Drive;
  calls : list ClientCall;
}.

(** Code that talks to the drive and may throw. *)
Definition M (A : Type) : Type := Remote → Result A * Remote.

#[global] Instance M_ret : MRet M := λ A a w, (Returned a, w).

#[global] Instance M_bind : MBind M := λ A B f m w,
  match m w with
  | (Returned a, w') => f a w'
  | (Thrown e, w') => (Thrown e, w')
  end.

Definition throw {A} (message : string) : M A := λ w, (Thrown message, w).

(** [try { m } catch (error) { h((error as Error).message) }] *)
Definition tryCatch {A} (m : M A) (h : string → M A) : M A := λ w,
  match m w with
  | (Returned a, w') => (Returned a, w')
  | (Thrown e, w') => h e w'
  end.

Definition journal (c : ClientCall) (w : Remote) : Remote :=
  mkRemote (drive w) (calls w ++ [c]).

(** A call that reads the drive. *)
Definition query {A} (c : ClientCall) (f : Drive → Result A) : M A := λ w,
  (f (drive w), journal c w).

(** A call that may change the drive. *)
Definition attempt {A} (c : ClientCall) (f : Drive → Result A * Drive)
    : M A := λ w,
  let '(r, d') := f (drive w) in
  (r, mkRemote d' (calls w ++ [c])).

Variable client : ProtonDriveClient.

Definition rootFolder : M UidResult :=
  query CallGetMyFilesRootFolder (getMyFilesRootFolder client).

Definition children (folderUid : string) : M (list NodeResult) :=
  query (CallIterateFolderChildren folderUid)
        (iterateFolderChildren client folderUid).

(** [rootFolder.value!.uid]: reading [uid] off a missing value throws. *)
Definition bangUid (r : UidResult) : M string :=
  match ur_value r with
  | Some u => mret u
  | None => throw "Cannot read properties of undefined (reading 'uid')"
  end.

(** A string or [null] in a condition: [null] and the empty string are
    falsy. *)
Definition truthy (o : option string) : bool :=
  match o with
  | Some s => Js.nonEmpty s
  | None => false
  end.

(** [parsePath(localPath)] (the same function in the delete and the
    create module). *)
Definition parsePath (localPath : string) : list string * string :=
  let p1 :=
    if Js.startsWith localPath "my_files/" then Js.sliceFrom 9 localPath
    else if Js.startsWith localPath "./my_files/" then Js.sliceFrom 11 localPath
    else localPath in
  let p2 := if Js.endsWithSlash p1 then Js.dropLast p1 else p1 in
  let name := Js.basename p2 in
  let dirPath := Js.dirname p2 in
  if bool_decide (dirPath = ".") || bool_decide (dirPath = EmptyString) then ([], name)
  else (List.filter Js.nonEmpty (Js.splitSlash dirPath), name).

(* -------------------------------------------------------------------- *)
(** *** The delete module *)
(* -------------------------------------------------------------------- *)

(** The loop body of [findNodeByName]: [found] is an object or [null]. *)
Definition pickNode (name : string) (found : option NodeData)
    (node : NodeResult) : option NodeData :=
  match found with
  | Some _ => found
  | None =>
      match nr_value node with
      | Some v =>
          if nr_ok node && bool_decide (nd_name v = name) then Some v
          else None
      | None => None
      end
  end.

(** [findNodeByName(client, parentFolderUid, name)]: the listing is
    consumed to its end. *)
Definition findNodeByName (parentFolderUid name : string)
    : M (option NodeData) :=
  nodes ← children parentFolderUid;
  mret (foldl (pickNode name) None nodes).

(** [traverseRemotePath(client, rootFolderUid, pathParts)] *)
Fixpoint traverseRemotePath (currentFolderUid : string)
    (pathParts : list string) : M (option string) :=
  match pathParts with
  | [] => mret (Some currentFolderUid)
  | folderName :: rest =>
      node ← findNodeByName currentFolderUid folderName;
      match node with
      | None => mret None
      | Some n =>
          if bool_decide (nd_type n = "folder")
          then traverseRemotePath (nd_uid n) rest
          else mret None
      end
  end.

Record DeleteOperationResult := mkDeleteOp {
  del_success : bool;
  del_existed : bool;
  del_nodeUid : option string;
  del_nodeType : option string;
  del_error : option string;
}.

(** The [for await] over the results of a removal: the first result that
    is not ok throws. *)
Definition firstFailure (rs : list DeleteResult) : option DeleteResult :=
  List.find (λ r, negb (dr_ok r)) rs.

(** The second half of [deleteNode]: look the target up in its folder
    and remove it. *)
Definition removeTarget (targetFolderUid name : string) (permanent : bool)
    : M DeleteOperationResult :=
  targetNode ← findNodeByName targetFolderUid name;
  match targetNode with
  | None => mret (mkDeleteOp true false None None None)
  | Some t =>
      tryCatch
        (results ←
           (if permanent
            then attempt (CallDeleteNodes [nd_uid t])
                         (deleteNodes client [nd_uid t])
            else attempt (CallTrashNodes [nd_uid t])
                         (trashNodes client [nd_uid t]));
         match firstFailure results with
         | Some r =>
             throw ((if permanent then "Failed to delete: "
                     else "Failed to trash: ") +:+ dr_error r)
         | None =>
             mret (mkDeleteOp true true (Some (nd_uid t))
                     (Some (nd_type t)) None)
         end)
        (λ message,
           mret (mkDeleteOp false true (Some (nd_uid t))
                   (Some (nd_type t)) (Some message)))
  end.

(** [deleteNode(client, remotePath, permanent)] *)
Definition deleteNode (remotePath : string) (permanent : bool)
    : M DeleteOperationResult :=
  let '(parentParts, name) := parsePath remotePath in
  root ← rootFolder;
  if negb (ur_ok root) then
    mret (mkDeleteOp false false None None
            (Some ("Failed to get root folder: " +:+ ur_error root)))
  else
    rootFolderUid ← bangUid root;
    targetFolder ←
      (if bool_decide (0 < length parentParts)%nat
       then
         traverseResult ← traverseRemotePath rootFolderUid parentParts;
         mret (if truthy traverseResult then traverseResult else None)
       else mret (Some rootFolderUid));
    match targetFolder with
    | None => mret (mkDeleteOp true false None None None)
    | Some targetFolderUid => removeTarget targetFolderUid name permanent
    end.

(* -------------------------------------------------------------------- *)
(** *** The create module *)
(* -------------------------------------------------------------------- *)

(** What [statSync] returns; the local file system is the function
    [statSync], [None] where it throws. *)
Record Stats := mkStats {
  st_isDirectory : bool;
  st_size : Z;
  st_mtime : Z;
}.

Variable statSync : string → option Stats.

(** The loop body of [findFileByName]: [foundUid] is a string or [null]. *)
Definition pickFile (fileName : string) (foundUid : option string)
    (node : NodeResult) : option string :=
  if truthy foundUid then foundUid
  else
    match nr_value node with
    | Some v =>
        if nr_ok node && bool_decide (nd_name v = fileName)
           && bool_decide (nd_type v = "file")
        then Some (nd_uid v) else foundUid
    | None => foundUid
    end.

Definition findFileByName (folderUid fileName : string) : M (option string) :=
  nodes ← children folderUid;
  mret (foldl (pickFile fileName) None nodes).

(** The loop body of [findFolderByName]. *)
Definition pickFolder (folderName : string) (foundUid : option string)
    (node : NodeResult) : option string :=
  if truthy foundUid then foundUid
  else
    match nr_value node with
    | Some v =>
        if nr_ok node && bool_decide (nd_type v = "folder")
           && bool_decide (nd_name v = folderName)
        then Some (nd_uid v) else foundUid
    | None => foundUid
    end.

Definition findFolderByName (parentFolderUid folderName : string)
    : M (option string) :=
  nodes ← children parentFolderUid;
  mret (foldl (pickFolder folderName) None nodes).

(** [client.createFolder(parent, name)] followed by the [ok] check and
    [result.value!.uid]; [what] is "folder" or "directory". *)
Definition createFolderOrThrow (what parentUid name : string) : M string :=
  result ← attempt (CallCreateFolder parentUid name)
                   (createFolder client parentUid name);
  if negb (ur_ok result) then
    throw ("Failed to create " +:+ what +:+ " " +:+ String DoubleQuote name
           +:+ String DoubleQuote ": " +:+ ur_error result)
  else bangUid result.

(** [ensureRemotePath(client, rootFolderUid, pathParts)], with the loop
    variables [currentFolderUid] and [needToCreate] as arguments. *)
Fixpoint ensureRemotePathFrom (currentFolderUid : string)
    (needToCreate : bool) (pathParts : list string) : M string :=
  match pathParts with
  | [] => mret currentFolderUid
  | folderName :: rest =>
      if needToCreate then
        uid ← createFolderOrThrow "folder" currentFolderUid folderName;
        ensureRemotePathFrom uid true rest
      else
        existingFolderUid ← findFolderByName currentFolderUid folderName;
        if truthy existingFolderUid then
          ensureRemotePathFrom (default EmptyString existingFolderUid) false rest
        else
          uid ← createFolderOrThrow "folder" currentFolderUid folderName;
          ensureRemotePathFrom uid true rest
  end.

Definition ensureRemotePath (rootFolderUid : string)
    (pathParts : list string) : M string :=
  ensureRemotePathFrom rootFolderUid false pathParts.

(** [uploadFile(client, targetFolderUid, localFilePath, fileName, fileStat)] *)
Definition uploadFile (targetFolderUid localFilePath fileName : string)
    (fileStat : Stats) : M string :=
  existingFileUid ← findFileByName targetFolderUid fileName;
  let metadata :=
    mkMeta "application/octet-stream" (st_size fileStat) (st_mtime fileStat) in
  if truthy existingFileUid then
    let uid := default EmptyString existingFileUid in
    attempt (CallGetFileRevisionUploader uid metadata)
            (getFileRevisionUploader client uid metadata)
  else
    attempt (CallGetFileUploader targetFolderUid fileName metadata)
            (getFileUploader client targetFolderUid fileName metadata).

(** [createDirectory(client, targetFolderUid, dirName)] *)
Definition createDirectory (targetFolderUid dirName : string) : M string :=
  existingFolderUid ← findFolderByName targetFolderUid dirName;
  if truthy existingFolderUid then mret (default EmptyString existingFolderUid)
  else createFolderOrThrow "directory" targetFolderUid dirName.

Record CreateResult := mkCreate {
  cr_success : bool;
  cr_nodeUid : option string;
  cr_error : option string;
  cr_isDirectory : bool;
}.

Definition pathNotFound (localPath : string) : string :=
  "Path not found: " +:+ localPath
  +:+ ". For creating a new directory, add a trailing slash.".

(** [create(client, localPath)] *)
Definition create (localPath : string) : M CreateResult :=
  let pathStat := statSync localPath in
  let isDirectory :=
    match pathStat with
    | Some st => Some (st_isDirectory st)
    | None => if Js.endsWithSlash localPath then Some true else None
    end in
  match isDirectory with
  | None => mret (mkCreate false None (Some (pathNotFound localPath)) false)
  | Some isDirectory =>
      let '(parentParts, name) := parsePath localPath in
      root ← rootFolder;
      if negb (ur_ok root) then
        mret (mkCreate false None
                (Some ("Failed to get root folder: " +:+ ur_error root))
                isDirectory)
      else
        rootFolderUid ← bangUid root;
        targetFolderUid ←
          (if bool_decide (0 < length parentParts)%nat
           then ensureRemotePath rootFolderUid parentParts
           else mret rootFolderUid);
        tryCatch
          (if isDirectory then
             nodeUid ← createDirectory targetFolderUid name;
             mret (mkCreate true (Some nodeUid) None true)
           else
             match pathStat with
             | Some st =>
                 nodeUid ← uploadFile targetFolderUid localPath name st;
                 mret (mkCreate true (Some nodeUid) None false)
             | None =>
                 throw "Cannot read properties of null (reading 'size')"
             end)
          (λ message, mret (mkCreate false None (Some message) isDirectory))
  end.

End Drive.

(* ====================================================================== *)
(** ** [src/jobs.ts]: the executor *)
(* ====================================================================== *)

(** What one pass of [processNextJob] reads from its surroundings:
    [new Date()] in [getNextPendingJob], and, when it schedules a retry,
    [Date.now()] and [Math.random()]. *)
Record Tick := mkTick {
  selectTime : Z;
  retryTime : Z;
  random : Q;
}.

Section Executor.

Context {Drive : Type}.

Variable client : @ProtonDriveClient Drive.

(** [createNode(client, localPath, remotePath)] of [./create.js], as
    [jobs.ts] imports it: a call that talks to the drive and returns a
    [CreateResult] or throws. *)
Variable createNode : string → string → @M Drive CreateResult.

(** The process and what it acts on. *)
Record Sys := mkSys {
  db : Db;
  remote : @Remote Drive;
  logs : list LogLine;
}.

(** The [try] block of [processNextJob]: [None] when it runs to its end,
    the message of the error otherwise. [throw new Error(result.error)]
    has the empty message when [result.error] is undefined. *)
Definition runJob (job : SyncJob) (w : @Remote Drive)
    : option string * @Remote Drive * list LogLine :=
  if decide (eventType job = DELETE) then
    let started := [LogDeleting (remotePath job)] in
    match deleteNode client (remotePath job) false w with
    | (Thrown e, w') => (Some e, w', started)
    | (Returned result, w') =>
        if negb (del_success result)
        then (Some (default EmptyString (del_error result)), w', started)
        else if del_existed result
        then (None, w', started ++ [LogDeleted (remotePath job)])
        else (None, w', started ++ [LogAlreadyGone (remotePath job)])
    end
  else
    let started :=
      [if decide (eventType job = CREATE)
       then LogCreating (remotePath job) else LogUpdating (remotePath job)] in
    match createNode (localPath job) (remotePath job) w with
    | (Thrown e, w') => (Some e, w', started)
    | (Returned result, w') =>
        if negb (cr_success result)
        then (Some (default EmptyString (cr_error result)), w', started)
        else (None, w',
              started ++ [LogSuccess (remotePath job) (cr_nodeUid result)])
    end.

(** [processNextJob(client, dryRun)] *)
Definition processNextJob (dryRun : bool) (tk : Tick) (s : Sys) : bool * Sys :=
  match getNextPendingJob (selectTime tk) (db s) with
  | None => (false, s)
  | Some job =>
      let '(outcome, w', lines) := runJob job (remote s) in
      match outcome with
      | None =>
          (true, mkSys (markJobSynced (id job) dryRun (db s)) w'
                       (logs s ++ lines))
      | Some errorMessage =>
          if decide (MAX_RETRIES ≤ nRetries job)%nat then
            (true, mkSys (markJobBlocked (id job) errorMessage dryRun (db s))
                         w'
                         (logs s ++ lines
                            ++ [LogFailedPermanently (id job) errorMessage]))
          else
            let '(d', retryLines) :=
              scheduleRetry (id job) (nRetries job) errorMessage dryRun
                            (retryTime tk) (random tk) (db s) in
            (true, mkSys d' w' (logs s ++ lines ++ retryLines))
      end
  end.

(** [processAllPendingJobs(client, dryRun)]: the [while] loop takes one
    tick per test of its condition. [None]: the loop has not ended within
    the ticks given. *)
Fixpoint processAllPendingJobs (dryRun : bool) (ticks : list Tick) (s : Sys)
    : option (nat * Sys) :=
  match ticks with
  | [] => None
  | tk :: rest =>
      match processNextJob dryRun tk s with
      | (false, s') => Some (0%nat, s')
      | (true, s') =>
          match processAllPendingJobs dryRun rest s' with
          | Some (count, s'') => Some (S count, s'')
          | None => None
          end
      end
  end.

End Executor.

Arguments Sys : clear implicits.
Arguments mkSys {Drive} db remote logs.

(* ====================================================================== *)
(** ** The sync command: change buffer, flush and one-shot run *)
(* ====================================================================== *)

Inductive FileType := TypeF | TypeD.

#[global] Instance FileType_eq_dec : EqDecision FileType.
Proof. solve_decision. Defined.

(** A file record as Watchman reports it. The sync command asks for
    [name], [size], [mtime_ms], [exists] and [type]; [ino] is the further
    field the watcher module asks for. *)
Record WatchmanFile := mkFile {
  wf_name : string;
  wf_size : Z;
  wf_mtime_ms : Z;
  wf_exists : bool;
  wf_type : FileType;
  wf_ino : Z;
}.

(** [FileChange]: the record plus the watch root it came from and, in
    daemon mode, the clock of its notification. *)
Record FileChange := mkChange {
  fc_file : WatchmanFile;
  fc_watchRoot : string;
  fc_clock : option string;
}.

Record WatchmanQueryResponse := mkResponse {
  resp_clock : string;
  resp_files : list WatchmanFile;
}.

(** Modelled from the spec: [getClock] of the state module, which is not
    among the sources; the clock store returns the clock saved for a watch
    root, if any. *)
Definition getClock (directory : string) (d : Db) : option string :=
  clocks d !! directory.

(** Modelled from the spec: [setClock] of the state module, which is not
    among the sources; a write is last-writer-wins per root and a no-op
    when [dryRun] is true. *)
Definition setClock (directory clock : string) (dryRun : bool) (d : Db) : Db :=
  if dryRun then d
  else mkDb (syncJobs d) (jobSeq d) (<[directory := clock]> (clocks d)).

(** [Map.prototype.set] on the entries in insertion order: a known key
    keeps its place. *)
Fixpoint mapSet {V} (k : string) (v : V) (m : list (string * V))
    : list (string * V) :=
  match m with
  | [] => [(k, v)]
  | (k', v') :: m' =>
      if decide (k' = k) then (k, v) :: m' else (k', v') :: mapSet k v m'
  end.

(** The event type [processChanges] derives from a change. *)
Definition eventTypeOf (change : FileChange) : SyncEventType :=
  if negb (wf_exists (fc_file change)) then DELETE
  else if decide (wf_type (fc_file change) = TypeD) then CREATE
  else UPDATE.

(** [buildWatchmanQuery]: the query carries [since] only for a saved clock
    that is not empty. *)
Definition sinceOf (savedClock : option string) : option string :=
  if truthy savedClock then savedClock else None.

Section SyncCommand.

Context {Drive : Type}.

(** The module variables set once by [startCommand]. *)
Variable dryRun : bool.
Variable remoteRoot : string.
Variable protonClient : option (@ProtonDriveClient Drive).
Variable createNode : string → string → @M Drive CreateResult.

(** The module variables that change, with the system they act on. *)
Record SyncState := mkSync {
  sys : Sys Drive;
  pendingChanges : list (string * FileChange);
  isProcessing : bool;
}.

Definition localPathOf (path : string) (change : FileChange) : string :=
  fc_watchRoot change +:+ "/" +:+ path.

Definition remotePathOf (path : string) (change : FileChange) : string :=
  let dirName := Js.basename (fc_watchRoot change) in
  if Js.nonEmpty remoteRoot
  then remoteRoot +:+ "/" +:+ dirName +:+ "/" +:+ path
  else dirName +:+ "/" +:+ path.

Definition jobOf (entry : string * FileChange) : EnqueueParams :=
  let '(path, change) := entry in
  mkParams (eventTypeOf change) (localPathOf path change)
           (remotePathOf path change).

(** The body of the [for] loop of [processChanges]; [now] is the clock the
    insert reads. *)
Definition enqueueChange (now : Z) (s : Sys Drive)
    (entry : string * FileChange) : Sys Drive :=
  let '(path, change) := entry in
  mkSys (enqueueJob (jobOf entry) dryRun now (db s)) (remote s)
        (logs s ++ [LogEnqueueing (eventTypeOf change)
                      (bool_decide (wf_type (fc_file change) = TypeD)) path]).

(** The [for] loop of [processChanges] over the snapshot. *)
Definition enqueueChanges (now : Z) (changes : list (string * FileChange))
    (s : Sys Drive) : Sys Drive :=
  foldl (enqueueChange now) s changes.

(** [processChanges()]. The flush loop does not await, its inserts read
    one clock value [now]; [ticks] feed the executor loop. [None]: the
    executor loop has not ended within the ticks. Re-arming the debounce
    timer at the end is left out (one-shot mode has no later events). *)
Definition processChanges (now : Z) (ticks : list Tick) (st : SyncState)
    : option SyncState :=
  match protonClient with
  | None => Some st
  | Some client =>
      if isProcessing st then Some st
      else
        let changes := pendingChanges st in
        let s1 := enqueueChanges now changes (sys st) in
        match processAllPendingJobs client createNode dryRun ticks s1 with
        | None => None
        | Some (processed, s2) =>
            let s3 :=
              if bool_decide (0 < processed)%nat
              then mkSys (db s2) (remote s2) (logs s2 ++ [LogProcessed processed])
              else s2 in
            Some (mkSync s3 [] false)
        end
  end.

(** [queueChange(file, false)] *)
Definition queueChange (file : FileChange) (st : SyncState) : SyncState :=
  mkSync (sys st) (mapSet (wf_name (fc_file file)) file (pendingChanges st))
         (isProcessing st).

(** The part of the callback of [runOneShotSync] that follows the answer
    of Watchman for one directory: save the clock, then queue the
    changes. It runs without awaiting. *)
Definition handleResponse (watchDir : string) (resp : WatchmanQueryResponse)
    (st : SyncState) : SyncState :=
  let st1 :=
    if Js.nonEmpty (resp_clock resp)
    then mkSync (mkSys (setClock watchDir (resp_clock resp) dryRun (db (sys st)))
                       (remote (sys st)) (logs (sys st)))
                (pendingChanges st) (isProcessing st)
    else st in
  foldl (λ acc file, queueChange (mkChange file watchDir None) acc)
        st1 (resp_files resp).

(** The queries of [runOneShotSync]. [dirs] are the configured directories
    with their real paths; [watchman] answers the query for a directory
    given its [since]; the directories are taken in the order in which
    their answers arrive. *)
Definition queryAll (watchman : string → option string → WatchmanQueryResponse)
    (dirs : list string) (st : SyncState) : SyncState :=
  foldl (λ acc watchDir,
           let savedClock := getClock watchDir (db (sys acc)) in
           let line :=
             if truthy savedClock then LogSyncingSince watchDir
             else LogFirstRun watchDir in
           let acc1 :=
             mkSync (mkSys (db (sys acc)) (remote (sys acc))
                           (logs (sys acc) ++ [line]))
                    (pendingChanges acc) (isProcessing acc) in
           handleResponse watchDir (watchman watchDir (sinceOf savedClock)) acc1)
        st dirs.

(** [runOneShotSync(config)]: all queries, then [processChanges]. *)
Definition runOneShotSync
    (watchman : string → option string → WatchmanQueryResponse)
    (dirs : list string) (now : Z) (ticks : list Tick) (st : SyncState)
    : option SyncState :=
  let st1 := queryAll watchman dirs st in
  match pendingChanges st1 with
  | [] =>
      Some (mkSync (mkSys (db (sys st1)) (remote (sys st1))
                          (logs (sys st1) ++ [LogNoChanges]))
                   [] (isProcessing st1))
  | _ => processChanges now ticks st1
  end.

End SyncCommand.

Arguments SyncState : clear implicits.
Arguments mkSync {Drive} sys pendingChanges isProcessing.

(* ====================================================================== *)
(** ** [src/sync/watcher.ts]: the one-shot query *)
(* ====================================================================== *)

Section Watcher.

(** The state the batch handler works on besides the database. *)
Context {H : Type}.

(** [onFileChangeBatch], the handler the caller passes in. *)
Variable onFileChangeBatch : list FileChange → Db * H → Db * H.

(** The part of the callback of [queryAllChanges] that follows the answer
    of Watchman for one directory. The second component is what it adds
    to [totalChanges]. *)
Definition handleQueryResponse (watchDir : string)
    (resp : WatchmanQueryResponse) (dryRun : bool) (st : Db * H)
    : (Db * H) * nat :=
  let st1 :=
    if Js.nonEmpty (resp_clock resp)
    then (setClock watchDir (resp_clock resp) dryRun st.1, st.2)
    else st in
  let files := resp_files resp in
  if bool_decide (0 < length files)%nat
  then (onFileChangeBatch ((λ f, mkChange f watchDir None) <$> files) st1,
        length files)
  else (st1, 0%nat).

(** [queryAllChanges(config, onFileChangeBatch, dryRun)], the directories
    in the order in which their answers arrive (the two informational log
    lines per directory are left out here). *)
Definition queryAllChanges
    (watchman : string → option string → WatchmanQueryResponse)
    (dirs : list string) (dryRun : bool) (st : Db * H) : (Db * H) * nat :=
  foldl (λ acc watchDir,
           let savedClock := getClock watchDir acc.1.1 in
           let '(st', n) :=
             handleQueryResponse watchDir (watchman watchDir (sinceOf savedClock))
                                 dryRun acc.1 in
           (st', (acc.2 + n)%nat))
        (st, 0%nat) dirs.

End Watcher.

(* ====================================================================== *)
(** ** Observations on a store, a journal and a log *)
(* ====================================================================== *)

(** The number of PENDING rows of a local path. *)
Definition pendingFor (path : string) (d : Db) : nat :=
  length (filter (λ j, status j = PENDING ∧ localPath j = path) (syncJobs d)).

(** The columns [enqueueJob] is given. *)
Definition jobColumns (j : SyncJob) : SyncEventType * string * string :=
  (eventType j, localPath j, remotePath j).

(** A line that opens an attempt on a job. *)
Definition isAttempt (l : LogLine) : bool :=
  match l with
  | LogDeleting _ | LogCreating _ | LogUpdating _ => true
  | _ => false
  end.

(** A line that reports a remote operation that went through. *)
Definition isCompletion (l : LogLine) : bool :=
  match l with
  | LogDeleted _ | LogAlreadyGone _ | LogSuccess _ _ => true
  | _ => false
  end.

Definition attempts (ls : list LogLine) : nat :=
  length (filter (λ l, isAttempt l = true) ls).
Definition completions (ls : list LogLine) : nat :=
  length (filter (λ l, isCompletion l = true) ls).

(** What every reachable store satisfies: the retry counts are bounded and
    the ids are those AUTOINCREMENT has handed out, each once. *)
Definition storeInv (d : Db) : Prop :=
  Forall (λ j, nRetries j ≤ MAX_RETRIES)%nat (syncJobs d)
  ∧ NoDup (id <$> syncJobs d)
  ∧ Forall (λ j, id j ≤ jobSeq d)%nat (syncJobs d).

(** From [w] to [w'] the drive is as it was and no removal went out. *)
Definition onlyRead {Drive : Type} (w w' : @Remote Drive) : Prop :=
  drive w' = drive w
  ∧ ∃ extra, calls w' = calls w ++ extra
             ∧ Forall (λ c, isRemoval c = false) extra.

Section RemoteTree.

Context {Drive : Type}.
Variable client : @ProtonDriveClient Drive.
Variable d : Drive.

(** The listing of [parent] returns [nodes]. *)
Definition listed (parent : string) (nodes : list NodeResult) : Prop :=
  iterateFolderChildren client parent d = Returned nodes.

(** [node] is listed under [parent] with the name [name] (an entry of the
    listing that is ok and carries a value). *)
Definition childNamed (parent name : string) (node : NodeData) : Prop :=
  ∃ nodes r, listed parent nodes ∧ r ∈ nodes
             ∧ nr_ok r = true ∧ nr_value r = Some node ∧ nd_name node = name.

(** From [from], the folders named [parts] lead to the folder [to]. *)
Fixpoint folderChain (from : string) (parts : list string) (to : string)
    : Prop :=
  match parts with
  | [] => from = to
  | p :: ps =>
      ∃ node, childNamed from p node ∧ nd_type node = "folder"
              ∧ folderChain (nd_uid node) ps to
  end.


(** The root folder lookup returns an answer that is ok and carries the
    uid [rootUid]. *)
Definition rootFolderIs (rootUid : string) : Prop :=
  ∃ root, getMyFilesRootFolder client d = Returned root
          ∧ ur_ok root = true ∧ ur_value root = Some rootUid.

(** Every folder that [parts] leads through below [root], the last one
    included, can be listed. *)
Definition walkable (root : string) (parts : list string) : Prop :=
  ∀ pre post to, parts = pre ++ post → folderChain root pre to →
                 ∃ nodes, listed to nodes.

(** The same for the folders before the last. *)
Definition waysListed (from : string) (parts : list string) : Prop :=
  ∀ pre post to, parts = pre ++ post → post ≠ [] →
                 folderChain from pre to → ∃ nodes, listed to nodes.

End RemoteTree.

(** The transitions of the store: an enqueue, or one pass of the executor. *)
Section Reachable.

Context {Drive : Type}.
Variable client : @ProtonDriveClient Drive.
Variable createNode : string → string → @M Drive CreateResult.

Inductive sysStep : Sys Drive → Sys Drive → Prop :=
  | StepEnqueue params dryRun now s :
      sysStep s (mkSys (enqueueJob params dryRun now (db s)) (remote s) (logs s))
  | StepProcess dryRun tk s :
      sysStep s (processNextJob client createNode dryRun tk s).2.

Inductive reachable : Sys Drive → Prop :=
  | ReachEmpty w ls : reachable (mkSys emptyDb w ls)
  | ReachStep s s' : reachable s → sysStep s s' → reachable s'.

End Reachable.

(* ====================================================================== *)
(** ** Concrete drives for the examples *)
(* ====================================================================== *)

(** A client over a drive that never changes: the root folder answer and
    the listings are fixed, removals and folder creations report [ok],
    uploads end with the uid ["new"]. *)
Definition fixedClient (root : UidResult)
    (listing : string → Result (list NodeResult))
    : @ProtonDriveClient unit :=
  {| getMyFilesRootFolder := λ _, Returned root;
     iterateFolderChildren := λ uid _, listing uid;
     trashNodes := λ uids _,
       (Returned ((λ _, mkDeleteResult true EmptyString) <$> uids), tt);
     deleteNodes := λ uids _,
       (Returned ((λ _, mkDeleteResult true EmptyString) <$> uids), tt);
     createFolder := λ _ name _,
       (Returned (mkUidResult true (Some name) EmptyString), tt);
     getFileUploader := λ _ _ _ _, (Returned "new", tt);
     getFileRevisionUploader := λ uid _ _, (Returned uid, tt) |}.

(** The drive cannot be reached: the root folder lookup is not ok. *)
Definition offlineClient : @ProtonDriveClient unit :=
  fixedClient (mkUidResult false None "offline") (λ _, Returned []).

(** A reachable drive whose root folder ["root"] is empty. *)
Definition emptyDriveClient : @ProtonDriveClient unit :=
  fixedClient (mkUidResult true (Some "root") EmptyString) (λ _, Returned []).

(** A drive that answers for its root folder and fails every listing. *)
Definition unlistableClient : @ProtonDriveClient unit :=
  fixedClient (mkUidResult true (Some "root") EmptyString)
              (λ _, Thrown "listing failed").

(** A reachable drive with the folder ["w"] under the root and the file
    ["a.txt"] in it. *)
Definition smallDriveClient : @ProtonDriveClient unit :=
  fixedClient (mkUidResult true (Some "root") EmptyString)
    (λ uid,
       Returned
         (if decide (uid = "root")
          then [mkNodeResult true (Some (mkNode "w" "w1" "folder"))]
          else if decide (uid = "w1")
          then [mkNodeResult true (Some (mkNode "a.txt" "f1" "file"))]
          else [])).

(** A local file system in which every path is a file of 5 bytes. *)
Definition allLocalFiles : string → option Stats :=
  λ _, Some (mkStats false 5 0).

(** A [createNode] that always reports success. *)
Definition createNodeOk : string → string → @M unit CreateResult :=
  λ _ _, mret (mkCreate true (Some "new") None false).

Definition freshRemote : @Remote unit := mkRemote tt [].
Definition freshSys : Sys unit := mkSys emptyDb freshRemote [].

Definition sampleDelete : EnqueueParams := mkParams DELETE "/w/a.txt" "w/a.txt".

(** The store after one enqueue of [sampleDelete] at time 0. *)
Definition sysWithDelete : Sys unit :=
  mkSys (enqueueJob sampleDelete false 0 emptyDb) freshRemote [].

(** A pass at time 0 and a pass one millisecond later. *)
Definition twoTicks : list Tick := [mkTick 0 0 0; mkTick 1 1 0].

(** Where the executor loop leaves [sysWithDelete] when the drive cannot be
    reached. *)
Definition retriedSys : Sys unit :=
  Eval vm_compute in
    match processAllPendingJobs offlineClient createNodeOk false twoTicks
            sysWithDelete with
    | Some (_, s') => s'
    | None => sysWithDelete
    end.







(** A batch for the watch root ["/w"]: ["old.txt"] is gone and ["new.txt"]
    has appeared with the same inode; the clock of the batch is ["c:1"]. *)
Definition movedPair : list WatchmanFile :=
  [mkFile "old.txt" 5 0 false TypeF 42; mkFile "new.txt" 5 0 true TypeF 42].

Definition movedBatch : string → option string → WatchmanQueryResponse :=
  λ _ _, mkResponse "c:1" movedPair.

(** The sync command before its first run. *)
Definition freshSync : SyncState unit := mkSync freshSys [] false.

(** A local file system without any entry. *)
Definition noLocalFiles : string → option Stats := λ _, None.

(** Three passes, one millisecond apart. *)
Definition threeTicks : list Tick := [mkTick 0 0 0; mkTick 1 1 0; mkTick 2 2 0].

(** The one-shot run over ["/w"] that is answered with [movedBatch]. *)
Definition movedRun : option (SyncState unit) :=
  runOneShotSync false EmptyString (Some emptyDriveClient) createNodeOk movedBatch
                 ["/w"] 0 threeTicks freshSync.



Definition sampleUpdate : EnqueueParams := mkParams UPDATE "/w/a.txt" "w/a.txt".

Definition sampleUpdateRow : SyncJob :=
  mkSyncJob 1 UPDATE "/w/a.txt" "w/a.txt" PENDING 0 0 None 0.

(** The row of [sampleDelete], enqueued at 4900 ms, after a failure at
    4900 ms with three retries behind it and the draw 1/2: the delay is
    8000 + 2000 ms, the retry [Date] 14900 ms. *)
Definition sampleRetriedRow : SyncJob :=
  mkSyncJob 1 DELETE "/w/a.txt" "w/a.txt" PENDING 14 4 (Some "offline") 4.


(* ====================================================================== *)
(** ** Further observations on the job store *)
(* ====================================================================== *)

(** The columns no update of [jobs.ts] has in its [set] clause. *)
Definition fixedColumns (j : SyncJob)
    : nat * SyncEventType * string * string * Z :=
  (id j, eventType j, localPath j, remotePath j, createdAt j).

(** The attempts a row can still get: a PENDING row with [n] retries behind
    it can fail [MAX_RETRIES - n] more times before the failure that blocks
    it. *)
Definition attemptsLeft (j : SyncJob) : nat :=
  if decide (status j = PENDING) then S MAX_RETRIES - nRetries j else 0.

Definition retryBudget (d : Db) : nat := sum_list_with attemptsLeft (syncJobs d).

(** Twelve passes, a million milliseconds apart. *)
Definition twelveTicks : list Tick :=
  (λ i : nat, mkTick (Z.of_nat i * 1000000) (Z.of_nat i * 1000000) 0)
    <$> seq 0 12.

(** The store after the enqueues of two DELETE jobs at time 0. *)
Definition sysWithTwoDeletes : Sys unit :=
  mkSys (enqueueJob (mkParams DELETE "/w/b.txt" "w/b.txt") false 0
           (enqueueJob sampleDelete false 0 emptyDb))
        freshRemote [].

(** The removal [deleteNode] asks for, for a node uid. *)
Definition removalCall (permanent : bool) (uid : string) : ClientCall :=
  if permanent then CallDeleteNodes [uid] else CallTrashNodes [uid].

(** The result [deleteNode] returns once the removal of [node] has gone
    out: [outcome] is what the loop over the removal results has seen, the
    results or the error thrown. *)
Definition removalResult (permanent : bool) (node : NodeData)
    (outcome : Result (list DeleteResult)) : DeleteOperationResult :=
  match outcome with
  | Returned results =>
      match firstFailure results with
      | Some r =>
          mkDeleteOp false true (Some (nd_uid node)) (Some (nd_type node))
            (Some ((if permanent then "Failed to delete: "
                    else "Failed to trash: ") +:+ dr_error r))
      | None =>
          mkDeleteOp true true (Some (nd_uid node)) (Some (nd_type node)) None
      end
  | Thrown e =>
      mkDeleteOp false true (Some (nd_uid node)) (Some (nd_type node)) (Some e)
  end.

(** The removals among the calls. *)
Definition removals (cs : list ClientCall) : list ClientCall :=
  filter (λ c, isRemoval c = true) cs.

Definition isListing (c : ClientCall) : Prop :=
  match c with
  | CallIterateFolderChildren _ => True
  | _ => False
  end.

Definition isFolderCreation (c : ClientCall) : Prop :=
  match c with
  | CallCreateFolder _ _ => True
  | _ => False
  end.

Definition isReturned {A} (r : Result A) : Prop :=
  match r with
  | Returned _ => True
  | Thrown _ => False
  end.

Section RemoteNames.

Context {Drive : Type}.
Variable client : @ProtonDriveClient Drive.
Variable d : Drive.

(** [node] is a folder (a file) listed under [parent] with the name [name]
    and a uid that is not empty. *)
Definition folderNamed (parent name : string) (node : NodeData) : Prop :=
  childNamed client d parent name node
  ∧ nd_type node = "folder" ∧ nd_uid node ≠ EmptyString.

Definition fileNamed (parent name : string) (node : NodeData) : Prop :=
  childNamed client d parent name node
  ∧ nd_type node = "file" ∧ nd_uid node ≠ EmptyString.

(** Below [from] there is a folder for every component of [parts],
    whichever of the folders of a name is taken. *)
Fixpoint foldersAlong (from : string) (parts : list string) : Prop :=
  match parts with
  | [] => True
  | p :: ps =>
      (∃ node, folderNamed from p node)
      ∧ ∀ node, folderNamed from p node → foldersAlong (nd_uid node) ps
  end.

End RemoteNames.

(* ====================================================================== *)
(** ** The sync command: watch mode *)
(* ====================================================================== *)

(** [s.replace(pat, EmptyString)] for a string pattern: the first
    occurrence of [pat] is cut out. *)
Fixpoint cutFirst (pat s : string) : string :=
  match s with
  | EmptyString => EmptyString
  | String c s' =>
      if String.prefix pat s then Js.sliceFrom (String.length pat) s
      else String c (cutFirst pat s')
  end.

Definition SUB_NAME : string := "proton-drive-sync".

(** The name under which [setupWatchmanDaemon] subscribes a directory. *)
Definition subscriptionName (watchDir : string) : string :=
  SUB_NAME +:+ "-" +:+ Js.basename watchDir.

(** A notification of a subscription. *)
Record SubscriptionResponse := mkNotification {
  sub_subscription : string;
  sub_files : list WatchmanFile;
  sub_clock : option string;
}.

Section WatchMode.

Context {Drive : Type}.

Variable dryRun : bool.
Variable remoteRoot : string.
Variable protonClient : option (@ProtonDriveClient Drive).
Variable createNode : string → string → @M Drive CreateResult.

(** [realpathSync] on the configured directories. *)
Variable realpathSync : string → string.

(** The sync command in watch mode: its state, whether the debounce timer
    is armed, and the lines handed to [logger.error]. *)
Record DaemonState := mkDaemon {
  sync : SyncState Drive;
  debounceTimer : bool;
  errors : list string;
}.

(** [queueChange(file, true)]: the change goes into the buffer and
    [scheduleProcessing] re-arms the timer. *)
Definition queueAndSchedule (file : FileChange) (st : DaemonState)
    : DaemonState :=
  mkDaemon (queueChange file (sync st)) true (errors st).

(** The listener [setupWatchmanDaemon] registers for notifications;
    [syncDirs] is [config.sync_dirs]. *)
Definition onSubscription (syncDirs : list string)
    (resp : SubscriptionResponse) (st : DaemonState) : DaemonState :=
  if negb (Js.startsWith (sub_subscription resp) SUB_NAME) then st
  else
    let dirName := cutFirst (SUB_NAME +:+ "-") (sub_subscription resp) in
    let watchRoot :=
      default EmptyString
        (List.find (λ d, bool_decide (Js.basename (realpathSync d) = dirName))
                   syncDirs) in
    if negb (Js.nonEmpty watchRoot) then
      mkDaemon (sync st) (debounceTimer st)
        (errors st ++ ["Could not find watch root for subscription: "
                       +:+ sub_subscription resp])
    else
      let resolvedRoot := realpathSync watchRoot in
      foldl (λ acc file,
               queueAndSchedule (mkChange file resolvedRoot (sub_clock resp)) acc)
            st (sub_files resp).

(** The debounce timer fires: [debounceTimer = null; processChanges()].
    [None]: the executor loop has not ended within the ticks. *)
Definition onDebounce (now : Z) (ticks : list Tick) (st : DaemonState)
    : option DaemonState :=
  match processChanges dryRun remoteRoot protonClient createNode now ticks
          (sync st) with
  | Some sync' => Some (mkDaemon sync' false (errors st))
  | None => None
  end.

(** What happens in watch mode: a notification arrives, or the armed timer
    fires and its flush runs to its end. *)
Inductive daemonStep (syncDirs : list string) : DaemonState → DaemonState → Prop :=
  | StepNotify resp st :
      daemonStep syncDirs st (onSubscription syncDirs resp st)
  | StepDebounce now ticks st st' :
      debounceTimer st = true →
      onDebounce now ticks st = Some st' →
      daemonStep syncDirs st st'.

End WatchMode.

Arguments DaemonState : clear implicits.
Arguments mkDaemon {Drive} sync debounceTimer errors.

(** A notification for ["/w"] with the clock ["c:2"], and the watch mode
    state after it and after the flush that follows. *)
Definition movedNotification : SubscriptionResponse :=
  mkNotification "proton-drive-sync-w" movedPair (Some "c:2").

Definition freshDaemon : DaemonState unit := mkDaemon freshSync false [].

Definition notifiedDaemon : DaemonState unit :=
  Eval vm_compute in
    onSubscription (λ d, d) ["/w"] movedNotification freshDaemon.

Definition flushedDaemon : DaemonState unit :=
  Eval vm_compute in
    default notifiedDaemon
      (onDebounce false EmptyString (Some emptyDriveClient) createNodeOk
                  0 threeTicks notifiedDaemon).

(* ---------------------------------------------------------------------- *)
(** *** Watch mode of the watcher ([setupWatchSubscriptions]) *)

(** The commands sent to Watchman that change what it delivers. *)
Inductive WatchmanCommand :=
| CmdSubscribe (root subName : string) (since relative_root : option string)
| CmdUnsubscribe (root subName : string).

(** The answer to [watch-project]. *)
Record WatchProjectResponse := mkWatchProject {
  wp_watch : string;
  wp_relative_path : option string
}.

(** The module state of the watcher, the [.watchmanconfig] files on disk
    (path to content) and the journal of commands. [subscriptionListeners]
    counts the listeners registered for the subscription event. *)
Record WatcherState := mkWatcher {
  activeSubscriptions : list (string * string);
  subscriptionToSourcePath : gmap string string;
  subscriptionListeners : nat;
  configFiles : gmap string string;
  commands : list WatchmanCommand
}.

Definition noWatcher (files : gmap string string) : WatcherState :=
  mkWatcher [] ∅ 0 files [].

Section WatchSubscriptions.

Context {H : Type}.

(** [WATCHMAN_SUB_NAME] of the constants module and the content written
    to a new [.watchmanconfig], the settle time as JSON. *)
Variable WATCHMAN_SUB_NAME : string.
Variable settleConfig : string.

(** [realpathSync], [join(watchDir, '.watchmanconfig')], whether
    [writeFileSync] throws for a path, the answer of [watch-project] for a
    directory ([None]: the command fails) and whether [subscribe] fails. *)
Variable realpathSync : string → string.
Variable configPath : string → string.
Variable writeFails : string → bool.
Variable watchProject : string → option WatchProjectResponse.
Variable subscribeFails : string → string → bool.

Variable onFileChangeBatch : list FileChange → Db * H → Db * H.
Variable dryRun : bool.

(** [ensureWatchmanConfig(watchDir)] *)
Definition ensureWatchmanConfig (watchDir : string)
    (files : gmap string string) : gmap string string :=
  let path := configPath watchDir in
  if bool_decide (is_Some (files !! path)) then files
  else if writeFails path then files
  else <[path := settleConfig]> files.

(** The subscription name of a watched directory. *)
Definition watcherSubName (watchDir : string) : string :=
  WATCHMAN_SUB_NAME +:+ "-" +:+ Js.basename watchDir.

(** [teardownWatchSubscriptions()]; a failing [unsubscribe] is caught. *)
Definition teardownWatchSubscriptions (ws : WatcherState) : WatcherState :=
  if bool_decide (length (activeSubscriptions ws) = 0%nat) then ws
  else
    mkWatcher [] ∅ 0 (configFiles ws)
      (commands ws
       ++ ((λ s, CmdUnsubscribe s.1 s.2) <$> activeSubscriptions ws)).

(** The listener [setupWatchSubscriptions] registers for the subscription
    event, run on the configuration of the moment (the log lines are left
    out). *)
Definition onSubscriptionEvent (currentDirs : list string) (ws : WatcherState)
    (resp : SubscriptionResponse) (st : Db * H) : Db * H :=
  if negb (Js.startsWith (sub_subscription resp) WATCHMAN_SUB_NAME) then st
  else
    match subscriptionToSourcePath ws !! sub_subscription resp with
    | None => st
    | Some resolvedRoot =>
        if negb (Js.nonEmpty resolvedRoot) then st
        else
          match List.find (λ d, bool_decide (realpathSync d = resolvedRoot))
                          currentDirs with
          | None => st
          | Some _ =>
              let fileChanges :=
                (λ f, mkChange f resolvedRoot None) <$> sub_files resp in
              let st1 :=
                if bool_decide (0 < length fileChanges)%nat
                then onFileChangeBatch fileChanges st else st in
              if truthy (sub_clock resp)
              then (setClock resolvedRoot (default EmptyString (sub_clock resp))
                             dryRun st1.1, st1.2)
              else st1
          end
    end.

(** The event is delivered to every registered listener. *)
Definition emitSubscription (currentDirs : list string) (ws : WatcherState)
    (resp : SubscriptionResponse) (st : Db * H) : Db * H :=
  Nat.iter (subscriptionListeners ws) (onSubscriptionEvent currentDirs ws resp) st.

(** The callback of [setupWatchSubscriptions] for one directory. The flag
    turns false when a command of the directory fails. *)
Definition subscribeDir (d : Db) (acc : WatcherState * bool) (dir : string)
    : WatcherState * bool :=
  let ws := acc.1 in
  let watchDir := realpathSync dir in
  let subName := watcherSubName watchDir in
  let files := ensureWatchmanConfig watchDir (configFiles ws) in
  match watchProject watchDir with
  | None =>
      (mkWatcher (activeSubscriptions ws) (subscriptionToSourcePath ws)
                 (subscriptionListeners ws) files (commands ws), false)
  | Some watchResp =>
      let root := wp_watch watchResp in
      let relative := default EmptyString (wp_relative_path watchResp) in
      let savedClock := getClock watchDir d in
      let sent :=
        commands ws
        ++ [CmdSubscribe root subName (sinceOf savedClock)
              (if Js.nonEmpty relative then Some relative else None)] in
      if subscribeFails root subName then
        (mkWatcher (activeSubscriptions ws) (subscriptionToSourcePath ws)
                   (subscriptionListeners ws) files sent, false)
      else
        (mkWatcher (activeSubscriptions ws ++ [(root, subName)])
                   (<[subName := watchDir]> (subscriptionToSourcePath ws))
                   (subscriptionListeners ws) files sent, acc.2)
  end.

(** [setupWatchSubscriptions(config, onFileChangeBatch, dryRun)], the
    directories in the order in which their answers arrive. The flag is
    false when the returned promise is rejected; the state is the one
    reached when every callback has ended. *)
Definition setupWatchSubscriptions (d : Db) (dirs : list string)
    (ws : WatcherState) : WatcherState * bool :=
  let ws1 := teardownWatchSubscriptions ws in
  let ws2 :=
    mkWatcher (activeSubscriptions ws1) (subscriptionToSourcePath ws1)
              (S (subscriptionListeners ws1)) (configFiles ws1) (commands ws1) in
  foldl (subscribeDir d) (ws2, true) dirs.

End WatchSubscriptions.

(** A run of the watcher: set-ups and tear-downs, each set-up with the
    file system and the Watchman of its moment. *)
Inductive watcherStep (WATCHMAN_SUB_NAME settleConfig : string)
    : WatcherState → WatcherState → Prop :=
| StepSetup realpathSync configPath writeFails watchProject subscribeFails
            d dirs ws :
    watcherStep WATCHMAN_SUB_NAME settleConfig ws
      (setupWatchSubscriptions WATCHMAN_SUB_NAME settleConfig realpathSync
         configPath writeFails watchProject subscribeFails d dirs ws).1
| StepTeardown ws :
    watcherStep WATCHMAN_SUB_NAME settleConfig ws
                (teardownWatchSubscriptions ws).

(** Every name the routing map knows is the name of an active
    subscription and conversely. *)
Definition routingInv (ws : WatcherState) : Prop :=
  ∀ name, is_Some (subscriptionToSourcePath ws !! name)
          ↔ name ∈ (activeSubscriptions ws).*2.

(** Watchman answering every directory with the directory itself as the
    watch root. *)
Definition watchesItself : string → option WatchProjectResponse :=
  λ dir, Some (mkWatchProject dir None).

(** The watcher after the set-up of ["/a/w"] and then ["/b/w"], two
    directories with the same base name. *)
Definition twoSameNamed : WatcherState :=
  (setupWatchSubscriptions "pds" "{}" (λ p, p) (λ p, p +:+ "/.watchmanconfig")
     (λ _, false) watchesItself (λ _ _, false) emptyDb ["/a/w"; "/b/w"]
     (noWatcher ∅)).1.

(* ---------------------------------------------------------------------- *)
(** *** Waiting for Watchman *)

(** How [waitForWatchman] ends: it returns after a probe that succeeded,
    the process exits, or the loop ends without any probe. The number is
    that of the waits of [delayMs] it has made. *)
Inductive WaitOutcome :=
| WaitReady (sleeps : nat)
| WaitExit (sleeps : nat)
| WaitNoProbe.

(** The loop of [waitForWatchman] from [attempt] on, with [remaining]
    rounds to go and [sleeps] waits made; [probe n] tells whether
    [watchman version] succeeds at attempt [n]. *)
Fixpoint waitFrom (probe : nat → bool) (maxAttempts remaining attempt sleeps : nat)
    : WaitOutcome :=
  match remaining with
  | O => WaitNoProbe
  | S remaining' =>
      if probe attempt then WaitReady sleeps
      else if bool_decide (attempt = maxAttempts) then WaitExit sleeps
      else waitFrom probe maxAttempts remaining' (S attempt) (S sleeps)
  end.

(** [waitForWatchman(maxAttempts, delayMs)] *)
Definition waitForWatchman (probe : nat → bool) (maxAttempts : nat)
    : WaitOutcome :=
  waitFrom probe maxAttempts maxAttempts 1 0.





(* ====================================================================== *)
(** ** The job store *)
(* ====================================================================== *)

Section JobStore.

Implicit Types (d : Db) (j : SyncJob) (now : Z).

(** Comparing whole seconds is comparing the [Date] read back with the
    [Date] given. *)
Lemma whereReady_readyAt now j : whereReady now j ↔ readyAt now j.
Proof.
  unfold whereReady, readyAt, retryAt, toTimestamp, fromTimestamp.
  split; intros [Hst Hdue]; (split; [done|]).
  - pose proof (Z.mul_div_le now 1000). lia.
  - apply Z.div_le_lower_bound; lia.
Qed.

Lemma earliest_fold (rows : list SyncJob) : ∀ best,
  match foldl earliest best rows with
  | None => best = None ∧ rows = []
  | Some j => (best = Some j ∨ j ∈ rows)
              ∧ (∀ b, best = Some b → retry_at j ≤ retry_at b)
              ∧ ∀ j', j' ∈ rows → retry_at j ≤ retry_at j'
  end.
Proof.
  induction rows as [|x rows IH]; intros best.
  - simpl. destruct best as [b|]; [|done].
    split; [by left|]. split; [by intros ? [= <-]|].
    intros j' Hin. by apply elem_of_nil in Hin.
  - simpl. specialize (IH (earliest best x)).
    destruct (foldl earliest (earliest best x) rows) as [j|].
    + destruct IH as (Hfrom & Hbest & Hrows).
      unfold earliest in Hfrom, Hbest. destruct best as [b|].
      * destruct (decide (retry_at x < retry_at b)) as [Hlt|Hge].
        -- specialize (Hbest x eq_refl). split; [|split].
           ++ right. destruct Hfrom as [[= <-]|Hin]; [left | by right].
           ++ intros b' [= <-]. lia.
           ++ intros j' Hin. apply elem_of_cons in Hin as [->|Hin];
                [done | by apply Hrows].
        -- specialize (Hbest b eq_refl). split; [|split].
           ++ destruct Hfrom as [[= <-]|Hin]; [by left | right; by right].
           ++ by intros b' [= <-].
           ++ intros j' Hin. apply elem_of_cons in Hin as [->|Hin];
                [lia | by apply Hrows].
      * specialize (Hbest x eq_refl). split; [|split].
        -- right. destruct Hfrom as [[= <-]|Hin]; [left | by right].
        -- done.
        -- intros j' Hin. apply elem_of_cons in Hin as [->|Hin];
             [done | by apply Hrows].
    + destruct IH as [Hnone _]. unfold earliest in Hnone.
      destruct best as [b|]; [|done]. by destruct (decide _).
Qed.

Lemma getNextPendingJob_Some now d j :
  getNextPendingJob now d = Some j →
  j ∈ syncJobs d ∧ readyAt now j
  ∧ ∀ j', j' ∈ syncJobs d → readyAt now j' → retryAt j ≤ retryAt j'.
Proof.
  unfold getNextPendingJob. intros Hsel.
  pose proof (earliest_fold (filter (whereReady now) (syncJobs d)) None) as Hfold.
  rewrite Hsel in Hfold. destruct Hfold as ([?|Hin] & _ & Hmin); [done|].
  apply list_elem_of_filter in Hin as [Hready Hin].
  split; [done|]. split; [by apply whereReady_readyAt|].
  intros j' Hin' Hready'. unfold retryAt, fromTimestamp.
  assert (retry_at j ≤ retry_at j'); [|lia].
  apply Hmin, list_elem_of_filter. split; [by apply whereReady_readyAt | done].
Qed.

Lemma getNextPendingJob_None now d :
  getNextPendingJob now d = None ↔ ∀ j, j ∈ syncJobs d → ¬ readyAt now j.
Proof.
  unfold getNextPendingJob.
  pose proof (earliest_fold (filter (whereReady now) (syncJobs d)) None) as Hfold.
  split.
  - intros Hnone. rewrite Hnone in Hfold. destruct Hfold as [_ Hnil].
    intros j Hin Hready.
    assert (Hj : j ∈ filter (whereReady now) (syncJobs d)).
    { apply list_elem_of_filter. split; [by apply whereReady_readyAt | done]. }
    rewrite Hnil in Hj. by apply elem_of_nil in Hj.
  - intros Hnone.
    destruct (foldl earliest None _) as [j|]; [|done].
    destruct Hfold as ([?|Hin] & _); [done|].
    apply list_elem_of_filter in Hin as [Hready Hin].
    exfalso. apply (Hnone j Hin). by apply whereReady_readyAt.
Qed.

(** Among the rows that are due with the same [retry_at], the first in
    rowid order is the one selected. *)
Lemma getNextPendingJob_first now (before after : list SyncJob) j seq cl :
  whereReady now j →
  (∀ j', j' ∈ before → whereReady now j' → retry_at j < retry_at j') →
  (∀ j', j' ∈ after → whereReady now j' → retry_at j ≤ retry_at j') →
  getNextPendingJob now (mkDb (before ++ j :: after) seq cl) = Some j.
Proof.
  intros Hj Hbefore Hafter. unfold getNextPendingJob. cbn [syncJobs].
  rewrite filter_app, filter_cons_True by done. rewrite foldl_app. cbn [foldl].
  assert (Hhead : earliest (foldl earliest None (filter (whereReady now) before)) j
                  = Some j).
  { pose proof (earliest_fold (filter (whereReady now) before) None) as Hfold.
    destruct (foldl earliest None _) as [b|]; [|done].
    destruct Hfold as ([?|Hin] & _); [done|].
    apply list_elem_of_filter in Hin as [Hready Hin].
    specialize (Hbefore b Hin Hready). unfold earliest.
    by rewrite decide_True by lia. }
  rewrite Hhead. clear Hhead.
  assert (Hkeep : ∀ rows, (∀ j', j' ∈ rows → retry_at j ≤ retry_at j') →
                          foldl earliest (Some j) rows = Some j).
  { induction rows as [|x rows IH]; intros Hall; [done|].
    simpl. rewrite decide_False.
    - apply IH. intros j' Hin. apply Hall. by right.
    - specialize (Hall x). rewrite elem_of_cons in Hall.
      assert (retry_at j ≤ retry_at x) by (apply Hall; by left). lia. }
  apply Hkeep. intros j' Hin. apply list_elem_of_filter in Hin as [Hready Hin].
  by apply Hafter.
Qed.

Lemma updateWhereId_elem jobId f d j :
  j ∈ syncJobs (updateWhereId jobId f d) ↔
  ∃ j0, j0 ∈ syncJobs d
        ∧ j = (if decide (id j0 = jobId) then f j0 else j0).
Proof.
  unfold updateWhereId, withJobs. simpl. rewrite list_elem_of_fmap.
  split; intros (j0 & H1 & H2); exists j0; done.
Qed.

Lemma pendingFor_app path rows1 rows2 seq1 seq2 cl1 cl2 :
  pendingFor path (mkDb (rows1 ++ rows2) seq1 cl1)
  = (pendingFor path (mkDb rows1 seq2 cl2)
     + length (filter (λ j, status j = PENDING ∧ localPath j = path) rows2))%nat.
Proof. unfold pendingFor. simpl. by rewrite filter_app, length_app. Qed.

End JobStore.

(** C1 (as stated, refuted): on the empty store, two enqueues of the same
    [(local_path, UPDATE)] leave two PENDING rows for that path, not one. *)
Lemma enqueue_twice_two_pending :
  let params := mkParams UPDATE "/w/a.txt" "w/a.txt" in
  let d := enqueueJob params false 1 (enqueueJob params false 0 emptyDb) in
  pendingFor "/w/a.txt" d = 2%nat ∧ ¬ (pendingFor "/w/a.txt" d ≤ 1)%nat.
Proof. vm_compute. split; [reflexivity | lia]. Qed.

(** C1 (amended): an enqueue that is not a dry run never coalesces. It
    appends one PENDING row that carries the event as given, under a fresh
    id, with no retries and with [retry_at] the whole seconds of the time
    of the enqueue (the [Date] read back is the start of that second, at
    most 999 ms before the enqueue), and the number of PENDING rows of that
    local path grows by one; so two enqueues of the same event on the empty
    store leave exactly two PENDING rows. *)
Theorem enqueue_appends_pending_row :
  ∀ (params : EnqueueParams) (now : Z) (d : Db),
    (∃ row,
        syncJobs (enqueueJob params false now d) = syncJobs d ++ [row]
        ∧ id row = S (jobSeq d)
        ∧ jobColumns row
          = (p_eventType params, p_localPath params, p_remotePath params)
        ∧ status row = PENDING
        ∧ retry_at row = now / 1000
        ∧ retryAt row = 1000 * (now / 1000)
        ∧ now - 999 ≤ retryAt row ≤ now
        ∧ nRetries row = 0%nat)
    ∧ pendingFor (p_localPath params) (enqueueJob params false now d)
      = S (pendingFor (p_localPath params) d)
    ∧ ∀ now', pendingFor (p_localPath params)
                (enqueueJob params false now'
                   (enqueueJob params false now emptyDb)) = 2%nat.
Proof.
  intros params now d. split; [|split].
  - eexists. split; [reflexivity|]. split; [reflexivity|].
    split; [reflexivity|]. split; [reflexivity|]. split; [reflexivity|].
    unfold retryAt, fromTimestamp, toTimestamp. cbn [retry_at nRetries].
    pose proof (Z.div_mod now 1000) as Hdm.
    pose proof (Z.mod_pos_bound now 1000) as Hmod.
    split; [lia|]. split; [lia | done].
  - unfold enqueueJob.
    rewrite (pendingFor_app _ _ _ _ (jobSeq d) _ (clocks d)).
    rewrite filter_cons_True by done. simpl.
    destruct d. unfold pendingFor. simpl. lia.
  - intros now'. unfold enqueueJob, pendingFor. simpl.
    rewrite !filter_cons_True by done. done.
Qed.

(** C2 (as stated, refuted): the row [getNextPendingJob] returns is still
    stored with status PENDING; no status prints as PROCESSING. *)
Lemma selected_row_not_processing :
  let d := enqueueJob (mkParams UPDATE "/w/a.txt" "w/a.txt") false 0 emptyDb in
  ∃ job, getNextPendingJob 0 d = Some job
         ∧ job ∈ syncJobs d
         ∧ SyncJobStatus_text (status job) = "PENDING"
         ∧ SyncJobStatus_text (status job) ≠ "PROCESSING".
Proof.
  eexists. split; [vm_compute; reflexivity|].
  split; [left|]. split; [reflexivity | discriminate].
Qed.

(** C2 (amended): [getNextPendingJob] is a read of the store. The row it
    returns is a row of the store as it stands, its stored status is
    PENDING, its [retry_at] is not after [now] and is the smallest among
    the PENDING rows that are due. No status is the PROCESSING marker. *)
Theorem getNextPendingJob_reads_pending_row :
  ∀ (now : Z) (d : Db) (job : SyncJob),
    getNextPendingJob now d = Some job →
    job ∈ syncJobs d
    ∧ status job = PENDING
    ∧ SyncJobStatus_text (status job) = "PENDING"
    ∧ retryAt job ≤ now
    ∧ (∀ j', j' ∈ syncJobs d → status j' = PENDING → retryAt j' ≤ now →
             retryAt job ≤ retryAt j')
    ∧ ∀ s : SyncJobStatus, SyncJobStatus_text s ≠ "PROCESSING".
Proof.
  intros now d job Hsel.
  apply getNextPendingJob_Some in Hsel as (Hin & [Hst Hdue] & Hmin).
  repeat split; try done.
  - by rewrite Hst.
  - intros j' Hin' Hst' Hdue'. apply Hmin; [done|]. by split.
  - intros []; discriminate.
Qed.

Lemma getNextPendingJob_reads_pending_row_witness :
  sampleUpdateRow ∈ syncJobs (enqueueJob sampleUpdate false 0 emptyDb)
  ∧ status sampleUpdateRow = PENDING.
Proof.
  assert (Hsel : getNextPendingJob 5 (enqueueJob sampleUpdate false 0 emptyDb)
                 = Some sampleUpdateRow) by (vm_compute; reflexivity).
  destruct (getNextPendingJob_reads_pending_row 5 _ _ Hsel) as (Hin & Hst & _).
  exact (conj Hin Hst).
Defined.

(* ====================================================================== *)
(** ** The retry delay *)
(* ====================================================================== *)

Section DoubleFacts.

Local Open Scope Q_scope.

Lemma roundEven_ge (y : Q) (A : Z) :
  inject_Z A <= y → (A ≤ Double.roundEven y)%Z.
Proof.
  intros Hle. assert (Hf : (A ≤ Qfloor y)%Z).
  { rewrite <- (Qfloor_Z A). by apply Qfloor_resp_le. }
  unfold Double.roundEven.
  destruct (Qcompare _ _); [destruct (Z.even _)| |]; lia.
Qed.

Lemma roundEven_le (y : Q) (A : Z) :
  y <= inject_Z A → (Double.roundEven y ≤ A)%Z.
Proof.
  intros Hle.
  pose proof (Qfloor_le y) as Hfl.
  assert (Hf : (Qfloor y ≤ A)%Z) by (rewrite Zle_Qle; lra).
  unfold Double.roundEven.
  destruct (Qcompare (y - inject_Z (Qfloor y)) (1 # 2)) eqn:Hcmp.
  - destruct (Z.even _); [lia|].
    apply Qeq_alt in Hcmp.
    destruct (decide (Qfloor y = A)) as [Heq|Hne]; [|lia].
    rewrite Heq in Hcmp. lra.
  - lia.
  - apply Qgt_alt in Hcmp.
    destruct (decide (Qfloor y = A)) as [Heq|Hne]; [|lia].
    rewrite Heq in Hcmp. lra.
Qed.

Lemma pow2_pos (e : Z) : 0 < 2 ^ e.
Proof. by apply Qpower_0_lt. Qed.

Lemma pow2_nonneg_Z (e : Z) : (0 ≤ e)%Z → 2 ^ e == inject_Z (2 ^ e).
Proof. intros He. by rewrite Zpower_Qpower. Qed.

(** The binade of a positive number starts at or below it. *)
Lemma binade_lower (x : Q) : 0 < x → 2 ^ (Double.binade x + 52) <= x.
Proof.
  intros Hx. unfold Double.binade.
  set (e0 := (Z.log2 (Qnum x) - Z.log2 (Z.pos (Qden x)) - 52)%Z).
  destruct (Qle_bool (2 ^ (e0 + 52)) x) eqn:Htest.
  - by apply Qle_bool_iff.
  - clear Htest. subst e0. destruct x as [n d]. cbn [Qnum Qden].
    assert (Hn : (0 < n)%Z).
    { unfold Qlt in Hx. simpl in Hx. lia. }
    pose proof (Z.log2_spec n Hn) as [Hln _].
    pose proof (Z.log2_spec (Z.pos d) (Pos2Z.is_pos d)) as [_ Hld].
    pose proof (Z.log2_nonneg n) as Hln0.
    pose proof (Z.log2_nonneg (Z.pos d)) as Hld0.
    replace (Z.log2 n - Z.log2 (Z.pos d) - 52 - 1 + 52)%Z
      with (Z.log2 n - Z.succ (Z.log2 (Z.pos d)))%Z by lia.
    rewrite Qpower_minus by done.
    rewrite !pow2_nonneg_Z by lia.
    set (a := (2 ^ Z.log2 n)%Z) in *.
    set (b := (2 ^ Z.succ (Z.log2 (Z.pos d)))%Z) in *.
    assert (Hb : (0 < b)%Z) by lia.
    rewrite (Qmake_Qdiv n d).
    apply Qle_shift_div_l; [change 0 with (inject_Z 0); rewrite <- Zlt_Qlt; lia|].
    unfold Qdiv. rewrite <- Qmult_assoc, (Qmult_comm (/ _)), Qmult_assoc.
    apply Qle_shift_div_r; [change 0 with (inject_Z 0); rewrite <- Zlt_Qlt; lia|].
    rewrite <- !inject_Z_mult, <- Zle_Qle. nia.
Qed.

(** A non-negative integer below 2^53 is a double, and rounding to the
    nearest double does not cross it. *)
Lemma roundPos_ge (x : Q) (a : Z) :
  0 < x → (0 ≤ a < 2 ^ 53)%Z → inject_Z a <= x →
  inject_Z a <= Double.roundPos x.
Proof.
  intros Hx [Ha0 Ha] Hle. unfold Double.roundPos.
  set (e := Z.max (Double.binade x) (-1074)).
  pose proof (pow2_pos e) as Hs.
  destruct (decide (e ≤ 0)%Z) as [Hneg|Hpos].
  - assert (Hinv : 2 ^ e == / inject_Z (2 ^ (- e))).
    { rewrite <- pow2_nonneg_Z by lia. rewrite <- Qpower_opp.
      by replace (- - e)%Z with e by lia. }
    assert (Hp : (0 < 2 ^ (- e))%Z) by (apply Z.pow_pos_nonneg; lia).
    assert (Hm : (a * 2 ^ (- e) ≤ Double.roundEven (x / 2 ^ e))%Z).
    { apply roundEven_ge. rewrite Hinv. unfold Qdiv. rewrite Qinv_involutive.
      rewrite inject_Z_mult. apply Qmult_le_compat_r; [done|].
      change 0 with (inject_Z 0). rewrite <- Zle_Qle. lia. }
    rewrite Zle_Qle, inject_Z_mult in Hm.
    set (m := inject_Z (Double.roundEven (x / 2 ^ e))) in *.
    rewrite Hinv. apply Qle_shift_div_l.
    + change 0 with (inject_Z 0). by rewrite <- Zlt_Qlt.
    + done.
  - assert (He : e = Double.binade x) by lia.
    pose proof (binade_lower x Hx) as Hlow. rewrite <- He in Hlow.
    assert (Hm : (2 ^ 52 ≤ Double.roundEven (x / 2 ^ e))%Z).
    { apply roundEven_ge. apply Qle_shift_div_l; [done|].
      rewrite Qpower_plus in Hlow by done.
      rewrite (pow2_nonneg_Z 52) in Hlow by lia.
      rewrite Qmult_comm. exact Hlow. }
    assert (H2 : 2 <= 2 ^ e).
    { rewrite <- (Qpower_1_r 2) at 1. apply Qpower_le_compat_l; [lia | done]. }
    rewrite Zle_Qle in Hm.
    assert (Ha' : inject_Z a <= inject_Z (2 ^ 53)) by (rewrite <- Zle_Qle; lia).
    change (inject_Z (2 ^ 53)) with (inject_Z (2 ^ 52) * 2) in Ha'.
    set (m := inject_Z (Double.roundEven (x / 2 ^ e))) in *.
    set (s := 2 ^ e) in *.
    assert (0 <= inject_Z (2 ^ 52)) by done.
    nra.
Qed.

Lemma roundPos_le (x : Q) (a : Z) :
  0 < x → (0 ≤ a < 2 ^ 53)%Z → x <= inject_Z a →
  Double.roundPos x <= inject_Z a.
Proof.
  intros Hx [Ha0 Ha] Hle. unfold Double.roundPos.
  set (e := Z.max (Double.binade x) (-1074)).
  pose proof (pow2_pos e) as Hs.
  destruct (decide (e ≤ 0)%Z) as [Hneg|Hpos].
  - assert (Hinv : 2 ^ e == / inject_Z (2 ^ (- e))).
    { rewrite <- pow2_nonneg_Z by lia. rewrite <- Qpower_opp.
      by replace (- - e)%Z with e by lia. }
    assert (Hp : (0 < 2 ^ (- e))%Z) by (apply Z.pow_pos_nonneg; lia).
    assert (Hm : (Double.roundEven (x / 2 ^ e) ≤ a * 2 ^ (- e))%Z).
    { apply roundEven_le. rewrite Hinv. unfold Qdiv. rewrite Qinv_involutive.
      rewrite inject_Z_mult. apply Qmult_le_compat_r; [done|].
      change 0 with (inject_Z 0). rewrite <- Zle_Qle. lia. }
    rewrite Zle_Qle, inject_Z_mult in Hm.
    set (m := inject_Z (Double.roundEven (x / 2 ^ e))) in *.
    rewrite Hinv. apply Qle_shift_div_r.
    + change 0 with (inject_Z 0). by rewrite <- Zlt_Qlt.
    + done.
  - exfalso.
    assert (He : e = Double.binade x) by lia.
    pose proof (binade_lower x Hx) as Hlow. rewrite <- He in Hlow.
    assert (H53 : 2 ^ 53 <= 2 ^ (e + 52)).
    { apply Qpower_le_compat_l; [lia | done]. }
    rewrite (pow2_nonneg_Z 53) in H53 by lia.
    assert (Ha' : inject_Z a < inject_Z (2 ^ 53)) by (rewrite <- Zlt_Qlt; lia).
    lra.
Qed.

Lemma round_ge (x : Q) (a : Z) :
  (0 ≤ a < 2 ^ 53)%Z → inject_Z a <= x → inject_Z a <= Double.round x.
Proof.
  intros Ha Hle. unfold Double.round.
  assert (Ha0 : 0 <= inject_Z a).
  { change 0 with (inject_Z 0). rewrite <- Zle_Qle. lia. }
  destruct (Qcompare x 0) eqn:Hcmp.
  - apply Qeq_alt in Hcmp. lra.
  - apply Qlt_alt in Hcmp. lra.
  - apply Qgt_alt in Hcmp. by apply roundPos_ge.
Qed.

Lemma round_le (x : Q) (a : Z) :
  0 <= x → (a < 2 ^ 53)%Z → x <= inject_Z a → Double.round x <= inject_Z a.
Proof.
  intros Hx Ha Hle. unfold Double.round.
  assert (Ha0 : (0 ≤ a)%Z).
  { rewrite Zle_Qle. change (inject_Z 0) with 0. lra. }
  destruct (Qcompare x 0) eqn:Hcmp.
  - change 0 with (inject_Z 0). rewrite <- Zle_Qle. lia.
  - apply Qlt_alt in Hcmp. lra.
  - apply Qgt_alt in Hcmp. by apply roundPos_le.
Qed.

Lemma round_nonneg (x : Q) : 0 <= x → 0 <= Double.round x.
Proof. intros Hx. by apply (round_ge x 0). Qed.

Lemma truncate_nonneg (x : Q) : 0 <= x → Double.truncate x = Qfloor x.
Proof.
  intros Hx. unfold Double.truncate.
  by rewrite (proj2 (Qle_bool_iff 0 x) Hx).
Qed.

End DoubleFacts.

Section RetryDelay.

Local Open Scope Q_scope.

Lemma baseDelay_bounds (k : nat) :
  (BASE_RETRY_DELAY_MS ≤ baseDelay k ≤ MAX_RETRY_DELAY_MS)%Z.
Proof.
  unfold baseDelay, BASE_RETRY_DELAY_MS, MAX_RETRY_DELAY_MS.
  assert (1 ≤ 2 ^ Z.of_nat k)%Z by (apply Z.pow_le_mono_r with (b := 0%Z); lia).
  lia.
Qed.

(** The base delay is an even number of milliseconds. *)
Lemma baseDelay_even (k : nat) : (baseDelay k = 2 * (baseDelay k / 2))%Z.
Proof.
  unfold baseDelay, BASE_RETRY_DELAY_MS, MAX_RETRY_DELAY_MS.
  assert (H2 : ((1000 * 2 ^ Z.of_nat k) = 2 * (500 * 2 ^ Z.of_nat k))%Z) by lia.
  destruct (Z.min_spec (1000 * 2 ^ Z.of_nat k) (5 * 60 * 1000)) as [[_ ->]|[_ ->]].
  - rewrite H2 at 1 2. rewrite (Z.mul_comm 2 (500 * _)), Z.div_mul by lia. lia.
  - reflexivity.
Qed.

Lemma jitter_bounds (k : nat) (r : Q) :
  0 <= r → r < 1 →
  0 <= jitter k r ∧ jitter k r <= inject_Z (baseDelay k / 2).
Proof.
  intros Hr0 Hr1. unfold jitter.
  pose proof (baseDelay_bounds k) as [Hlo Hhi].
  unfold BASE_RETRY_DELAY_MS, MAX_RETRY_DELAY_MS in Hlo, Hhi.
  pose proof (baseDelay_even k) as Heven.
  assert (Hb : 0 < inject_Z (baseDelay k)).
  { change 0 with (inject_Z 0). rewrite <- Zlt_Qlt. lia. }
  assert (Hhalf : inject_Z (baseDelay k) == 2 * inject_Z (baseDelay k / 2)).
  { rewrite Heven at 1. by rewrite inject_Z_mult. }
  assert (Hp0 : 0 <= r * inject_Z (baseDelay k)) by nra.
  assert (H1 : 0 <= Double.round (r * inject_Z (baseDelay k)))
    by (by apply round_nonneg).
  assert (H2 : Double.round (r * inject_Z (baseDelay k)) <= inject_Z (baseDelay k)).
  { apply round_le; [done | lia | nra]. }
  set (p := Double.round (r * inject_Z (baseDelay k))) in *.
  split.
  - apply round_nonneg. lra.
  - apply round_le; [lra | | lra].
    assert (baseDelay k / 2 ≤ baseDelay k)%Z by lia. lia.
Qed.

Lemma retryDelay_bounds (k : nat) (r : Q) :
  0 <= r → r < 1 →
  inject_Z (baseDelay k) <= retryDelay k r
  ∧ retryDelay k r <= inject_Z (baseDelay k + baseDelay k / 2).
Proof.
  intros Hr0 Hr1. unfold retryDelay.
  destruct (jitter_bounds k r Hr0 Hr1) as [Hj0 Hj1].
  pose proof (baseDelay_bounds k) as [Hlo Hhi].
  unfold BASE_RETRY_DELAY_MS, MAX_RETRY_DELAY_MS in Hlo, Hhi.
  pose proof (baseDelay_even k) as Heven.
  assert (Hb : 0 < inject_Z (baseDelay k)).
  { change 0 with (inject_Z 0). rewrite <- Zlt_Qlt. lia. }
  split.
  - apply round_ge; [lia | lra].
  - apply round_le; [lra | lia |]. rewrite inject_Z_plus. lra.
Qed.

(** The [Date] of the retry, for a clock read that is a time value. *)
Lemma retryDate_bounds (now : Z) (k : nat) (r : Q) :
  0 <= r → r < 1 → (0 ≤ now ≤ 8640000000000000)%Z →
  (now + baseDelay k ≤ retryDate now k r
   ≤ now + baseDelay k + baseDelay k / 2)%Z.
Proof.
  intros Hr0 Hr1 Hnow. unfold retryDate.
  destruct (retryDelay_bounds k r Hr0 Hr1) as [Hd0 Hd1].
  pose proof (baseDelay_bounds k) as [Hlo Hhi].
  unfold BASE_RETRY_DELAY_MS, MAX_RETRY_DELAY_MS in Hlo, Hhi.
  pose proof (baseDelay_even k) as Heven.
  assert (Hb : 0 < inject_Z (baseDelay k)).
  { change 0 with (inject_Z 0). rewrite <- Zlt_Qlt. lia. }
  assert (Hn : 0 <= inject_Z now).
  { change 0 with (inject_Z 0). rewrite <- Zle_Qle. lia. }
  assert (Hsum0 : 0 <= inject_Z now + retryDelay k r) by lra.
  assert (Hge : inject_Z (now + baseDelay k)
                <= Double.round (inject_Z now + retryDelay k r)).
  { apply round_ge; [lia|]. rewrite inject_Z_plus. lra. }
  assert (Hle : Double.round (inject_Z now + retryDelay k r)
                <= inject_Z (now + baseDelay k + baseDelay k / 2)).
  { apply round_le; [done | lia |].
    rewrite !inject_Z_plus. rewrite inject_Z_plus in Hd1. lra. }
  rewrite truncate_nonneg.
  - split.
    + rewrite <- (Qfloor_Z (now + baseDelay k)). by apply Qfloor_resp_le.
    + rewrite <- (Qfloor_Z (now + baseDelay k + baseDelay k / 2)).
      by apply Qfloor_resp_le.
  - assert (0 <= inject_Z (now + baseDelay k)).
    { change 0 with (inject_Z 0). rewrite <- Zle_Qle. lia. }
    lra.
Qed.

(** The whole seconds kept of a [Date] are at most 999 ms before it. *)
Lemma timestamp_bounds (date : Z) :
  (date - 999 ≤ fromTimestamp (toTimestamp date) ≤ date)%Z.
Proof.
  unfold fromTimestamp, toTimestamp.
  pose proof (Z.div_mod date 1000) as Hdm.
  pose proof (Z.mod_pos_bound date 1000) as Hmod. lia.
Qed.

End RetryDelay.

(** C6 (as stated, refuted): at retry count 8 the draw 0.9 gives a delay
    of 371200 ms, above MAX = 300000 ms; the delay is not clipped to
    [[BASE, MAX]]. *)
Lemma retry_delay_exceeds_max :
  (retryDelay 8 (9 # 10) == 371200)%Q
  ∧ retryDate 0 8 (9 # 10) = 371200
  ∧ ¬ (retryDelay 8 (9 # 10) <= inject_Z MAX_RETRY_DELAY_MS)%Q.
Proof.
  split; [vm_compute; reflexivity|]. split; [vm_compute; reflexivity|].
  intros Hle. vm_compute in Hle. apply Hle. reflexivity.
Qed.

(** C6 (amended): for every retry count [k] and every draw [r] of
    [Math.random()] in [[0, 1)], with [B = min(1000·2^k, 300000)] ms (so
    [B] lies in [[BASE, MAX]]), the delay of [scheduleRetry] is [B] plus a
    jitter in [[0, B/2]], each sum and product rounded to a double; it lies
    in [[B, 1.5·B]], hence is at most 1.5·MAX = 450000 ms, and is not
    clipped to MAX. In a run that is not a dry run, for a clock read [now]
    from 0 to 8.64e15 - 450000 ms (the retry [Date] is then a valid one),
    the [Date] of the retry is [now + delay] rounded and cut to whole
    milliseconds; it lies in [[now + B, now + 1.5·B]]. The
    row of the job keeps the whole seconds of that [Date]: [retry_at] reads
    back as the start of its second, up to 999 ms before it, so possibly
    before [now + B], and never after [now + 1.5·B]. The row gets
    [n_retries = k + 1] and the error. *)
Theorem scheduleRetry_delay :
  ∀ (k : nat) (r : Q),
    (0 <= r)%Q → (r < 1)%Q →
    baseDelay k = Z.min (1000 * 2 ^ Z.of_nat k) 300000
    ∧ 1000 ≤ baseDelay k ≤ 300000
    ∧ retryDelay k r = Double.round (inject_Z (baseDelay k) + jitter k r)
    ∧ (0 <= jitter k r)%Q
    ∧ (jitter k r <= inject_Z (baseDelay k) * (1 # 2))%Q
    ∧ (inject_Z (baseDelay k) <= retryDelay k r)%Q
    ∧ (retryDelay k r <= (3 # 2) * inject_Z (baseDelay k))%Q
    ∧ (retryDelay k r <= 450000)%Q
    ∧ ∀ (jobId : nat) (error : string) (now : Z) (d : Db) (row : SyncJob),
        0 ≤ now ≤ 8640000000000000 - 450000 →
        row ∈ syncJobs (scheduleRetry jobId k error false now r d).1 →
        id row = jobId →
        retry_at row = retryDate now k r / 1000
        ∧ retryDate now k r
          = Double.truncate (Double.round (inject_Z now + retryDelay k r))
        ∧ now + baseDelay k ≤ retryDate now k r
        ∧ 2 * retryDate now k r ≤ 2 * now + 3 * baseDelay k
        ∧ retryDate now k r - 999 ≤ retryAt row ≤ retryDate now k r
        ∧ now + baseDelay k - 999 ≤ retryAt row
        ∧ nRetries row = (k + 1)%nat
        ∧ lastError row = Some error.
Proof.
  intros k r Hr0 Hr1.
  pose proof (baseDelay_bounds k) as Hb.
  unfold BASE_RETRY_DELAY_MS, MAX_RETRY_DELAY_MS in Hb.
  pose proof (baseDelay_even k) as Heven.
  destruct (jitter_bounds k r Hr0 Hr1) as [Hj0 Hj1].
  destruct (retryDelay_bounds k r Hr0 Hr1) as [Hd0 Hd1].
  assert (Hhalf : (inject_Z (baseDelay k) == 2 * inject_Z (baseDelay k / 2))%Q).
  { rewrite Heven at 1. by rewrite inject_Z_mult. }
  rewrite inject_Z_plus in Hd1.
  split; [reflexivity|]. split; [lia|]. split; [reflexivity|].
  split; [done|]. split; [lra|]. split; [done|]. split; [lra|]. split.
  - assert (inject_Z (baseDelay k) <= 300000)%Q.
    { change 300000%Q with (inject_Z 300000). rewrite <- Zle_Qle. lia. }
    lra.
  - intros jobId error now d row Hnow Hin Hid.
    unfold scheduleRetry in Hin. simpl in Hin.
    apply updateWhereId_elem in Hin as (j0 & _ & ->).
    destruct (decide (id j0 = jobId)) as [_|Hne]; [|done].
    assert (Hnow' : 0 ≤ now ≤ 8640000000000000) by lia.
    destruct (retryDate_bounds now k r Hr0 Hr1 Hnow') as [Hlo Hhi].
    pose proof (timestamp_bounds (retryDate now k r)) as Hts.
    unfold retryAt. cbn [retry_at nRetries lastError].
    unfold toTimestamp in *.
    repeat split; try done; lia.
Qed.

Lemma scheduleRetry_delay_witness :
  (retryDelay 3 (1 # 2) <= 450000)%Q
  ∧ retry_at sampleRetriedRow = retryDate 4900 3 (1 # 2) / 1000
  ∧ 4900 + baseDelay 3 - 999 ≤ retryAt sampleRetriedRow.
Proof.
  assert (H0 : (0 <= 1 # 2)%Q) by (vm_compute; discriminate).
  assert (H1 : (1 # 2 < 1)%Q) by reflexivity.
  destruct (scheduleRetry_delay 3 (1 # 2) H0 H1)
    as (_ & _ & _ & _ & _ & _ & _ & Hlt & Hrow).
  assert (Hnow : 0 ≤ 4900 ≤ 8640000000000000 - 450000) by lia.
  assert (Hin : sampleRetriedRow
                ∈ syncJobs (scheduleRetry 1 3 "offline" false 4900 (1 # 2)
                              (enqueueJob sampleDelete false 4900 emptyDb)).1).
  { vm_compute. left. }
  assert (Hid : id sampleRetriedRow = 1%nat) by reflexivity.
  destruct (Hrow 1%nat "offline" 4900 _ sampleRetriedRow Hnow Hin Hid)
    as (Hat & _ & _ & _ & _ & Hlow & _).
  exact (conj Hlt (conj Hat Hlow)).
Defined.

(** The row of a retry keeps whole seconds: a job that fails at 4900 ms
    with no retries behind it and the draw 0 has the retry [Date] 5900 ms,
    and its row reads back 5000 ms. *)
Example retry_at_keeps_whole_seconds :
  retryDate 4900 0 0 = 5900
  ∧ retryAt <$> syncJobs (scheduleRetry 1 0 "offline" false 4900 0
                            (enqueueJob sampleDelete false 4900 emptyDb)).1
    = [5000].
Proof. split; vm_compute; reflexivity. Qed.

(* ====================================================================== *)
(** ** The executor *)
(* ====================================================================== *)

Section ExecutorFacts.

Context {Drive : Type}.
Variable client : @ProtonDriveClient Drive.
Variable createNode : string → string → @M Drive CreateResult.

Lemma attempts_app (a b : list LogLine) :
  attempts (a ++ b) = (attempts a + attempts b)%nat.
Proof. unfold attempts. by rewrite filter_app, length_app. Qed.

Lemma completions_app (a b : list LogLine) :
  completions (a ++ b) = (completions a + completions b)%nat.
Proof. unfold completions. by rewrite filter_app, length_app. Qed.

(** The [try] block logs one opening line, and one closing line exactly
    when it runs to its end. *)
Lemma runJob_lines job w outcome w' lines :
  runJob client createNode job w = (outcome, w', lines) →
  attempts lines = 1%nat
  ∧ completions lines = match outcome with Some _ => 0%nat | None => 1%nat end.
Proof.
  unfold runJob. intros Hrun.
  destruct (decide (eventType job = DELETE)).
  - destruct (deleteNode client (remotePath job) false w) as [[result|err] w1].
    + destruct (negb (del_success result));
        [|destruct (del_existed result)];
        injection Hrun as <- <- <-; done.
    + injection Hrun as <- <- <-; done.
  - destruct (createNode (localPath job) (remotePath job) w) as [[result|err] w1].
    + destruct (negb (cr_success result));
        injection Hrun as <- <- <-;
        destruct (decide (eventType job = CREATE)); done.
    + injection Hrun as <- <- <-;
        destruct (decide (eventType job = CREATE)); done.
Qed.

Lemma scheduleRetry_lines jobId k error dryRun now r d :
  attempts (scheduleRetry jobId k error dryRun now r d).2 = 0%nat
  ∧ completions (scheduleRetry jobId k error dryRun now r d).2 = 0%nat.
Proof. unfold scheduleRetry. destruct dryRun; done. Qed.

(** [processNextJob] answers [false] exactly when nothing is selected,
    and then changes nothing. *)
Lemma processNextJob_false dryRun tk s :
  (processNextJob client createNode dryRun tk s).1 = false
  ↔ getNextPendingJob (selectTime tk) (db s) = None.
Proof.
  unfold processNextJob.
  destruct (getNextPendingJob (selectTime tk) (db s)) as [job|]; [|done].
  destruct (runJob client createNode job (remote s)) as [[[msg|] w'] lines]; [|done].
  destruct (decide (MAX_RETRIES ≤ nRetries job)%nat); [done|].
  destruct (scheduleRetry _ _ _ _ _ _ _); done.
Qed.

Lemma processNextJob_idle dryRun tk s :
  getNextPendingJob (selectTime tk) (db s) = None →
  processNextJob client createNode dryRun tk s = (false, s).
Proof. unfold processNextJob. by intros ->. Qed.

(** A pass that selects a job logs exactly one attempt, whatever the
    outcome, and at most one completed operation. *)
Lemma processNextJob_true_logs dryRun tk s s' :
  processNextJob client createNode dryRun tk s = (true, s') →
  attempts (logs s') = S (attempts (logs s))
  ∧ (completions (logs s') ≤ S (completions (logs s)))%nat.
Proof.
  unfold processNextJob.
  destruct (getNextPendingJob (selectTime tk) (db s)) as [job|]; [|done].
  destruct (runJob client createNode job (remote s)) as [[outcome w'] lines] eqn:Hrun.
  apply runJob_lines in Hrun as [Hatt Hcomp].
  destruct outcome as [msg|].
  - destruct (decide (MAX_RETRIES ≤ nRetries job)%nat).
    + intros [= <-]. simpl.
      rewrite !attempts_app, !completions_app, Hatt, Hcomp.
      unfold attempts, completions. simpl. lia.
    + pose proof (scheduleRetry_lines (id job) (nRetries job) msg dryRun
                    (retryTime tk) (random tk) (db s)) as [Hra Hrc].
      destruct (scheduleRetry _ _ _ _ _ _ _) as [d' retryLines].
      simpl in Hra, Hrc. intros [= <-]. simpl.
      rewrite !attempts_app, !completions_app, Hatt, Hcomp, Hra, Hrc. lia.
  - intros [= <-]. simpl.
    rewrite !attempts_app, !completions_app, Hatt, Hcomp. lia.
Qed.

(** When the loop ends, its count is the number of passes that selected a
    job, and the pass that ended it found nothing due. *)
Lemma processAllPendingJobs_ends dryRun ticks s n s' :
  processAllPendingJobs client createNode dryRun ticks s = Some (n, s') →
  attempts (logs s') = (attempts (logs s) + n)%nat
  ∧ (completions (logs s') ≤ completions (logs s) + n)%nat
  ∧ ∃ tk, ticks !! n = Some tk
          ∧ getNextPendingJob (selectTime tk) (db s') = None.
Proof.
  revert s n s'. induction ticks as [|tk rest IH]; intros s n s'; [done|].
  simpl.
  destruct (processNextJob client createNode dryRun tk s) as [[] s1] eqn:Hpass.
  - destruct (processAllPendingJobs client createNode dryRun rest s1) as [[count s2]|] eqn:Hrest;
      [|done].
    intros [= <- <-].
    apply IH in Hrest as (Hatt & Hcomp & tk' & Hlook & Hnone).
    apply processNextJob_true_logs in Hpass as [Hatt1 Hcomp1].
    split; [lia|]. split; [lia|]. by exists tk'.
  - intros [= <- <-].
    assert (Hnone : getNextPendingJob (selectTime tk) (db s) = None).
    { apply (processNextJob_false dryRun). by rewrite Hpass. }
    rewrite (processNextJob_idle _ _ _ Hnone) in Hpass.
    injection Hpass as <-.
    split; [lia|]. split; [lia|]. by exists tk.
Qed.

End ExecutorFacts.

(** C9: [processNextJob] returns [false] exactly when the store holds no
    PENDING job with [retry_at ≤ now]; when a job is selected it returns
    [true] whether the remote operation succeeds or fails; and the number
    [processAllPendingJobs] returns is the number of attempts it made (the
    operations that went through are at most as many). *)
Theorem processNextJob_counts_attempts :
  ∀ (Drive : Type) (client : @ProtonDriveClient Drive)
    (createNode : string → string → @M Drive CreateResult)
    (dryRun : bool) (s : Sys Drive),
    (∀ tk,
        (processNextJob client createNode dryRun tk s).1 = false
        ↔ ∀ j, j ∈ syncJobs (db s) →
               ¬ (status j = PENDING ∧ retryAt j ≤ selectTime tk))
    ∧ (∀ tk job,
          getNextPendingJob (selectTime tk) (db s) = Some job →
          (processNextJob client createNode dryRun tk s).1 = true)
    ∧ (∀ ticks n s',
          processAllPendingJobs client createNode dryRun ticks s = Some (n, s') →
          attempts (logs s') = (attempts (logs s) + n)%nat
          ∧ (completions (logs s') ≤ completions (logs s) + n)%nat).
Proof.
  intros Drive client createNode dryRun s. split; [|split].
  - intros tk. rewrite processNextJob_false. apply getNextPendingJob_None.
  - intros tk job Hsel.
    destruct (processNextJob client createNode dryRun tk s).1 eqn:Hres; [done|].
    apply processNextJob_false in Hres. congruence.
  - intros ticks n s' Hrun.
    apply processAllPendingJobs_ends in Hrun as (Hatt & Hcomp & _). done.
Qed.

(** C4 (amended): when [processAllPendingJobs] returns, the pass that ended
    the loop found no PENDING row that was due: every row still PENDING has
    its [retry_at] after the time of that last poll. Rows whose operation
    failed with fewer than MAX_RETRIES retries stay PENDING with a later
    [retry_at], so the number of PENDING rows need not be zero. *)
Theorem processAllPendingJobs_leaves_nothing_due :
  ∀ (Drive : Type) (client : @ProtonDriveClient Drive)
    (createNode : string → string → @M Drive CreateResult)
    (dryRun : bool) (ticks : list Tick) (s s' : Sys Drive) (n : nat),
    processAllPendingJobs client createNode dryRun ticks s = Some (n, s') →
    ∃ tk, ticks !! n = Some tk
          ∧ getNextPendingJob (selectTime tk) (db s') = None
          ∧ ∀ j, j ∈ syncJobs (db s') → status j = PENDING →
                 selectTime tk < retryAt j.
Proof.
  intros Drive client createNode dryRun ticks s s' n Hrun.
  apply processAllPendingJobs_ends in Hrun as (_ & _ & tk & Hlook & Hnone).
  exists tk. split; [done|]. split; [done|].
  intros j Hin Hst.
  pose proof (proj1 (getNextPendingJob_None _ _) Hnone j Hin) as Hnot.
  destruct (decide (retryAt j ≤ selectTime tk)) as [Hdue|Hlater]; [|lia].
  exfalso. apply Hnot. by split.
Qed.

Lemma processNextJob_counts_attempts_witness :
  attempts (logs retriedSys) = 1%nat ∧ (completions (logs retriedSys) ≤ 1)%nat.
Proof.
  assert (Hrun : processAllPendingJobs offlineClient createNodeOk false twoTicks
                   sysWithDelete = Some (1%nat, retriedSys))
    by (vm_compute; reflexivity).
  destruct (processNextJob_counts_attempts unit offlineClient createNodeOk false
              sysWithDelete) as (_ & _ & Hcount).
  exact (Hcount twoTicks 1%nat retriedSys Hrun).
Defined.

(** C4 (as stated, refuted): the drive cannot be reached, the one job fails
    and is scheduled for retry; [processAllPendingJobs] returns after one
    attempt and the store still holds one PENDING row. *)
Lemma retried_job_still_pending :
  processAllPendingJobs offlineClient createNodeOk false twoTicks sysWithDelete
  = Some (1%nat, retriedSys)
  ∧ countStatus PENDING (db retriedSys) = 1%nat
  ∧ countStatus PENDING (db retriedSys) ≠ 0%nat.
Proof. split; [vm_compute; reflexivity|]. split; [reflexivity | discriminate]. Qed.

Lemma processAllPendingJobs_leaves_nothing_due_witness :
  ∃ tk, twoTicks !! 1%nat = Some tk
        ∧ getNextPendingJob (selectTime tk) (db retriedSys) = None
        ∧ ∀ j, j ∈ syncJobs (db retriedSys) → status j = PENDING →
               selectTime tk < retryAt j.
Proof.
  assert (Hrun : processAllPendingJobs offlineClient createNodeOk false twoTicks
                   sysWithDelete = Some (1%nat, retriedSys))
    by (vm_compute; reflexivity).
  exact (processAllPendingJobs_leaves_nothing_due unit offlineClient createNodeOk
           false twoTicks sysWithDelete retriedSys 1%nat Hrun).
Defined.

(* ====================================================================== *)
(** ** Reachable stores *)
(* ====================================================================== *)

Section ReachableFacts.

Context {Drive : Type}.
Variable client : @ProtonDriveClient Drive.
Variable createNode : string → string → @M Drive CreateResult.

Lemma same_id_same_row (rows : list SyncJob) (a b : SyncJob) :
  NoDup (id <$> rows) → a ∈ rows → b ∈ rows → id a = id b → a = b.
Proof.
  induction rows as [|x rows IH]; intros Hnd Ha Hb Hid.
  - by apply elem_of_nil in Ha.
  - rewrite fmap_cons in Hnd. apply NoDup_cons in Hnd as [Hnotin Hnd].
    apply elem_of_cons in Ha as [->|Ha]; apply elem_of_cons in Hb as [->|Hb].
    + done.
    + exfalso. apply Hnotin. rewrite Hid. by apply list_elem_of_fmap_2.
    + exfalso. apply Hnotin. rewrite <- Hid. by apply list_elem_of_fmap_2.
    + by apply IH.
Qed.

Lemma storeInv_empty : storeInv emptyDb.
Proof. repeat split; constructor. Qed.

Lemma storeInv_enqueue params dryRun now d :
  storeInv d → storeInv (enqueueJob params dryRun now d).
Proof.
  intros (Hret & Hnd & Hseq). unfold enqueueJob.
  destruct dryRun; [done|]. repeat split; simpl.
  - apply Forall_app. split; [done|].
    constructor; [simpl; unfold MAX_RETRIES; lia | constructor].
  - rewrite fmap_app. simpl. apply NoDup_app. split; [done|]. split.
    + intros x Hx Hx'. apply list_elem_of_fmap in Hx as (j & -> & Hj).
      apply list_elem_of_singleton in Hx'.
      rewrite Forall_forall in Hseq. specialize (Hseq j Hj). lia.
    + apply NoDup_singleton.
  - apply Forall_app. split.
    + eapply Forall_impl; [exact Hseq|]. simpl. intros j Hj. lia.
    + constructor; [simpl; lia | constructor].
Qed.

(** An update by id that keeps the ids and the bound keeps the invariant. *)
Lemma storeInv_update jobId f d :
  (∀ j, id (f j) = id j) →
  (∀ j, j ∈ syncJobs d → id j = jobId → (nRetries (f j) ≤ MAX_RETRIES)%nat) →
  storeInv d → storeInv (updateWhereId jobId f d).
Proof.
  intros Hid Hbound (Hret & Hnd & Hseq).
  assert (Hids : id <$> syncJobs (updateWhereId jobId f d) = id <$> syncJobs d).
  { unfold updateWhereId, withJobs. simpl. rewrite <- list_fmap_compose.
    apply list_fmap_ext. intros i j _. simpl.
    destruct (decide (id j = jobId)); [apply Hid | done]. }
  repeat split.
  - rewrite Forall_forall. intros j Hj.
    apply updateWhereId_elem in Hj as (j0 & Hj0 & ->).
    rewrite Forall_forall in Hret.
    destruct (decide (id j0 = jobId)); [by apply Hbound | by apply Hret].
  - by rewrite Hids.
  - rewrite Forall_forall. intros j Hj.
    apply updateWhereId_elem in Hj as (j0 & Hj0 & ->).
    rewrite Forall_forall in Hseq. specialize (Hseq j0 Hj0).
    unfold updateWhereId, withJobs. simpl.
    destruct (decide (id j0 = jobId)); [rewrite Hid|]; done.
Qed.

Lemma storeInv_processNextJob dryRun tk (s : Sys Drive) :
  storeInv (db s) →
  storeInv (db (processNextJob client createNode dryRun tk s).2).
Proof.
  intros Hinv. unfold processNextJob.
  destruct (getNextPendingJob (selectTime tk) (db s)) as [job|] eqn:Hsel;
    [|done].
  apply getNextPendingJob_Some in Hsel as (Hjob & _ & _).
  assert (Hjobret : (nRetries job ≤ MAX_RETRIES)%nat).
  { destruct Hinv as (Hret & _). rewrite Forall_forall in Hret. by apply Hret. }
  destruct (runJob client createNode job (remote s)) as [[[msg|] w'] lines].
  - destruct (decide (MAX_RETRIES ≤ nRetries job)%nat) as [Hmax|Hless].
    + simpl. unfold markJobBlocked. destruct dryRun; [done|].
      apply storeInv_update; [done| |done].
      intros j Hj Hidj. simpl.
      destruct Hinv as (Hret & _). rewrite Forall_forall in Hret. by apply Hret.
    + unfold scheduleRetry. destruct dryRun; [done|]. simpl.
      apply storeInv_update; [done| |done].
      intros j Hj Hidj. simpl. lia.
  - simpl. unfold markJobSynced. destruct dryRun; [done|].
    apply storeInv_update; [done| |done].
    intros j Hj Hidj. simpl.
    destruct Hinv as (Hret & _). rewrite Forall_forall in Hret. by apply Hret.
Qed.

Lemma storeInv_step (s s' : Sys Drive) :
  sysStep client createNode s s' → storeInv (db s) → storeInv (db s').
Proof.
  intros Hstep. destruct Hstep as [params dryRun now s0 | dryRun tk s0];
    intros Hinv.
  - simpl. by apply storeInv_enqueue.
  - by apply storeInv_processNextJob.
Qed.

Lemma storeInv_reachable (s : Sys Drive) :
  reachable client createNode s → storeInv (db s).
Proof.
  induction 1 as [w ls | s s' _ IH Hstep].
  - apply storeInv_empty.
  - by eapply storeInv_step.
Qed.



(** How a failed attempt is routed, read off the row of the job. *)
Lemma failure_routed tk (s : Sys Drive) job message w' lines row :
  storeInv (db s) →
  getNextPendingJob (selectTime tk) (db s) = Some job →
  runJob client createNode job (remote s) = (Some message, w', lines) →
  row ∈ syncJobs (db (processNextJob client createNode false tk s).2) →
  id row = id job →
  if decide (MAX_RETRIES ≤ nRetries job)%nat
  then status row = BLOCKED ∧ lastError row = Some message
       ∧ nRetries row = nRetries job
  else status row = PENDING ∧ lastError row = Some message
       ∧ nRetries row = S (nRetries job)
       ∧ retry_at row
         = retryDate (retryTime tk) (nRetries job) (random tk) / 1000.
Proof.
  intros (_ & Hnd & _) Hsel Hrun. unfold processNextJob.
  rewrite Hsel, Hrun.
  apply getNextPendingJob_Some in Hsel as (Hjob & [Hpend _] & _).
  destruct (decide (MAX_RETRIES ≤ nRetries job)%nat); simpl;
    intros Hrow Hid;
    apply updateWhereId_elem in Hrow as (j0 & Hj0 & ->);
    (destruct (decide (id j0 = id job)) as [Hsame|Hdiff]; [|done]);
    rewrite (same_id_same_row _ _ _ Hnd Hj0 Hjob Hsame); simpl;
    unfold toTimestamp; repeat split; try done; lia.
Qed.

End ReachableFacts.

Lemma reachable_sysWithDelete :
  reachable offlineClient createNodeOk sysWithDelete.
Proof.
  apply (ReachStep _ _ freshSys).
  - apply ReachEmpty.
  - apply (StepEnqueue _ _ sampleDelete false 0 freshSys).
Qed.





(* ====================================================================== *)
(** ** Deleting what is not there *)
(* ====================================================================== *)

Section DeleteAbsent.

Context {Drive : Type}.
Variable client : @ProtonDriveClient Drive.

Implicit Types w : @Remote Drive.

Lemma onlyRead_refl w : onlyRead w w.
Proof. split; [done|]. exists []. by rewrite app_nil_r. Qed.

Lemma onlyRead_trans w1 w2 w3 :
  onlyRead w1 w2 → onlyRead w2 w3 → onlyRead w1 w3.
Proof.
  intros [Hd1 (e1 & Hc1 & Hf1)] [Hd2 (e2 & Hc2 & Hf2)].
  split; [congruence|]. exists (e1 ++ e2).
  split; [by rewrite Hc2, Hc1, app_assoc | by apply Forall_app].
Qed.

Lemma onlyRead_listing uid w :
  onlyRead w (journal (CallIterateFolderChildren uid) w).
Proof. split; [done|]. exists [CallIterateFolderChildren uid]. by repeat constructor. Qed.

Lemma onlyRead_root w : onlyRead w (journal CallGetMyFilesRootFolder w).
Proof. split; [done|]. exists [CallGetMyFilesRootFolder]. by repeat constructor. Qed.

Lemma pickNode_found name nodes acc v :
  foldl (pickNode name) acc nodes = Some v →
  acc = Some v
  ∨ ∃ r, r ∈ nodes ∧ nr_ok r = true ∧ nr_value r = Some v ∧ nd_name v = name.
Proof.
  revert acc. induction nodes as [|node nodes IH]; intros acc Hfold; [by left|].
  simpl in Hfold. apply IH in Hfold as [Hacc | (r & Hr & Hrest)].
  - unfold pickNode in Hacc. destruct acc as [a|]; [by left|]. right.
    destruct (nr_value node) as [v0|] eqn:Hval; [|done].
    destruct (nr_ok node) eqn:Hok; [|done]. simpl in Hacc.
    case_bool_decide as Hname; [|done]. injection Hacc as ->.
    exists node. split; [left|]. done.
  - right. exists r. split; [by right | done].
Qed.

(** The loop of [findNodeByName] finds nothing only when no entry that is
    ok carries the name. *)
Lemma pickNode_none name nodes r v :
  foldl (pickNode name) None nodes = None →
  r ∈ nodes → nr_ok r = true → nr_value r = Some v → nd_name v ≠ name.
Proof.
  intros Hfold Hr Hok Hval Hname.
  assert (Hsome : ∀ l a, foldl (pickNode name) (Some a) l = Some a).
  { induction l as [|y l IHl]; intros a; [done|]. simpl. apply IHl. }
  revert Hfold Hr. generalize (@None NodeData) at 1.
  induction nodes as [|x nodes IH]; intros acc Hfold Hr.
  - by apply elem_of_nil in Hr.
  - simpl in Hfold. apply elem_of_cons in Hr as [<-|Hr].
    + assert (Hacc : pickNode name acc r ≠ None).
      { unfold pickNode. destruct acc; [done|]. rewrite Hval, Hok. simpl.
        by rewrite bool_decide_eq_true_2. }
      destruct (pickNode name acc r) as [a|]; [|done].
      by rewrite Hsome in Hfold.
    + by eapply IH.
Qed.

Lemma findNodeByName_run parent name w :
  findNodeByName client parent name w
  = (match iterateFolderChildren client parent (drive w) with
     | Returned nodes => Returned (foldl (pickNode name) None nodes)
     | Thrown e => Thrown e
     end,
     journal (CallIterateFolderChildren parent) w).
Proof.
  unfold findNodeByName, mbind, M_bind, children, query.
  by destruct (iterateFolderChildren client parent (drive w)).
Qed.

Lemma findNodeByName_found parent name w nodes v :
  iterateFolderChildren client parent (drive w) = Returned nodes →
  foldl (pickNode name) None nodes = Some v →
  childNamed client (drive w) parent name v.
Proof.
  intros Hlist Hfold. apply pickNode_found in Hfold as [?|(r & Hr & ?)]; [done|].
  by exists nodes, r.
Qed.

Lemma waysListed_step d from p ps v :
  waysListed client d from (p :: ps) →
  childNamed client d from p v → nd_type v = "folder" →
  waysListed client d (nd_uid v) ps.
Proof.
  intros Hways Hchild Hfolder pre post to Heq Hpost Hchain.
  apply (Hways (p :: pre) post to); [by rewrite Heq | done|].
  by exists v.
Qed.

(** The traversal only reads; what it returns is the end of a chain of
    folders; it throws only when a listing does. *)
Lemma traverseRemotePath_run parts : ∀ from w,
  ∃ res w', traverseRemotePath client from parts w = (res, w')
            ∧ onlyRead w w'
            ∧ (∀ to, res = Returned (Some to) →
                     folderChain client (drive w) from parts to)
            ∧ (waysListed client (drive w) from parts → isReturned res).
Proof.
  induction parts as [|p ps IH]; intros from w.
  - exists (Returned (Some from)), w. split; [done|].
    split; [apply onlyRead_refl|]. split; [by intros to [= <-] | done].
  - simpl. unfold mbind, M_bind. rewrite findNodeByName_run.
    destruct (iterateFolderChildren client from (drive w)) as [nodes|e]
      eqn:Hlist.
    + destruct (foldl (pickNode p) None nodes) as [v|] eqn:Hfound.
      * apply (findNodeByName_found _ _ _ _ _ Hlist) in Hfound.
        case_bool_decide as Hfolder.
        -- destruct (IH (nd_uid v) (journal (CallIterateFolderChildren from) w))
             as (res & w' & Hrun & Hread & Hchain & Hret).
           exists res, w'. split; [done|]. split.
           ++ eapply onlyRead_trans; [apply onlyRead_listing | done].
           ++ split.
              ** intros to Hres. exists v. split; [done|]. split; [done|].
                 by apply Hchain.
              ** intros Hways. apply Hret. by eapply waysListed_step.
        -- eexists (Returned None), _. split; [done|].
           split; [apply onlyRead_listing | done].
      * eexists (Returned None), _. split; [done|].
        split; [apply onlyRead_listing | done].
    + eexists (Thrown e), _. split; [done|].
      split; [apply onlyRead_listing|]. split; [done|].
      intros Hways. destruct (Hways [] (p :: ps) from) as (nodes & Hnodes);
        try done. unfold listed in Hnodes. congruence.
Qed.



End DeleteAbsent.




(* ====================================================================== *)
(** ** Creating from a local path that does not exist *)
(* ====================================================================== *)

(** C10: [create] on a local path that [statSync] does not find and that
    does not end with a slash returns [{success: false, isDirectory:
    false}] with the "Path not found" error, and neither the drive nor the
    journal of calls changes: no call goes out. *)
Theorem create_missing_path_fails_without_calls :
  ∀ (Drive : Type) (client : @ProtonDriveClient Drive)
    (statSync : string → option Stats) (localPath : string) (w : @Remote Drive),
    statSync localPath = None →
    Js.endsWithSlash localPath = false →
    create client statSync localPath w
    = (Returned (mkCreate false None (Some (pathNotFound localPath)) false), w)
    ∧ Js.startsWith (pathNotFound localPath) "Path not found" = true.
Proof.
  intros Drive client statSync localPath w Hstat Hslash.
  unfold create. rewrite Hstat, Hslash. split; reflexivity.
Qed.

Lemma create_missing_path_fails_without_calls_witness :
  create emptyDriveClient noLocalFiles "/w/a.txt" freshRemote
  = (Returned (mkCreate false None (Some (pathNotFound "/w/a.txt")) false),
     freshRemote)
  ∧ Js.startsWith (pathNotFound "/w/a.txt") "Path not found" = true.
Proof.
  apply (create_missing_path_fails_without_calls unit emptyDriveClient
           noLocalFiles "/w/a.txt" freshRemote); reflexivity.
Defined.

(* ====================================================================== *)
(** ** The flush of the change buffer *)
(* ====================================================================== *)

Section Flush.

Context {Drive : Type}.
Variable remoteRoot : string.


(** The queries of the one-shot run add no row to [sync_jobs]. *)
Lemma queryAll_rows dryRun watchman dirs : ∀ st : SyncState Drive,
  syncJobs (db (sys (queryAll dryRun watchman dirs st)))
  = syncJobs (db (sys st)).
Proof.
  assert (Hqueue : ∀ watchDir files (st : SyncState Drive),
             sys (foldl (λ acc file,
                           queueChange (mkChange file watchDir None) acc)
                        st files) = sys st).
  { intros watchDir files. induction files as [|f fs IH]; intros st; [done|].
    simpl. by rewrite IH. }
  induction dirs as [|dir rest IH]; intros st; [done|].
  unfold queryAll in *. simpl. rewrite IH.
  unfold handleResponse. rewrite Hqueue.
  destruct (Js.nonEmpty _); [|done].
  simpl. unfold setClock. by destruct dryRun.
Qed.

End Flush.



(* ====================================================================== *)
(** ** The clock and the enqueue *)
(* ====================================================================== *)

(** C5 (the code at the failing input): in the one-shot run the queries
    never add a row to [sync_jobs]; on the batch [movedBatch] for ["/w"]
    the clock ["c:1"] is in the clock store when the queries end, while the
    two events of the batch are still in the buffer and [sync_jobs] is
    empty; they are enqueued only afterwards, by [processChanges]. In
    [queryAllChanges] the batch handler is run on the store in which the
    clock is already written. *)
Theorem clock_written_before_enqueue :
  (∀ (Drive : Type) dryRun watchman dirs (st : SyncState Drive),
      syncJobs (db (sys (queryAll dryRun watchman dirs st)))
      = syncJobs (db (sys st)))
  ∧ (let st1 := queryAll false movedBatch ["/w"] freshSync in
     getClock "/w" (db (sys st1)) = Some "c:1"
     ∧ syncJobs (db (sys st1)) = []
     ∧ length (pendingChanges st1) = 2%nat
     ∧ match movedRun with
       | Some st2 => length (syncJobs (db (sys st2))) = 2%nat
                     ∧ getClock "/w" (db (sys st2)) = Some "c:1"
       | None => False
       end)
  ∧ ∀ (H : Type) (onFileChangeBatch : list FileChange → Db * H → Db * H) (h : H),
      queryAllChanges onFileChangeBatch movedBatch ["/w"] false (emptyDb, h)
      = (onFileChangeBatch ((λ f, mkChange f "/w" None) <$> movedPair)
           (setClock "/w" "c:1" false emptyDb, h), 2%nat).
Proof.
  split; [|split].
  - intros Drive dryRun watchman dirs st. apply queryAll_rows.
  - vm_compute. repeat split; reflexivity.
  - intros H onFileChangeBatch h. reflexivity.
Qed.


(* ====================================================================== *)
(** ** The model at work on a small drive *)
(* ====================================================================== *)

(** A failed attempt is counted: one pass, one attempt, nothing synced. *)
Example attempt_counted_without_sync :
  processAllPendingJobs offlineClient createNodeOk false twoTicks sysWithDelete
  = Some (1%nat, retriedSys)
  ∧ completions (logs retriedSys) = 0%nat
  ∧ countStatus SYNCED (db retriedSys) = 0%nat.
Proof. split; [vm_compute; reflexivity|]. split; reflexivity. Qed.

(** Deleting a file that is there walks the path and trashes the node. *)
Example delete_of_present_path_trashes :
  deleteNode smallDriveClient "w/a.txt" false freshRemote
  = (Returned (mkDeleteOp true true (Some "f1") (Some "file") None),
     mkRemote tt [CallGetMyFilesRootFolder;
                  CallIterateFolderChildren "root";
                  CallIterateFolderChildren "w1";
                  CallTrashNodes ["f1"]]).
Proof. vm_compute. reflexivity. Qed.

(** Creating from a local file uploads a revision of the file that is
    there, and a new file otherwise. *)
Example create_of_local_file_uploads :
  (create smallDriveClient allLocalFiles "w/a.txt" freshRemote).1
  = Returned (mkCreate true (Some "f1") None false)
  ∧ calls (create smallDriveClient allLocalFiles "w/b.txt" freshRemote).2
    = [CallGetMyFilesRootFolder;
       CallIterateFolderChildren "root";
       CallIterateFolderChildren "w1";
       CallGetFileUploader "w1" "b.txt"
         (mkMeta "application/octet-stream" 5 0)].
Proof. split; vm_compute; reflexivity. Qed.

(** Rows that are due with the same [retry_at] are taken in rowid order:
    of three jobs enqueued within one second the first is selected. *)
Example ties_go_to_lowest_rowid :
  id <$> getNextPendingJob 5
           (enqueueJob (mkParams UPDATE "/w/c.txt" "w/c.txt") false 2
              (enqueueJob (mkParams UPDATE "/w/b.txt" "w/b.txt") false 1
                 (enqueueJob sampleUpdate false 0 emptyDb)))
  = Some 1%nat.
Proof. vm_compute. reflexivity. Qed.

(** A job that failed at 4900 ms is held back until 5000 ms, the start of
    the second of its retry [Date] 5900 ms. *)
Example retried_job_due_within_its_second :
  let s1 := (processNextJob offlineClient createNodeOk false
               (mkTick 4900 4900 0)
               (mkSys (enqueueJob sampleDelete false 4900 emptyDb) freshRemote
                      [])).2 in
  retryAt <$> syncJobs (db s1) = [5000]
  ∧ id <$> getNextPendingJob 4999 (db s1) = None
  ∧ id <$> getNextPendingJob 5000 (db s1) = Some 1%nat.
Proof. vm_compute. repeat split; reflexivity. Qed.

(** The path helpers on the paths the examples use. *)
Example parsePath_samples :
  parsePath "my_files/foo/bar.txt" = (["foo"], "bar.txt")
  ∧ parsePath "a.txt" = ([], "a.txt")
  ∧ parsePath "x/y/z/" = (["x"; "y"], "z")
  ∧ Js.basename "/home/u/docs/" = "docs"
  ∧ Js.dirname "/a" = "/".
Proof. repeat split; vm_compute; reflexivity. Qed.

(* ====================================================================== *)
(** ** More on the job store and the executor *)
(* ====================================================================== *)

(** [getJobCounts]: the three counts cover the table. *)
Theorem getJobCounts_cover_table :
  ∀ d : Db,
    let '(pending, synced, blocked) := getJobCounts d in
    (pending + synced + blocked)%nat = length (syncJobs d).
Proof.
  intros d. unfold getJobCounts, countStatus.
  induction (syncJobs d) as [|j rows IH]; [done|].
  rewrite !filter_cons. simpl length.
  destruct (status j);
    repeat (destruct (decide _) as [?|?]; try done); simpl; lia.
Qed.

Section ExecutorKeeps.

Context {Drive : Type}.
Variable client : @ProtonDriveClient Drive.
Variable createNode : string → string → @M Drive CreateResult.

Lemma updateWhereId_fixedColumns jobId f d :
  (∀ j, fixedColumns (f j) = fixedColumns j) →
  fixedColumns <$> syncJobs (updateWhereId jobId f d)
  = fixedColumns <$> syncJobs d
  ∧ jobSeq (updateWhereId jobId f d) = jobSeq d
  ∧ clocks (updateWhereId jobId f d) = clocks d.
Proof.
  intros Hf. split; [|done]. unfold updateWhereId, withJobs. simpl.
  rewrite <- list_fmap_compose. apply list_fmap_ext. intros i j _. simpl.
  destruct (decide (id j = jobId)); [apply Hf | done].
Qed.

Lemma processNextJob_keeps dryRun tk (s : Sys Drive) :
  fixedColumns <$> syncJobs (db (processNextJob client createNode dryRun tk s).2)
  = fixedColumns <$> syncJobs (db s)
  ∧ jobSeq (db (processNextJob client createNode dryRun tk s).2) = jobSeq (db s)
  ∧ clocks (db (processNextJob client createNode dryRun tk s).2) = clocks (db s).
Proof.
  unfold processNextJob.
  destruct (getNextPendingJob (selectTime tk) (db s)) as [job|]; [|done].
  destruct (runJob client createNode job (remote s)) as [[[msg|] w'] lines].
  - destruct (decide (MAX_RETRIES ≤ nRetries job)%nat).
    + simpl. unfold markJobBlocked. destruct dryRun; [done|].
      by apply updateWhereId_fixedColumns.
    + unfold scheduleRetry. destruct dryRun; [done|]. simpl.
      by apply updateWhereId_fixedColumns.
  - simpl. unfold markJobSynced. destruct dryRun; [done|].
    by apply updateWhereId_fixedColumns.
Qed.

Lemma processAllPendingJobs_keeps dryRun ticks : ∀ (s s' : Sys Drive) n,
  processAllPendingJobs client createNode dryRun ticks s = Some (n, s') →
  fixedColumns <$> syncJobs (db s') = fixedColumns <$> syncJobs (db s)
  ∧ jobSeq (db s') = jobSeq (db s)
  ∧ clocks (db s') = clocks (db s).
Proof.
  induction ticks as [|tk rest IH]; intros s s' n; [done|]. simpl.
  pose proof (processNextJob_keeps dryRun tk s) as (Hc & Hs & Hk).
  destruct (processNextJob client createNode dryRun tk s) as [[] s1].
  - destruct (processAllPendingJobs client createNode dryRun rest s1)
      as [[count s2]|] eqn:Hrest; [|done].
    intros [= <- <-]. apply IH in Hrest as (Hc' & Hs' & Hk'). simpl in *.
    split; [congruence|]. split; congruence.
  - intros [= <- <-]. done.
Qed.

End ExecutorKeeps.

(** The executor only updates: a pass of [processNextJob], and a whole run
    of [processAllPendingJobs] that returns, leaves the number and order
    of the rows and their id, event type, paths and creation time as they
    were, and touches neither the AUTOINCREMENT sequence nor the clocks. *)
Theorem executor_only_updates :
  ∀ (Drive : Type) (client : @ProtonDriveClient Drive)
    (createNode : string → string → @M Drive CreateResult)
    (dryRun : bool) (ticks : list Tick) (s s' : Sys Drive) (n : nat),
    processAllPendingJobs client createNode dryRun ticks s = Some (n, s') →
    fixedColumns <$> syncJobs (db s') = fixedColumns <$> syncJobs (db s)
    ∧ length (syncJobs (db s')) = length (syncJobs (db s))
    ∧ jobSeq (db s') = jobSeq (db s)
    ∧ clocks (db s') = clocks (db s).
Proof.
  intros Drive client createNode dryRun ticks s s' n Hrun.
  apply processAllPendingJobs_keeps in Hrun as (Hc & Hs & Hk).
  split; [done|]. split; [|done].
  apply (f_equal length) in Hc. by rewrite !length_fmap in Hc.
Qed.

Lemma executor_only_updates_witness :
  fixedColumns <$> syncJobs (db retriedSys)
  = fixedColumns <$> syncJobs (db sysWithDelete)
  ∧ length (syncJobs (db retriedSys)) = length (syncJobs (db sysWithDelete))
  ∧ jobSeq (db retriedSys) = jobSeq (db sysWithDelete)
  ∧ clocks (db retriedSys) = clocks (db sysWithDelete).
Proof.
  apply (executor_only_updates unit offlineClient createNodeOk false twoTicks
           sysWithDelete retriedSys 1%nat).
  vm_compute. reflexivity.
Defined.
Section DryRun.

Context {Drive : Type}.
Variable client : @ProtonDriveClient Drive.
Variable createNode : string → string → @M Drive CreateResult.

Lemma processNextJob_dry tk (s : Sys Drive) :
  db (processNextJob client createNode true tk s).2 = db s
  ∧ remote (processNextJob client createNode true tk s).2
    = remote (processNextJob client createNode false tk s).2
  ∧ (processNextJob client createNode true tk s).1
    = (processNextJob client createNode false tk s).1.
Proof.
  unfold processNextJob.
  destruct (getNextPendingJob (selectTime tk) (db s)) as [job|]; [|done].
  destruct (runJob client createNode job (remote s)) as [[[msg|] w'] lines];
    [|done].
  destruct (decide (MAX_RETRIES ≤ nRetries job)%nat); done.
Qed.

Lemma processAllPendingJobs_dry_stuck ticks : ∀ s : Sys Drive,
  (∀ tk, tk ∈ ticks → getNextPendingJob (selectTime tk) (db s) ≠ None) →
  processAllPendingJobs client createNode true ticks s = None.
Proof.
  induction ticks as [|tk rest IH]; intros s Hdue; [done|]. simpl.
  pose proof (processNextJob_dry tk s) as (Hdb & _ & _).
  destruct (processNextJob client createNode true tk s) as [[] s1] eqn:Hpass.
  - rewrite IH; [done|]. intros tk' Hin. simpl in Hdb. rewrite Hdb.
    apply Hdue. by right.
  - exfalso. apply (Hdue tk); [left|].
    apply (processNextJob_false client createNode true). by rewrite Hpass.
Qed.

End DryRun.

(** The dry-run flag silences the database only. A dry-run pass of
    [processNextJob] leaves the database as it was, but it selects the same
    job, makes the same calls to the drive (the trashing included) and
    returns the same answer as a pass that is not a dry run. *)
Theorem dry_run_pass_still_calls_drive :
  ∀ (Drive : Type) (client : @ProtonDriveClient Drive)
    (createNode : string → string → @M Drive CreateResult)
    (tk : Tick) (s : Sys Drive),
    db (processNextJob client createNode true tk s).2 = db s
    ∧ remote (processNextJob client createNode true tk s).2
      = remote (processNextJob client createNode false tk s).2
    ∧ (processNextJob client createNode true tk s).1
      = (processNextJob client createNode false tk s).1.
Proof. intros. apply processNextJob_dry. Qed.

(** In a dry run a job that is due stays due: when the store holds a
    PENDING row whose [retry_at] is not after any of the poll times, the
    loop of [processAllPendingJobs] does not end, however many passes it is
    given. *)
Theorem dry_run_loop_never_ends :
  ∀ (Drive : Type) (client : @ProtonDriveClient Drive)
    (createNode : string → string → @M Drive CreateResult)
    (ticks : list Tick) (s : Sys Drive) (j : SyncJob),
    j ∈ syncJobs (db s) → status j = PENDING →
    (∀ tk, tk ∈ ticks → retryAt j ≤ selectTime tk) →
    processAllPendingJobs client createNode true ticks s = None.
Proof.
  intros Drive client createNode ticks s j Hj Hst Hdue.
  apply processAllPendingJobs_dry_stuck. intros tk Hin Hnone.
  apply (proj1 (getNextPendingJob_None _ _) Hnone j Hj).
  split; [done | by apply Hdue].
Qed.

Lemma dry_run_loop_never_ends_witness :
  processAllPendingJobs emptyDriveClient createNodeOk true threeTicks
    sysWithDelete = None.
Proof.
  apply (dry_run_loop_never_ends unit emptyDriveClient createNodeOk threeTicks
           sysWithDelete (mkSyncJob 1 DELETE "/w/a.txt" "w/a.txt" PENDING 0 0
                            None 0)).
  - left.
  - reflexivity.
  - intros tk Hin.
    repeat (apply elem_of_cons in Hin as [->|Hin]; [by vm_compute|]).
    by apply elem_of_nil in Hin.
Defined.
Section Termination.

Context {Drive : Type}.
Variable client : @ProtonDriveClient Drive.
Variable createNode : string → string → @M Drive CreateResult.

Lemma fmap_update_other (jobId : nat) (f : SyncJob → SyncJob)
    (rows : list SyncJob) :
  jobId ∉ id <$> rows →
  (λ j, if decide (id j = jobId) then f j else j) <$> rows = rows.
Proof.
  induction rows as [|x rows IH]; intros Hnot; [done|].
  rewrite fmap_cons in Hnot. apply not_elem_of_cons in Hnot as [Hx Hrest].
  rewrite fmap_cons, IH by done.
  destruct (decide (id x = jobId)); [congruence | done].
Qed.

(** Updating the one row of a job moves the budget by the change of that
    row. *)
Lemma retryBudget_update (f : SyncJob → SyncJob) (d : Db) (job : SyncJob) :
  NoDup (id <$> syncJobs d) → job ∈ syncJobs d →
  (retryBudget (updateWhereId (id job) f d) + attemptsLeft job
   = retryBudget d + attemptsLeft (f job))%nat.
Proof.
  unfold retryBudget, updateWhereId, withJobs. cbn [syncJobs].
  induction (syncJobs d) as [|x rows IH]; intros Hnd Hin.
  - by apply elem_of_nil in Hin.
  - rewrite fmap_cons in Hnd. apply NoDup_cons in Hnd as [Hx Hnd].
    rewrite fmap_cons. cbn [sum_list_with].
    destruct (decide (id x = id job)) as [Hsame|Hdiff].
    + assert (x = job) as ->.
      { apply elem_of_cons in Hin as [->|Hin]; [done|].
        exfalso. apply Hx. rewrite Hsame. by apply list_elem_of_fmap_2. }
      rewrite fmap_update_other by done. lia.
    + apply elem_of_cons in Hin as [->|Hin]; [done|].
      specialize (IH Hnd Hin). lia.
Qed.

(** A pass that selects a job and is not a dry run uses up budget. *)
Lemma processNextJob_spends tk (s s' : Sys Drive) :
  storeInv (db s) →
  processNextJob client createNode false tk s = (true, s') →
  (retryBudget (db s') < retryBudget (db s))%nat.
Proof.
  intros (Hret & Hnd & _). unfold processNextJob.
  destruct (getNextPendingJob (selectTime tk) (db s)) as [job|] eqn:Hsel;
    [|done].
  apply getNextPendingJob_Some in Hsel as (Hjob & [Hpend _] & _).
  assert (Hn : (nRetries job ≤ MAX_RETRIES)%nat).
  { rewrite Forall_forall in Hret. by apply Hret. }
  assert (Hleft : attemptsLeft job = (S MAX_RETRIES - nRetries job)%nat).
  { unfold attemptsLeft. by destruct (decide (status job = PENDING)). }
  unfold MAX_RETRIES in *.
  destruct (runJob client createNode job (remote s)) as [[[msg|] w'] lines].
  - destruct (decide (10 ≤ nRetries job)%nat).
    + intros [= <-]. simpl.
      pose proof (retryBudget_update
                    (λ j, {| id := id j; eventType := eventType j;
                             localPath := localPath j;
                             remotePath := remotePath j;
                             status := BLOCKED; retry_at := retry_at j;
                             nRetries := nRetries j; lastError := Some msg;
                             created_at := created_at j |})
                    (db s) job Hnd Hjob) as Hbud.
      unfold attemptsLeft at 2 in Hbud. simpl in Hbud. lia.
    + intros [= <-]. simpl.
      pose proof (retryBudget_update
                    (λ j, {| id := id j; eventType := eventType j;
                             localPath := localPath j;
                             remotePath := remotePath j;
                             status := status j;
                             retry_at :=
                               toTimestamp (retryDate (retryTime tk)
                                              (nRetries job) (random tk));
                             nRetries := nRetries job + 1;
                             lastError := Some msg;
                             created_at := created_at j |})
                    (db s) job Hnd Hjob) as Hbud.
      unfold attemptsLeft at 2 in Hbud. simpl in Hbud.
      rewrite Hpend in Hbud. simpl in Hbud. unfold MAX_RETRIES in Hbud. lia.
  - intros [= <-]. simpl.
    pose proof (retryBudget_update
                  (λ j, {| id := id j; eventType := eventType j;
                           localPath := localPath j;
                           remotePath := remotePath j;
                           status := SYNCED; retry_at := retry_at j;
                           nRetries := nRetries j; lastError := None;
                           created_at := created_at j |})
                  (db s) job Hnd Hjob) as Hbud.
    unfold attemptsLeft at 2 in Hbud. simpl in Hbud. lia.
Qed.

Lemma processAllPendingJobs_ends_within ticks : ∀ s : Sys Drive,
  storeInv (db s) →
  (retryBudget (db s) < length ticks)%nat →
  ∃ n s', processAllPendingJobs client createNode false ticks s = Some (n, s')
          ∧ (n ≤ retryBudget (db s))%nat.
Proof.
  induction ticks as [|tk rest IH]; intros s Hinv Hlen; [simpl in Hlen; lia|].
  simpl.
  destruct (processNextJob client createNode false tk s) as [[] s1] eqn:Hpass.
  - pose proof (processNextJob_spends tk s s1 Hinv Hpass) as Hless.
    assert (Hinv1 : storeInv (db s1)).
    { pose proof (storeInv_processNextJob client createNode false tk s Hinv)
        as H1. by rewrite Hpass in H1. }
    destruct (IH s1 Hinv1) as (n & s' & Hrun & Hn); [simpl in Hlen; lia|].
    rewrite Hrun. exists (S n), s'. split; [done | lia].
  - exists 0%nat, s1. split; [done | lia].
Qed.

Lemma retryBudget_bound (d : Db) :
  (retryBudget d ≤ S MAX_RETRIES * countStatus PENDING d)%nat.
Proof.
  unfold retryBudget, countStatus. induction (syncJobs d) as [|j rows IH];
    [simpl; lia|].
  rewrite filter_cons. cbn [sum_list_with]. unfold attemptsLeft at 1.
  destruct (decide (status j = PENDING)); simpl length; unfold MAX_RETRIES in *;
    lia.
Qed.

End Termination.

(** The executor loop ends. In a run that is not a dry run, on a store that
    is reachable, every pass that selects a job either settles it or moves
    it one retry closer to being blocked; so given more passes than eleven
    per PENDING row (MAX_RETRIES retries and the first attempt),
    [processAllPendingJobs] returns, whatever the drive answers and however
    the clock moves, and the count it returns is at most eleven per
    PENDING row. *)
Theorem executor_loop_ends :
  ∀ (Drive : Type) (client : @ProtonDriveClient Drive)
    (createNode : string → string → @M Drive CreateResult)
    (ticks : list Tick) (s : Sys Drive),
    reachable client createNode s →
    (S MAX_RETRIES * countStatus PENDING (db s) < length ticks)%nat →
    ∃ n s', processAllPendingJobs client createNode false ticks s = Some (n, s')
            ∧ (n ≤ S MAX_RETRIES * countStatus PENDING (db s))%nat.
Proof.
  intros Drive client createNode ticks s Hreach Hlen.
  pose proof (storeInv_reachable _ _ _ Hreach) as Hinv.
  pose proof (retryBudget_bound (db s)) as Hbound.
  destruct (processAllPendingJobs_ends_within client createNode ticks s Hinv)
    as (n & s' & Hrun & Hn); [lia|].
  exists n, s'. split; [done | lia].
Qed.


Lemma executor_loop_ends_witness :
  ∃ n s',
    processAllPendingJobs offlineClient createNodeOk false twelveTicks
      sysWithDelete = Some (n, s')
    ∧ (n ≤ S MAX_RETRIES * countStatus PENDING (db sysWithDelete))%nat.
Proof.
  apply (executor_loop_ends unit offlineClient createNodeOk twelveTicks
           sysWithDelete reachable_sysWithDelete).
  vm_compute. lia.
Defined.

Section Backoff.

Context {Drive : Type}.
Variable client : @ProtonDriveClient Drive.
Variable createNode : string → string → @M Drive CreateResult.

Lemma retried_job_not_due tk (s : Sys Drive) job message w' lines now j' :
  storeInv (db s) →
  getNextPendingJob (selectTime tk) (db s) = Some job →
  runJob client createNode job (remote s) = (Some message, w', lines) →
  (nRetries job < MAX_RETRIES)%nat →
  (0 <= random tk)%Q → (random tk < 1)%Q →
  0 ≤ retryTime tk ≤ 8640000000000000 - 450000 →
  now < 1000 * ((retryTime tk + baseDelay (nRetries job)) / 1000) →
  getNextPendingJob now (db (processNextJob client createNode false tk s).2)
  = Some j' →
  id j' ≠ id job.
Proof.
  intros Hinv Hsel Hrun Hless Hr0 Hr1 Htime Hnow Hsel' Hid.
  apply getNextPendingJob_Some in Hsel' as (Hin' & [_ Hdue] & _).
  pose proof (failure_routed client createNode tk s job message w' lines j'
                Hinv Hsel Hrun Hin' Hid) as Hrouted.
  destruct (decide (MAX_RETRIES ≤ nRetries job)%nat) as [Hmax|_]; [lia|].
  destruct Hrouted as (_ & _ & _ & Hat).
  assert (Htime' : 0 ≤ retryTime tk ≤ 8640000000000000) by lia.
  pose proof (retryDate_bounds (retryTime tk) (nRetries job) (random tk)
                Hr0 Hr1 Htime') as [Hlo _].
  unfold retryAt, fromTimestamp in Hdue. rewrite Hat in Hdue.
  pose proof (Z.div_le_mono (retryTime tk + baseDelay (nRetries job))
                (retryDate (retryTime tk) (nRetries job) (random tk)) 1000)
    as Hmono.
  lia.
Qed.

End Backoff.

(** The backoff holds the job back, to the second. After a pass in which
    the job failed with fewer than MAX_RETRIES retries, at a clock read
    from 0 to 8.64e15 - 450000 ms (the retry [Date] is then a valid one),
    no poll before the start of the second in which
    [Date.now() + min(1000·2^n, 300000)] falls (the time of the failure
    plus the base delay of its retry count) selects that job again; other
    jobs that are due are taken first. The job is thus held back for more
    than the base delay less one second. *)
Theorem retried_job_waits_for_its_delay :
  ∀ (Drive : Type) (client : @ProtonDriveClient Drive)
    (createNode : string → string → @M Drive CreateResult)
    (tk : Tick) (s : Sys Drive) (job : SyncJob) (message : string)
    (w' : @Remote Drive) (lines : list LogLine) (now : Z) (j' : SyncJob),
    reachable client createNode s →
    getNextPendingJob (selectTime tk) (db s) = Some job →
    runJob client createNode job (remote s) = (Some message, w', lines) →
    (nRetries job < MAX_RETRIES)%nat →
    (0 <= random tk)%Q → (random tk < 1)%Q →
    0 ≤ retryTime tk ≤ 8640000000000000 - 450000 →
    now < 1000 * ((retryTime tk + baseDelay (nRetries job)) / 1000) →
    getNextPendingJob now (db (processNextJob client createNode false tk s).2)
    = Some j' →
    id j' ≠ id job
    ∧ retryTime tk + baseDelay (nRetries job) - 999
      ≤ 1000 * ((retryTime tk + baseDelay (nRetries job)) / 1000).
Proof.
  intros Drive client createNode tk s job message w' lines now j' Hreach
         Hsel Hrun Hless Hr0 Hr1 Htime Hnow Hsel'.
  split.
  - eapply retried_job_not_due; try done. by eapply storeInv_reachable.
  - pose proof (Z.div_mod (retryTime tk + baseDelay (nRetries job)) 1000).
    pose proof (Z.mod_pos_bound (retryTime tk + baseDelay (nRetries job)) 1000).
    lia.
Qed.


Lemma reachable_sysWithTwoDeletes :
  reachable offlineClient createNodeOk sysWithTwoDeletes.
Proof.
  apply (ReachStep _ _ sysWithDelete).
  - apply reachable_sysWithDelete.
  - apply (StepEnqueue _ _ (mkParams DELETE "/w/b.txt" "w/b.txt") false 0
             sysWithDelete).
Qed.

Lemma retried_job_waits_for_its_delay_witness :
  id (mkSyncJob 2 DELETE "/w/b.txt" "w/b.txt" PENDING 0 0 None 0)
  ≠ id (mkSyncJob 1 DELETE "/w/a.txt" "w/a.txt" PENDING 0 0 None 0).
Proof.
  apply (retried_job_waits_for_its_delay unit offlineClient createNodeOk
           (mkTick 0 0 0) sysWithTwoDeletes
           (mkSyncJob 1 DELETE "/w/a.txt" "w/a.txt" PENDING 0 0 None 0)
           "Failed to get root folder: offline"
           (mkRemote tt [CallGetMyFilesRootFolder]) [LogDeleting "w/a.txt"]
           999 (mkSyncJob 2 DELETE "/w/b.txt" "w/b.txt" PENDING 0 0 None 0)
           reachable_sysWithTwoDeletes).
  - vm_compute. reflexivity.
  - vm_compute. reflexivity.
  - unfold MAX_RETRIES. simpl. lia.
  - vm_compute. discriminate.
  - reflexivity.
  - vm_compute. split; discriminate.
  - vm_compute. reflexivity.
  - vm_compute. reflexivity.
Defined.

Section Ids.

Context {Drive : Type}.
Variable client : @ProtonDriveClient Drive.
Variable createNode : string → string → @M Drive CreateResult.

Lemma reachable_ids (s : Sys Drive) :
  reachable client createNode s →
  id <$> syncJobs (db s) = seq 1 (jobSeq (db s)).
Proof.
  induction 1 as [w ls | s s' _ IH Hstep]; [done|].
  destruct Hstep as [params dryRun now s0 | dryRun tk s0].
  - cbn [db]. unfold enqueueJob. destruct dryRun; [done|].
    cbn [syncJobs jobSeq]. rewrite fmap_app, IH, seq_S. done.
  - pose proof (processNextJob_keeps client createNode dryRun tk s0)
      as (Hcols & Hseq & _).
    rewrite Hseq, <- IH.
    apply (f_equal (fmap (λ c : nat * SyncEventType * string * string * Z,
                            c.1.1.1.1))) in Hcols.
    by rewrite <- !list_fmap_compose in Hcols.
Qed.

End Ids.

(** The ids of the jobs are the numbers AUTOINCREMENT has handed out, in
    row order: in every store reachable from the empty one by enqueues and
    executor passes the ids are exactly 1, 2, ..., n, where n is both the
    sequence value and the number of rows; no id is reused and no row ever
    leaves the table. *)
Theorem job_ids_count_up :
  ∀ (Drive : Type) (client : @ProtonDriveClient Drive)
    (createNode : string → string → @M Drive CreateResult) (s : Sys Drive),
    reachable client createNode s →
    id <$> syncJobs (db s) = seq 1 (jobSeq (db s))
    ∧ length (syncJobs (db s)) = jobSeq (db s).
Proof.
  intros Drive client createNode s Hreach.
  pose proof (reachable_ids client createNode s Hreach) as Hids.
  split; [done|].
  apply (f_equal length) in Hids. by rewrite length_fmap, length_seq in Hids.
Qed.

Lemma job_ids_count_up_witness :
  id <$> syncJobs (db sysWithTwoDeletes) = seq 1 (jobSeq (db sysWithTwoDeletes))
  ∧ length (syncJobs (db sysWithTwoDeletes)) = jobSeq (db sysWithTwoDeletes).
Proof.
  exact (job_ids_count_up unit offlineClient createNodeOk sysWithTwoDeletes
           reachable_sysWithTwoDeletes).
Defined.


(* ====================================================================== *)
(** ** What [deleteNode] removes *)
(* ====================================================================== *)

Section DeleteSafety.

Context {Drive : Type}.
Variable client : @ProtonDriveClient Drive.

Implicit Types w : @Remote Drive.

Lemma removals_onlyRead w w' :
  onlyRead w w' → ∃ extra, calls w' = calls w ++ extra ∧ removals extra = [].
Proof.
  intros [_ (extra & Hcalls & Hall)]. exists extra. split; [done|].
  clear Hcalls. unfold removals. induction Hall as [|c cs Hc _ IH]; [done|].
  rewrite filter_cons_False; [exact IH | congruence].
Qed.

(** What the second half of [deleteNode] does, by what the lookup of the
    target finds and by how the removal ends. *)
Lemma removeTarget_cases target name permanent w :
  (∃ e, iterateFolderChildren client target (drive w) = Thrown e
        ∧ removeTarget client target name permanent w
          = (Thrown e, journal (CallIterateFolderChildren target) w))
  ∨ (removeTarget client target name permanent w
     = (Returned (mkDeleteOp true false None None None),
        journal (CallIterateFolderChildren target) w)
     ∧ ∀ node, ¬ childNamed client (drive w) target name node)
  ∨ ∃ node outcome d',
      childNamed client (drive w) target name node
      ∧ (if permanent then deleteNodes client [nd_uid node] (drive w)
         else trashNodes client [nd_uid node] (drive w)) = (outcome, d')
      ∧ removeTarget client target name permanent w
        = (Returned (removalResult permanent node outcome),
           mkRemote d' (calls w ++ [CallIterateFolderChildren target;
                                    removalCall permanent (nd_uid node)])).
Proof.
  unfold removeTarget, mbind, M_bind. rewrite findNodeByName_run.
  destruct (iterateFolderChildren client target (drive w)) as [nodes|e]
    eqn:Hlist; [|left; by exists e].
  right.
  destruct (foldl (pickNode name) None nodes) as [t|] eqn:Hfound.
  - right. apply (findNodeByName_found _ _ _ _ _ _ Hlist) in Hfound.
    unfold tryCatch, attempt, removalCall, removalResult, journal.
    cbn [drive calls].
    destruct permanent.
    + destruct (deleteNodes client [nd_uid t] (drive w)) as [outcome d']
        eqn:Hdel.
      exists t, outcome, d'. split; [done|]. split; [done|].
      simpl. rewrite Hdel.
      destruct outcome as [results|e]; simpl;
        [destruct (firstFailure results); simpl|]; by rewrite <- app_assoc.
    + destruct (trashNodes client [nd_uid t] (drive w)) as [outcome d']
        eqn:Hdel.
      exists t, outcome, d'. split; [done|]. split; [done|].
      simpl. rewrite Hdel.
      destruct outcome as [results|e]; simpl;
        [destruct (firstFailure results); simpl|]; by rewrite <- app_assoc.
  - left. split; [done|].
    intros node (nodes' & r & Hnodes & Hr & Hok & Hval & Hname).
    unfold listed in Hnodes. rewrite Hlist in Hnodes. injection Hnodes as <-.
    by eapply pickNode_none.
Qed.

(** A traversal that throws has just made the listing that threw. *)
Lemma traverseRemotePath_thrown parts : ∀ from w e w',
  traverseRemotePath client from parts w = (Thrown e, w') →
  ∃ uid, iterateFolderChildren client uid (drive w) = Thrown e
         ∧ last (calls w') = Some (CallIterateFolderChildren uid).
Proof.
  induction parts as [|p ps IH]; intros from w e w'; [done|].
  simpl. unfold mbind, M_bind. rewrite findNodeByName_run.
  destruct (iterateFolderChildren client from (drive w)) as [nodes|e0]
    eqn:Hlist.
  - destruct (foldl (pickNode p) None nodes) as [v|]; [|done].
    case_bool_decide; [|done].
    intros Hrun. by apply IH in Hrun.
  - intros [= <- <-]. exists from. split; [done|].
    simpl. by rewrite last_snoc.
Qed.

(** What [deleteNode] does, by the answer for the root folder and by what
    the traversal finds. *)
Lemma deleteNode_cases remotePath permanent w :
  let parts := (parsePath remotePath).1 in
  let name := (parsePath remotePath).2 in
  match getMyFilesRootFolder client (drive w) with
  | Thrown e =>
      deleteNode client remotePath permanent w
      = (Thrown e, journal CallGetMyFilesRootFolder w)
  | Returned root =>
      (ur_ok root = false
       ∧ deleteNode client remotePath permanent w
         = (Returned (mkDeleteOp false false None None
                        (Some ("Failed to get root folder: " +:+ ur_error root))),
            journal CallGetMyFilesRootFolder w))
      ∨ (ur_ok root = true ∧ ur_value root = None
         ∧ ∃ message, deleteNode client remotePath permanent w
                      = (Thrown message, journal CallGetMyFilesRootFolder w))
      ∨ (ur_ok root = true
         ∧ ∃ rootUid, ur_value root = Some rootUid
           ∧ ((∃ w', deleteNode client remotePath permanent w
                     = (Returned (mkDeleteOp true false None None None), w')
                     ∧ onlyRead w w')
              ∨ (∃ e w' uid,
                    deleteNode client remotePath permanent w = (Thrown e, w')
                    ∧ onlyRead w w'
                    ∧ iterateFolderChildren client uid (drive w) = Thrown e
                    ∧ last (calls w') = Some (CallIterateFolderChildren uid)
                    ∧ ¬ waysListed client (drive w) rootUid parts)
              ∨ (∃ parent w1,
                    onlyRead w w1
                    ∧ folderChain client (drive w) rootUid parts parent
                    ∧ deleteNode client remotePath permanent w
                      = removeTarget client parent name permanent w1)))
  end.
Proof.
  intros parts name. subst parts name. unfold deleteNode.
  destruct (parsePath remotePath) as [parts name]. simpl.
  unfold mbind, M_bind, rootFolder, query.
  destruct (getMyFilesRootFolder client (drive w)) as [root|e]; [|done].
  destruct (ur_ok root) eqn:Hok; simpl; [|by left].
  right. unfold bangUid.
  destruct (ur_value root) as [rootUid|] eqn:Hval.
  - right. split; [done|]. exists rootUid. split; [done|]. simpl.
    set (w0 := journal CallGetMyFilesRootFolder w).
    case_bool_decide as Hlen.
    + destruct (traverseRemotePath_run client parts rootUid w0)
        as (res & w1 & Hrun & Hread & Hchain & Hret).
      rewrite Hrun.
      assert (Hread1 : onlyRead w w1).
      { eapply onlyRead_trans; [apply onlyRead_root | exact Hread]. }
      destruct res as [res|e].
      * simpl. destruct (truthy res) eqn:Htruthy.
        -- destruct res as [target|]; [|done]. right. right.
           exists target, w1. split; [done|]. split; [by apply Hchain | done].
        -- left. by exists w1.
      * right. left.
        destruct (traverseRemotePath_thrown _ _ _ _ _ Hrun) as (uid & Hthrow & Hlast).
        exists e, w1, uid. split; [done|]. split; [done|].
        split; [done|]. split; [done|].
        intros Hways. by apply Hret in Hways.
    + simpl. right. right. exists rootUid, w0.
      split; [apply onlyRead_root|]. split; [|done].
      destruct parts; [done | simpl in Hlen; lia].
  - left. split; [done|]. split; [done|]. by eexists.
Qed.

End DeleteSafety.

Section DeleteTheorems.

Context {Drive : Type}.
Variable client : @ProtonDriveClient Drive.

Implicit Types w : @Remote Drive.

Lemma removals_app (a b : list ClientCall) :
  removals (a ++ b) = removals a ++ removals b.
Proof. unfold removals. apply filter_app. Qed.

Lemma removals_listing_then (permanent : bool) (target uid : string) :
  removals [CallIterateFolderChildren target; removalCall permanent uid]
  = [removalCall permanent uid].
Proof. by destruct permanent. Qed.

Lemma removalResult_existed permanent node outcome :
  del_existed (removalResult permanent node outcome) = true
  ∧ del_nodeUid (removalResult permanent node outcome) = Some (nd_uid node)
  ∧ (del_success (removalResult permanent node outcome) = false
     ↔ is_Some (del_error (removalResult permanent node outcome))).
Proof.
  unfold removalResult.
  destruct outcome as [results|e]; [destruct (firstFailure results)|]; simpl;
    (split; [done|]); (split; [done|]).
  - split; [by eexists | done].
  - split; [done | by intros [? ?]].
  - split; [by eexists | done].
Qed.

Lemma deleteNode_journal remotePath permanent w res w' :
  deleteNode client remotePath permanent w = (res, w') →
  ∃ extra,
    calls w' = calls w ++ extra
    ∧ ((removals extra = [] ∧ ∀ r, res = Returned r → del_existed r = false)
       ∨ ∃ rootUid parent node,
           rootFolderIs client (drive w) rootUid
           ∧ folderChain client (drive w) rootUid (parsePath remotePath).1 parent
           ∧ childNamed client (drive w) parent (parsePath remotePath).2 node
           ∧ removals extra = [removalCall permanent (nd_uid node)]
           ∧ ∃ r, res = Returned r ∧ del_existed r = true
                  ∧ del_nodeUid r = Some (nd_uid node)).
Proof.
  intros Hrun.
  pose proof (deleteNode_cases client remotePath permanent w) as Hcases.
  simpl in Hcases.
  destruct (getMyFilesRootFolder client (drive w)) as [root|e0] eqn:Hroot.
  - destruct Hcases
      as [[_ Hfail]
         | [(_ & _ & message & Hthrow)
           | (Hok & rootUid & Hval
              & [(w1 & Hnone & Hread)
                | [(e & w1 & uid & Hthrow & Hread & _)
                  | (parent & w1 & Hread & Hchain & Hrest)]])]].
    + rewrite Hfail in Hrun. injection Hrun as <- <-.
      exists [CallGetMyFilesRootFolder]. split; [done|]. left.
      split; [done|]. by intros r [= <-].
    + rewrite Hthrow in Hrun. injection Hrun as <- <-.
      exists [CallGetMyFilesRootFolder]. split; [done|]. left. by split.
    + rewrite Hnone in Hrun. injection Hrun as <- <-.
      destruct (removals_onlyRead w w1 Hread) as (extra & Hcalls & Hrem).
      exists extra. split; [done|]. left. split; [done|]. by intros r [= <-].
    + rewrite Hthrow in Hrun. injection Hrun as <- <-.
      destruct (removals_onlyRead w w1 Hread) as (extra & Hcalls & Hrem).
      exists extra. split; [done|]. left. by split.
    + rewrite Hrest in Hrun.
      destruct (removals_onlyRead w w1 Hread) as (extra & Hcalls & Hrem).
      destruct Hread as [Hdrive _].
      destruct (removeTarget_cases client parent (parsePath remotePath).2
                  permanent w1)
        as [(e & _ & Hthrow)
           | [[Habsent _] | (node & outcome & d' & Hchild & _ & Hremove)]].
      * rewrite Hthrow in Hrun. injection Hrun as <- <-.
        exists (extra ++ [CallIterateFolderChildren parent]).
        split; [simpl; by rewrite Hcalls, app_assoc|]. left. split.
        -- by rewrite removals_app, Hrem.
        -- done.
      * rewrite Habsent in Hrun. injection Hrun as <- <-.
        exists (extra ++ [CallIterateFolderChildren parent]).
        split; [simpl; by rewrite Hcalls, app_assoc|]. left. split.
        -- by rewrite removals_app, Hrem.
        -- by intros r [= <-].
      * rewrite Hremove in Hrun. injection Hrun as <- <-.
        exists (extra ++ [CallIterateFolderChildren parent;
                          removalCall permanent (nd_uid node)]).
        split; [simpl; by rewrite Hcalls, app_assoc|]. right.
        exists rootUid, parent, node. rewrite Hdrive in Hchild.
        split; [by exists root|]. split; [done|]. split; [done|]. split.
        -- by rewrite removals_app, Hrem, removals_listing_then.
        -- eexists. split; [reflexivity|].
           destruct (removalResult_existed permanent node outcome)
             as (Hex & Huid & _). done.
  - rewrite Hcases in Hrun. injection Hrun as <- <-.
    exists [CallGetMyFilesRootFolder]. split; [done|]. left. by split.
Qed.

(** [deleteNode] throws only while it reads, and returns when the tree
    can be read. *)
Lemma deleteNode_outcome remotePath permanent w res w' :
  deleteNode client remotePath permanent w = (res, w') →
  match res with
  | Returned r => del_success r = false ↔ is_Some (del_error r)
  | Thrown e =>
      onlyRead w w'
      ∧ (getMyFilesRootFolder client (drive w) = Thrown e
         ∨ (∃ root, getMyFilesRootFolder client (drive w) = Returned root
                    ∧ ur_ok root = true ∧ ur_value root = None)
         ∨ ∃ uid, iterateFolderChildren client uid (drive w) = Thrown e
                  ∧ last (calls w') = Some (CallIterateFolderChildren uid))
      ∧ ∀ rootUid, rootFolderIs client (drive w) rootUid →
                   ¬ walkable client (drive w) rootUid (parsePath remotePath).1
  end.
Proof.
  intros Hrun.
  pose proof (deleteNode_cases client remotePath permanent w) as Hcases.
  simpl in Hcases.
  destruct (getMyFilesRootFolder client (drive w)) as [root|e0] eqn:Hroot.
  - destruct Hcases
      as [[_ Hfail]
         | [(Hok & Hnoval & message & Hthrow)
           | (Hok & rootUid & Hval
              & [(w1 & Hnone & Hread)
                | [(e & w1 & uid & Hthrow & Hread & Hlist & Hlast & Hnot)
                  | (parent & w1 & Hread & Hchain & Hrest)]])]].
    + rewrite Hfail in Hrun. injection Hrun as <- <-. simpl.
      split; [by eexists | done].
    + rewrite Hthrow in Hrun. injection Hrun as <- <-.
      split; [apply onlyRead_root|]. split.
      * right. left. by exists root.
      * intros rootUid (root' & Hr' & _ & Hv).
        rewrite Hroot in Hr'. injection Hr' as <-. congruence.
    + rewrite Hnone in Hrun. injection Hrun as <- <-. simpl.
      split; [done | by intros [? ?]].
    + rewrite Hthrow in Hrun. injection Hrun as <- <-.
      split; [done|]. split.
      * right. right. by exists uid.
      * intros rootUid' (root' & Hr' & _ & Hv) Hwalk.
        rewrite Hroot in Hr'. injection Hr' as <-.
        rewrite Hval in Hv. injection Hv as <-. apply Hnot.
        intros pre post to Heq _ Hchain'. by apply (Hwalk pre post to).
    + rewrite Hrest in Hrun.
      destruct (removeTarget_cases client parent (parsePath remotePath).2
                  permanent w1)
        as [(e & Hlist & Hthrow)
           | [[Habsent _] | (node & outcome & d' & _ & _ & Hremove)]].
      * rewrite Hthrow in Hrun. injection Hrun as <- <-.
        destruct Hread as [Hdrive Hextra]. split.
        -- eapply onlyRead_trans; [by split | apply onlyRead_listing].
        -- split.
           ++ right. right. exists parent. rewrite <- Hdrive.
              split; [done|]. simpl. by rewrite last_snoc.
           ++ intros rootUid' (root' & Hr' & _ & Hv) Hwalk.
              rewrite Hroot in Hr'. injection Hr' as <-.
              rewrite Hval in Hv. injection Hv as <-.
              destruct (Hwalk (parsePath remotePath).1 [] parent)
                as (nodes & Hnodes); [by rewrite app_nil_r | done|].
              unfold listed in Hnodes. rewrite <- Hdrive in Hnodes. congruence.
      * rewrite Habsent in Hrun. injection Hrun as <- <-. simpl.
        split; [done | by intros [? ?]].
      * rewrite Hremove in Hrun. injection Hrun as <- <-.
        apply removalResult_existed.
  - rewrite Hcases in Hrun. injection Hrun as <- <-.
    split; [apply onlyRead_root|]. split; [by left|].
    intros rootUid (root' & Hr' & _). rewrite Hroot in Hr'. done.
Qed.

End DeleteTheorems.

(** [deleteNode] removes nothing but the node at the path. Whatever it
    answers, the calls it has added hold at most one removal, and that one
    is the trashing (the deletion, when [permanent]) of exactly the node
    that the remote tree has at the parsed path below the root folder; the
    result says [existed = true] with that uid when the removal went out
    and [existed = false] when none did. *)
Theorem deleteNode_removes_only_the_target :
  ∀ (Drive : Type) (client : @ProtonDriveClient Drive) (remotePath : string)
    (permanent : bool) (w w' : @Remote Drive)
    (res : Result DeleteOperationResult),
    deleteNode client remotePath permanent w = (res, w') →
    ∃ extra,
      calls w' = calls w ++ extra
      ∧ ((removals extra = [] ∧ ∀ r, res = Returned r → del_existed r = false)
         ∨ ∃ rootUid parent node,
             rootFolderIs client (drive w) rootUid
             ∧ folderChain client (drive w) rootUid
                 (parsePath remotePath).1 parent
             ∧ childNamed client (drive w) parent (parsePath remotePath).2 node
             ∧ removals extra = [removalCall permanent (nd_uid node)]
             ∧ ∃ r, res = Returned r ∧ del_existed r = true
                    ∧ del_nodeUid r = Some (nd_uid node)).
Proof.
  intros Drive client remotePath permanent w w' res.
  apply deleteNode_journal.
Qed.

Lemma deleteNode_removes_only_the_target_witness :
  ∃ extra,
    [CallGetMyFilesRootFolder; CallIterateFolderChildren "root";
     CallIterateFolderChildren "w1"; CallTrashNodes ["f1"]]
    = calls freshRemote ++ extra
    ∧ ((removals extra = []
        ∧ ∀ r, Returned (mkDeleteOp true true (Some "f1") (Some "file") None)
               = Returned r → del_existed r = false)
       ∨ ∃ rootUid parent node,
           rootFolderIs smallDriveClient (drive freshRemote) rootUid
           ∧ folderChain smallDriveClient (drive freshRemote) rootUid
               (parsePath "w/a.txt").1 parent
           ∧ childNamed smallDriveClient (drive freshRemote) parent
               (parsePath "w/a.txt").2 node
           ∧ removals extra = [removalCall false (nd_uid node)]
           ∧ ∃ r, Returned (mkDeleteOp true true (Some "f1") (Some "file") None)
                  = Returned r
                  ∧ del_existed r = true ∧ del_nodeUid r = Some (nd_uid node)).
Proof.
  apply (deleteNode_removes_only_the_target unit smallDriveClient "w/a.txt"
           false freshRemote
           (mkRemote tt [CallGetMyFilesRootFolder;
                         CallIterateFolderChildren "root";
                         CallIterateFolderChildren "w1";
                         CallTrashNodes ["f1"]])).
  vm_compute. reflexivity.
Defined.

(** [deleteNode] throws only while it reads. A result it returns has
    [success = false] exactly when it carries an error message; a removal
    that fails or throws is caught and reported in this way. When
    [deleteNode] throws, the drive is as it was and no removal has gone
    out: the root folder lookup has thrown, or has answered ok without a
    folder, or the listing made last has thrown; and then it is not the
    case that the root folder is there and that every folder along the
    path can be listed. *)
Theorem deleteNode_reports_failures :
  ∀ (Drive : Type) (client : @ProtonDriveClient Drive) (remotePath : string)
    (permanent : bool) (w w' : @Remote Drive)
    (res : Result DeleteOperationResult),
    deleteNode client remotePath permanent w = (res, w') →
    match res with
    | Returned r => del_success r = false ↔ is_Some (del_error r)
    | Thrown e =>
        onlyRead w w'
        ∧ (getMyFilesRootFolder client (drive w) = Thrown e
           ∨ (∃ root, getMyFilesRootFolder client (drive w) = Returned root
                      ∧ ur_ok root = true ∧ ur_value root = None)
           ∨ ∃ uid, iterateFolderChildren client uid (drive w) = Thrown e
                    ∧ last (calls w') = Some (CallIterateFolderChildren uid))
        ∧ ∀ rootUid, rootFolderIs client (drive w) rootUid →
                     ¬ walkable client (drive w) rootUid
                         (parsePath remotePath).1
    end.
Proof.
  intros Drive client remotePath permanent w w' res.
  apply deleteNode_outcome.
Qed.

Lemma deleteNode_reports_failures_witness :
  onlyRead freshRemote
    (mkRemote tt [CallGetMyFilesRootFolder; CallIterateFolderChildren "root"])
  ∧ (getMyFilesRootFolder unlistableClient (drive freshRemote)
     = Thrown "listing failed"
     ∨ (∃ root, getMyFilesRootFolder unlistableClient (drive freshRemote)
                = Returned root
                ∧ ur_ok root = true ∧ ur_value root = None)
     ∨ ∃ uid, iterateFolderChildren unlistableClient uid (drive freshRemote)
              = Thrown "listing failed"
              ∧ last [CallGetMyFilesRootFolder; CallIterateFolderChildren "root"]
                = Some (CallIterateFolderChildren uid))
  ∧ ∀ rootUid, rootFolderIs unlistableClient (drive freshRemote) rootUid →
               ¬ walkable unlistableClient (drive freshRemote) rootUid
                   (parsePath "w/a.txt").1.
Proof.
  apply (deleteNode_reports_failures unit unlistableClient "w/a.txt" false
           freshRemote
           (mkRemote tt [CallGetMyFilesRootFolder;
                         CallIterateFolderChildren "root"])
           (Thrown "listing failed")).
  vm_compute. reflexivity.
Defined.


Section ExecutorRemovals.

Context {Drive : Type}.
Variable client : @ProtonDriveClient Drive.
Variable createNode : string → string → @M Drive CreateResult.

Lemma delete_pass_journal dryRun tk (s : Sys Drive) job :
  getNextPendingJob (selectTime tk) (db s) = Some job →
  eventType job = DELETE →
  ∃ extra,
    calls (remote (processNextJob client createNode dryRun tk s).2)
    = calls (remote s) ++ extra
    ∧ (length (removals extra) ≤ 1)%nat
    ∧ ∀ c uids, c ∈ extra → c ≠ CallDeleteNodes uids.
Proof.
  intros Hsel Hdel. unfold processNextJob, runJob. rewrite Hsel.
  destruct (decide (eventType job = DELETE)) as [_|Hne]; [|done].
  destruct (deleteNode client (remotePath job) false (remote s))
    as [res w'] eqn:Hrun.
  destruct (deleteNode_journal client _ _ _ _ _ Hrun) as (extra & Hcalls & Hrem).
  assert (Hshape : (length (removals extra) ≤ 1)%nat
                   ∧ ∀ c uids, c ∈ extra → c ≠ CallDeleteNodes uids).
  { assert (Hin : ∀ c uids, c ∈ extra → c = CallDeleteNodes uids →
                            c ∈ removals extra).
    { intros c uids Hc ->. unfold removals. apply list_elem_of_filter. done. }
    destruct Hrem as [[Hnil _] | (rootUid & parent & node & _ & _ & _ & Hone & _)].
    - rewrite Hnil. split; [simpl; lia|]. intros c uids Hc Heq.
      specialize (Hin c uids Hc Heq). rewrite Hnil in Hin.
      by apply elem_of_nil in Hin.
    - rewrite Hone. split; [simpl; lia|]. intros c uids Hc Heq.
      specialize (Hin c uids Hc Heq). rewrite Hone in Hin.
      apply list_elem_of_singleton in Hin. subst c. discriminate. }
  exists extra. split; [|exact Hshape].
  destruct res as [result|e].
  - destruct (negb (del_success result)).
    + destruct (decide (MAX_RETRIES ≤ nRetries job)%nat); [done|].
      by destruct (scheduleRetry _ _ _ _ _ _ _).
    + by destruct (del_existed result).
  - destruct (decide (MAX_RETRIES ≤ nRetries job)%nat); [done|].
    by destruct (scheduleRetry _ _ _ _ _ _ _).
Qed.

End ExecutorRemovals.

(** The executor trashes and never deletes for good. A pass that works on
    a DELETE job, dry run or not, adds at most one removal to the calls
    made to the drive, and no call of [deleteNodes] at all. *)
Theorem executor_trashes_never_deletes :
  ∀ (Drive : Type) (client : @ProtonDriveClient Drive)
    (createNode : string → string → @M Drive CreateResult)
    (dryRun : bool) (tk : Tick) (s : Sys Drive) (job : SyncJob),
    getNextPendingJob (selectTime tk) (db s) = Some job →
    eventType job = DELETE →
    ∃ extra,
      calls (remote (processNextJob client createNode dryRun tk s).2)
      = calls (remote s) ++ extra
      ∧ (length (removals extra) ≤ 1)%nat
      ∧ ∀ c uids, c ∈ extra → c ≠ CallDeleteNodes uids.
Proof. intros Drive client createNode. apply delete_pass_journal. Qed.

Lemma executor_trashes_never_deletes_witness :
  ∃ extra,
    calls (remote (processNextJob smallDriveClient createNodeOk true
                     (mkTick 0 0 0) sysWithDelete).2)
    = calls (remote sysWithDelete) ++ extra
    ∧ (length (removals extra) ≤ 1)%nat
    ∧ ∀ c uids, c ∈ extra → c ≠ CallDeleteNodes uids.
Proof.
  apply (executor_trashes_never_deletes unit smallDriveClient createNodeOk true
           (mkTick 0 0 0) sysWithDelete
           (mkSyncJob 1 DELETE "/w/a.txt" "w/a.txt" PENDING 0 0 None 0)).
  - vm_compute. reflexivity.
  - reflexivity.
Defined.

(* ====================================================================== *)
(** ** The calls of the create module *)
(* ====================================================================== *)

Section EnsurePath.

Context {Drive : Type}.
Variable client : @ProtonDriveClient Drive.

Implicit Types w : @Remote Drive.

Lemma createFolderOrThrow_calls what parent name w res w' :
  createFolderOrThrow client what parent name w = (res, w') →
  calls w' = calls w ++ [CallCreateFolder parent name].
Proof.
  unfold createFolderOrThrow, mbind, M_bind, attempt.
  destruct (createFolder client parent name (drive w)) as [[result|e] d'].
  - destruct (negb (ur_ok result)).
    + by intros [= <- <-].
    + unfold bangUid. destruct (ur_value result); by intros [= <- <-].
  - by intros [= <- <-].
Qed.

Lemma findFolderByName_run parent name w :
  findFolderByName client parent name w
  = (match iterateFolderChildren client parent (drive w) with
     | Returned nodes => Returned (foldl (pickFolder name) None nodes)
     | Thrown e => Thrown e
     end,
     journal (CallIterateFolderChildren parent) w).
Proof.
  unfold findFolderByName, mbind, M_bind, children, query.
  by destruct (iterateFolderChildren client parent (drive w)).
Qed.

(** In create-only mode every call is a folder creation, one per
    component as long as none fails. *)
Lemma ensureRemotePathFrom_creating parts : ∀ uid w res w',
  ensureRemotePathFrom client uid true parts w = (res, w') →
  ∃ creations,
    calls w' = calls w ++ creations
    ∧ Forall isFolderCreation creations
    ∧ (length creations ≤ length parts)%nat
    ∧ (isReturned res → length creations = length parts).
Proof.
  induction parts as [|p ps IH]; intros uid w res w'.
  - intros [= <- <-]. exists []. rewrite app_nil_r. by repeat split.
  - simpl. unfold mbind, M_bind.
    destruct (createFolderOrThrow client "folder" uid p w) as [[u|e] w1] eqn:Hc;
      apply createFolderOrThrow_calls in Hc.
    + intros Hrest. apply IH in Hrest as (cs & Hcalls & Hall & Hlen & Hret).
      exists (CallCreateFolder uid p :: cs).
      split; [rewrite Hcalls, Hc, <- app_assoc; done|].
      split; [by constructor|]. simpl. split; [lia|].
      intros Hr. by rewrite Hret.
    + intros [= <- <-]. exists [CallCreateFolder uid p].
      split; [done|]. split; [by repeat constructor|]. simpl. split; [lia|done].
Qed.

(** In search mode the listings come first; once a folder had to be
    created, only creations follow. *)
Lemma ensureRemotePathFrom_searching parts : ∀ uid w res w',
  ensureRemotePathFrom client uid false parts w = (res, w') →
  ∃ listings creations,
    calls w' = calls w ++ listings ++ creations
    ∧ Forall isListing listings
    ∧ Forall isFolderCreation creations
    ∧ (length listings ≤ length parts)%nat
    ∧ (length creations ≤ length parts)%nat
    ∧ (length listings + length creations ≤ S (length parts))%nat
    ∧ (isReturned res → length parts ≤ length listings + length creations)%nat.
Proof.
  induction parts as [|p ps IH]; intros uid w res w'.
  - intros [= <- <-]. exists [], []. rewrite app_nil_r. simpl.
    repeat split; done || lia.
  - simpl. unfold mbind, M_bind. rewrite findFolderByName_run.
    destruct (iterateFolderChildren client uid (drive w)) as [nodes|e0];
      [|intros [= <- <-];
        exists [CallIterateFolderChildren uid], []; rewrite app_nil_r; simpl;
        split; [done|]; split; [by repeat constructor|]; split; [done|];
        split; [lia|]; split; [lia|]; split; [lia | done]].
    destruct (truthy (foldl (pickFolder p) None _)).
    + intros Hrest.
      apply IH in Hrest as (ls & cs & Hcalls & Hl & Hc & Hll & Hlc & Hsum & Hret).
      exists (CallIterateFolderChildren uid :: ls), cs.
      split; [rewrite Hcalls; simpl; by rewrite <- app_assoc|].
      split; [by constructor|]. split; [done|]. simpl.
      split; [lia|]. split; [lia|]. split; [lia|].
      intros Hr. specialize (Hret Hr). lia.
    + destruct (createFolderOrThrow client "folder" uid p
                  (journal (CallIterateFolderChildren uid) w))
        as [[u|e] w1] eqn:Hc; apply createFolderOrThrow_calls in Hc.
      * intros Hrest.
        apply ensureRemotePathFrom_creating in Hrest
          as (cs & Hcalls & Hall & Hlen & Hret).
        exists [CallIterateFolderChildren uid], (CallCreateFolder uid p :: cs).
        split; [rewrite Hcalls, Hc; simpl; by rewrite <- !app_assoc|].
        split; [by repeat constructor|]. split; [by constructor|]. simpl.
        split; [lia|]. split; [lia|]. split; [lia|].
        intros Hr. specialize (Hret Hr). lia.
      * intros [= <- <-].
        exists [CallIterateFolderChildren uid], [CallCreateFolder uid p].
        split; [rewrite Hc; simpl; by rewrite <- !app_assoc|].
        split; [by repeat constructor|]. split; [by repeat constructor|]. simpl.
        split; [lia|]. split; [lia|]. split; [lia|done].
Qed.

End EnsurePath.

(** [ensureRemotePath] searches, then creates, and never searches again.
    The calls it adds are listings followed by folder creations, no listing
    after the first creation; for a path of [d] components there are at
    most [d] listings, at most [d] creations and at most [d + 1] calls in
    all, and at least [d] when it returns the folder. *)
Theorem ensureRemotePath_lists_then_creates :
  ∀ (Drive : Type) (client : @ProtonDriveClient Drive)
    (rootFolderUid : string) (pathParts : list string) (w w' : @Remote Drive)
    (res : Result string),
    ensureRemotePath client rootFolderUid pathParts w = (res, w') →
    ∃ listings creations,
      calls w' = calls w ++ listings ++ creations
      ∧ Forall isListing listings
      ∧ Forall isFolderCreation creations
      ∧ (length listings ≤ length pathParts)%nat
      ∧ (length creations ≤ length pathParts)%nat
      ∧ (length listings + length creations ≤ S (length pathParts))%nat
      ∧ (isReturned res →
         length pathParts ≤ length listings + length creations)%nat.
Proof.
  intros Drive client rootFolderUid pathParts w w' res.
  apply ensureRemotePathFrom_searching.
Qed.

Lemma ensureRemotePath_lists_then_creates_witness :
  ∃ listings creations,
    [CallIterateFolderChildren "root"; CallIterateFolderChildren "w1";
     CallCreateFolder "w1" "x"; CallCreateFolder "x" "y"]
    = calls freshRemote ++ listings ++ creations
    ∧ Forall isListing listings
    ∧ Forall isFolderCreation creations
    ∧ (length listings ≤ length ["w"; "x"; "y"])%nat
    ∧ (length creations ≤ length ["w"; "x"; "y"])%nat
    ∧ (length listings + length creations ≤ S (length ["w"; "x"; "y"]))%nat
    ∧ (isReturned (Returned "y") →
       length ["w"; "x"; "y"] ≤ length listings + length creations)%nat.
Proof.
  apply (ensureRemotePath_lists_then_creates unit smallDriveClient "root"
           ["w"; "x"; "y"] freshRemote
           (mkRemote tt [CallIterateFolderChildren "root";
                         CallIterateFolderChildren "w1";
                         CallCreateFolder "w1" "x"; CallCreateFolder "x" "y"])
           (Returned "y")).
  vm_compute. reflexivity.
Defined.


Section Lookups.

Context {Drive : Type}.
Variable client : @ProtonDriveClient Drive.

Implicit Types w : @Remote Drive.

Lemma truthy_false_iff (o : option string) :
  truthy o = false ↔ o = None ∨ o = Some EmptyString.
Proof.
  destruct o as [s|]; simpl; [|by split; [left|]].
  unfold Js.nonEmpty. case_bool_decide as Hs; simpl.
  - subst s. split; [by right | done].
  - split; [done | by intros [?|[= ->]]].
Qed.

Lemma truthy_true_iff (o : option string) :
  truthy o = true ↔ ∃ s, o = Some s ∧ s ≠ EmptyString.
Proof.
  destruct o as [s|]; simpl; [|by split; [|intros (? & ? & _)]].
  unfold Js.nonEmpty. case_bool_decide as Hs; simpl.
  - split; [done | by intros (? & [= <-] & ?)].
  - split; [by exists s | done].
Qed.

Lemma pickFolder_kept name acc nodes :
  truthy acc = true → foldl (pickFolder name) acc nodes = acc.
Proof.
  revert acc. induction nodes as [|x nodes IH]; intros acc Hacc; [done|].
  simpl. unfold pickFolder at 2. rewrite Hacc. by apply IH.
Qed.

Lemma pickFile_kept name acc nodes :
  truthy acc = true → foldl (pickFile name) acc nodes = acc.
Proof.
  revert acc. induction nodes as [|x nodes IH]; intros acc Hacc; [done|].
  simpl. unfold pickFile at 2. rewrite Hacc. by apply IH.
Qed.

(** What the loop of [findFolderByName] ends with: the uid of a listed
    folder of that name, not empty, or a falsy value when every listed
    folder of that name has the empty uid. *)
Lemma pickFolder_fold name nodes : ∀ acc,
  truthy acc = false →
  (∃ r v, r ∈ nodes ∧ nr_ok r = true ∧ nr_value r = Some v
          ∧ nd_type v = "folder" ∧ nd_name v = name
          ∧ nd_uid v ≠ EmptyString
          ∧ foldl (pickFolder name) acc nodes = Some (nd_uid v))
  ∨ (truthy (foldl (pickFolder name) acc nodes) = false
     ∧ ∀ r v, r ∈ nodes → nr_ok r = true → nr_value r = Some v →
              nd_type v = "folder" → nd_name v = name →
              nd_uid v = EmptyString).
Proof.
  induction nodes as [|x nodes IH]; intros acc Hacc.
  - right. split; [done|]. intros r v Hr. by apply elem_of_nil in Hr.
  - simpl. unfold pickFolder at 2 4. rewrite Hacc.
    destruct (nr_value x) as [v0|] eqn:Hval.
    + destruct (nr_ok x && bool_decide (nd_type v0 = "folder")
                && bool_decide (nd_name v0 = name)) eqn:Hmatch.
      * apply andb_true_iff in Hmatch as [Hmatch Hname].
        apply andb_true_iff in Hmatch as [Hok Htype].
        apply bool_decide_eq_true in Hname, Htype.
        destruct (truthy (Some (nd_uid v0))) eqn:Htr.
        -- left. exists x, v0. rewrite pickFolder_kept by done.
           apply truthy_true_iff in Htr as (s & [= <-] & Hne).
           repeat split; try done. left.
        -- destruct (IH (Some (nd_uid v0)) Htr)
             as [(r & v & Hr & ?) | [Hres Hall]].
           ++ left. exists r, v. split; [by right | done].
           ++ right. split; [done|]. intros r v Hr Hrok Hrv Hrt Hrn.
              apply elem_of_cons in Hr as [->|Hr]; [|by eapply Hall].
              rewrite Hval in Hrv. injection Hrv as <-.
              apply truthy_false_iff in Htr as [?|[= ?]]; done.
      * destruct (IH acc Hacc) as [(r & v & Hr & ?) | [Hres Hall]].
        -- left. exists r, v. split; [by right | done].
        -- right. split; [done|]. intros r v Hr Hrok Hrv Hrt Hrn.
           apply elem_of_cons in Hr as [->|Hr]; [|by eapply Hall].
           rewrite Hval in Hrv. injection Hrv as <-.
           rewrite Hrok, Hrt, Hrn in Hmatch. simpl in Hmatch.
           by rewrite !bool_decide_eq_true_2 in Hmatch.
    + destruct (IH acc Hacc) as [(r & v & Hr & ?) | [Hres Hall]].
      * left. exists r, v. split; [by right | done].
      * right. split; [done|]. intros r v Hr Hrok Hrv Hrt Hrn.
        apply elem_of_cons in Hr as [->|Hr]; [congruence | by eapply Hall].
Qed.

(** The same for the loop of [findFileByName]. *)
Lemma pickFile_fold name nodes : ∀ acc,
  truthy acc = false →
  (∃ r v, r ∈ nodes ∧ nr_ok r = true ∧ nr_value r = Some v
          ∧ nd_type v = "file" ∧ nd_name v = name
          ∧ nd_uid v ≠ EmptyString
          ∧ foldl (pickFile name) acc nodes = Some (nd_uid v))
  ∨ (truthy (foldl (pickFile name) acc nodes) = false
     ∧ ∀ r v, r ∈ nodes → nr_ok r = true → nr_value r = Some v →
              nd_type v = "file" → nd_name v = name →
              nd_uid v = EmptyString).
Proof.
  induction nodes as [|x nodes IH]; intros acc Hacc.
  - right. split; [done|]. intros r v Hr. by apply elem_of_nil in Hr.
  - simpl. unfold pickFile at 2 4. rewrite Hacc.
    destruct (nr_value x) as [v0|] eqn:Hval.
    + destruct (nr_ok x && bool_decide (nd_name v0 = name)
                && bool_decide (nd_type v0 = "file")) eqn:Hmatch.
      * apply andb_true_iff in Hmatch as [Hmatch Htype].
        apply andb_true_iff in Hmatch as [Hok Hname].
        apply bool_decide_eq_true in Hname, Htype.
        destruct (truthy (Some (nd_uid v0))) eqn:Htr.
        -- left. exists x, v0. rewrite pickFile_kept by done.
           apply truthy_true_iff in Htr as (s & [= <-] & Hne).
           repeat split; try done. left.
        -- destruct (IH (Some (nd_uid v0)) Htr)
             as [(r & v & Hr & ?) | [Hres Hall]].
           ++ left. exists r, v. split; [by right | done].
           ++ right. split; [done|]. intros r v Hr Hrok Hrv Hrt Hrn.
              apply elem_of_cons in Hr as [->|Hr]; [|by eapply Hall].
              rewrite Hval in Hrv. injection Hrv as <-.
              apply truthy_false_iff in Htr as [?|[= ?]]; done.
      * destruct (IH acc Hacc) as [(r & v & Hr & ?) | [Hres Hall]].
        -- left. exists r, v. split; [by right | done].
        -- right. split; [done|]. intros r v Hr Hrok Hrv Hrt Hrn.
           apply elem_of_cons in Hr as [->|Hr]; [|by eapply Hall].
           rewrite Hval in Hrv. injection Hrv as <-.
           rewrite Hrok, Hrt, Hrn in Hmatch. simpl in Hmatch.
           by rewrite !bool_decide_eq_true_2 in Hmatch.
    + destruct (IH acc Hacc) as [(r & v & Hr & ?) | [Hres Hall]].
      * left. exists r, v. split; [by right | done].
      * right. split; [done|]. intros r v Hr Hrok Hrv Hrt Hrn.
        apply elem_of_cons in Hr as [->|Hr]; [congruence | by eapply Hall].
Qed.

End Lookups.




Section NoDuplicates.

Context {Drive : Type}.
Variable client : @ProtonDriveClient Drive.

Implicit Types w : @Remote Drive.

Lemma findFileByName_run parent name w :
  findFileByName client parent name w
  = (match iterateFolderChildren client parent (drive w) with
     | Returned nodes => Returned (foldl (pickFile name) None nodes)
     | Thrown e => Thrown e
     end,
     journal (CallIterateFolderChildren parent) w).
Proof.
  unfold findFileByName, mbind, M_bind, children, query.
  by destruct (iterateFolderChildren client parent (drive w)).
Qed.

Lemma uploadFile_calls target localFilePath fileName st w res w' :
  uploadFile client target localFilePath fileName st w = (res, w') →
  let meta := mkMeta "application/octet-stream" (st_size st) (st_mtime st) in
  (∃ node, fileNamed client (drive w) target fileName node
           ∧ calls w' = calls w ++ [CallIterateFolderChildren target;
                                    CallGetFileRevisionUploader (nd_uid node) meta])
  ∨ ((∃ nodes, listed client (drive w) target nodes)
     ∧ (∀ node, ¬ fileNamed client (drive w) target fileName node)
     ∧ calls w' = calls w ++ [CallIterateFolderChildren target;
                              CallGetFileUploader target fileName meta])
  ∨ (∃ e, iterateFolderChildren client target (drive w) = Thrown e
          ∧ res = Thrown e
          ∧ w' = journal (CallIterateFolderChildren target) w).
Proof.
  unfold uploadFile, mbind, M_bind. rewrite findFileByName_run.
  destruct (iterateFolderChildren client target (drive w)) as [nodes|e]
    eqn:Hlist.
  - unfold attempt, journal. simpl.
    destruct (pickFile_fold fileName nodes None eq_refl)
      as [(r & v & Hr & Hok & Hval & Htype & Hname & Hne & Hfold)
         | [Hfalsy Hall]].
    + rewrite Hfold. simpl.
      assert (Htr : Js.nonEmpty (nd_uid v) = true).
      { unfold Js.nonEmpty. by rewrite bool_decide_eq_false_2. }
      rewrite Htr. simpl.
      destruct (getFileRevisionUploader client (nd_uid v)
                  (mkMeta "application/octet-stream" (st_size st) (st_mtime st))
                  (drive w)) as [r0 d'].
      intros [= <- <-]. left. exists v. split.
      * split; [|done]. by exists nodes, r.
      * simpl. by rewrite <- app_assoc.
    + rewrite Hfalsy. simpl.
      destruct (getFileUploader client target fileName
                  (mkMeta "application/octet-stream" (st_size st) (st_mtime st))
                  (drive w)) as [r0 d'].
      intros [= <- <-]. right. left. split; [by exists nodes|]. split.
      * intros node [(nodes' & r & Hnodes & Hr & Hok & Hval & Hname) [Htype Hne]].
        unfold listed in Hnodes. rewrite Hlist in Hnodes.
        injection Hnodes as <-. apply Hne. by eapply Hall.
      * simpl. by rewrite <- app_assoc.
  - intros [= <- <-]. right. right. by exists e.
Qed.

(** Along folders that are there, [ensureRemotePath] only lists, and ends
    in a folder the path leads to. *)
Lemma ensureRemotePathFrom_existing parts : ∀ uid w rest,
  foldersAlong client (drive w) uid (parts ++ rest) →
  ∃ u w' listings,
    ensureRemotePathFrom client uid false parts w = (Returned u, w')
    ∧ drive w' = drive w
    ∧ calls w' = calls w ++ listings
    ∧ Forall isListing listings
    ∧ length listings = length parts
    ∧ folderChain client (drive w) uid parts u
    ∧ foldersAlong client (drive w) u rest.
Proof.
  induction parts as [|p ps IH]; intros uid w rest Halong.
  - exists uid, w, []. rewrite app_nil_r. by repeat split.
  - simpl in Halong. destruct Halong as [(node & Hnode) Hnext].
    simpl. unfold mbind, M_bind. rewrite findFolderByName_run.
    destruct Hnode as [(nodes & r0 & Hnodes & Hr0 & Hok0 & Hval0 & Hname0)
                         [Htype0 Hne0]].
    unfold listed in Hnodes. rewrite Hnodes.
    destruct (pickFolder_fold p nodes None eq_refl)
      as [(r & v & Hr & Hok & Hval & Htype & Hname & Hne & Hfold) | [_ Hall]].
    + rewrite Hfold. simpl.
      assert (Htr : Js.nonEmpty (nd_uid v) = true).
      { unfold Js.nonEmpty. by rewrite bool_decide_eq_false_2. }
      rewrite Htr.
      assert (Hchild : childNamed client (drive w) uid p v).
      { by exists nodes, r. }
      assert (Hv : folderNamed client (drive w) uid p v) by done.
      destruct (IH (nd_uid v) (journal (CallIterateFolderChildren uid) w) rest)
        as (u & w' & ls & Hrun & Hdrive & Hcalls & Hl & Hlen & Hchain & Hrest).
      { by apply Hnext. }
      exists u, w', (CallIterateFolderChildren uid :: ls).
      split; [done|]. split; [done|].
      split; [rewrite Hcalls; simpl; by rewrite <- app_assoc|].
      split; [by constructor|]. split; [simpl; lia|].
      split; [by exists v | done].
    + exfalso. apply Hne0. by eapply Hall.
Qed.

Lemma createDirectory_existing target name w :
  (∃ node, folderNamed client (drive w) target name node) →
  ∃ node,
    folderNamed client (drive w) target name node
    ∧ createDirectory client target name w
      = (Returned (nd_uid node), journal (CallIterateFolderChildren target) w).
Proof.
  intros (node & [(nodes & r0 & Hnodes & Hr0 & Hok0 & Hval0 & Hname0)
                    [Htype0 Hne0]]).
  unfold createDirectory, mbind, M_bind. rewrite findFolderByName_run.
  unfold listed in Hnodes. rewrite Hnodes.
  destruct (pickFolder_fold name nodes None eq_refl)
    as [(r & v & Hr & Hok & Hval & Htype & Hname & Hne & Hfold) | [_ Hall]].
  - rewrite Hfold. simpl.
    assert (Htr : Js.nonEmpty (nd_uid v) = true).
    { unfold Js.nonEmpty. by rewrite bool_decide_eq_false_2. }
    rewrite Htr. exists v. split; [|done]. split; [by exists nodes, r | done].
  - exfalso. apply Hne0. by eapply Hall.
Qed.

Lemma create_existing_directory statSync localPath w rootUid :
  match statSync localPath with
  | Some st => st_isDirectory st = true
  | None => Js.endsWithSlash localPath = true
  end →
  rootFolderIs client (drive w) rootUid →
  foldersAlong client (drive w) rootUid
    ((parsePath localPath).1 ++ [(parsePath localPath).2]) →
  ∃ parent node w' listings,
    create client statSync localPath w
    = (Returned (mkCreate true (Some (nd_uid node)) None true), w')
    ∧ folderChain client (drive w) rootUid (parsePath localPath).1 parent
    ∧ folderNamed client (drive w) parent (parsePath localPath).2 node
    ∧ nd_type node = "folder" ∧ nd_name node = (parsePath localPath).2
    ∧ drive w' = drive w
    ∧ calls w' = calls w ++ CallGetMyFilesRootFolder :: listings
    ∧ Forall isListing listings
    ∧ length listings = S (length (parsePath localPath).1).
Proof.
  intros Hdir (root & Hroot & Hok & Hval) Halong. unfold create.
  assert (Hisdir : match statSync localPath with
                   | Some st => Some (st_isDirectory st)
                   | None => if Js.endsWithSlash localPath then Some true
                             else None
                   end = Some true).
  { destruct (statSync localPath); by rewrite Hdir. }
  rewrite Hisdir. clear Hisdir Hdir.
  destruct (parsePath localPath) as [parts name]. simpl in Halong |- *.
  unfold mbind at 1, M_bind at 1, rootFolder, query. rewrite Hroot, Hok. simpl.
  unfold mbind at 1, M_bind at 1, bangUid. rewrite Hval. simpl.
  set (w0 := journal CallGetMyFilesRootFolder w).
  assert (Hfinish : ∀ target w1 ls,
             drive w1 = drive w → calls w1 = calls w0 ++ ls →
             Forall isListing ls → length ls = length parts →
             folderChain client (drive w) rootUid parts target →
             foldersAlong client (drive w) target [name] →
             ∃ parent node w' listings,
               tryCatch
                 (nodeUid ← createDirectory client target name;
                  mret (mkCreate true (Some nodeUid) None true))
                 (λ message, mret (mkCreate false None (Some message) true)) w1
               = (Returned (mkCreate true (Some (nd_uid node)) None true), w')
               ∧ folderChain client (drive w) rootUid parts parent
               ∧ folderNamed client (drive w) parent name node
               ∧ nd_type node = "folder" ∧ nd_name node = name
               ∧ drive w' = drive w
               ∧ calls w' = calls w ++ CallGetMyFilesRootFolder :: listings
               ∧ Forall isListing listings
               ∧ length listings = S (length parts)).
  { intros target w1 ls Hdrive Hcalls Hls Hlen Hchain [Hex _].
    rewrite <- Hdrive in Hex.
    destruct (createDirectory_existing target name w1 Hex)
      as (node & Hnode & Hrun).
    pose proof Hnode as [(nodes & r & _ & _ & _ & _ & Hname) [Htype _]].
    rewrite Hdrive in Hnode.
    exists target, node, (journal (CallIterateFolderChildren target) w1),
           (ls ++ [CallIterateFolderChildren target]).
    unfold tryCatch, mbind, M_bind. rewrite Hrun. simpl.
    split; [done|]. split; [done|]. split; [done|]. split; [done|].
    split; [done|]. split; [done|].
    split; [rewrite Hcalls; unfold w0; simpl; by rewrite <- !app_assoc|].
    split; [apply Forall_app; by repeat constructor|].
    rewrite length_app. simpl. lia. }
  case_bool_decide as Hlen.
  - unfold ensureRemotePath.
    destruct (ensureRemotePathFrom_existing parts rootUid w0 [name] Halong)
      as (u & w1 & ls & Hrun & Hdrive & Hcalls & Hls & Hlenls & Hchain & Hrest).
    unfold mbind at 1, M_bind at 1. rewrite Hrun.
    by eapply Hfinish.
  - destruct parts; [|simpl in Hlen; lia].
    unfold mbind at 1, M_bind at 1. simpl.
    apply (Hfinish rootUid w0 []); try done. by rewrite app_nil_r.
Qed.

End NoDuplicates.

(** [uploadFile] makes no second file of a name. After one listing of the
    target folder it either uploads a revision of a file that is listed
    there under that name, or, only when the listing has returned and no
    file of that name with a uid is listed, uploads a new file. When the
    listing throws, [uploadFile] throws the same error and uploads
    nothing. *)
Theorem uploadFile_revision_or_new :
  ∀ (Drive : Type) (client : @ProtonDriveClient Drive)
    (targetFolderUid localFilePath fileName : string) (fileStat : Stats)
    (w w' : @Remote Drive) (res : Result string),
    uploadFile client targetFolderUid localFilePath fileName fileStat w
    = (res, w') →
    let meta :=
      mkMeta "application/octet-stream" (st_size fileStat) (st_mtime fileStat) in
    (∃ node, fileNamed client (drive w) targetFolderUid fileName node
             ∧ calls w' = calls w ++ [CallIterateFolderChildren targetFolderUid;
                                      CallGetFileRevisionUploader (nd_uid node)
                                        meta])
    ∨ ((∃ nodes, listed client (drive w) targetFolderUid nodes)
       ∧ (∀ node, ¬ fileNamed client (drive w) targetFolderUid fileName node)
       ∧ calls w' = calls w ++ [CallIterateFolderChildren targetFolderUid;
                                CallGetFileUploader targetFolderUid fileName
                                  meta])
    ∨ (∃ e, iterateFolderChildren client targetFolderUid (drive w) = Thrown e
            ∧ res = Thrown e
            ∧ w' = journal (CallIterateFolderChildren targetFolderUid) w).
Proof.
  intros Drive client targetFolderUid localFilePath fileName fileStat w w' res.
  apply uploadFile_calls.
Qed.

Lemma uploadFile_revision_or_new_witness :
  (∃ node, fileNamed smallDriveClient (drive freshRemote) "w1" "a.txt" node
           ∧ [CallIterateFolderChildren "w1";
              CallGetFileRevisionUploader "f1"
                (mkMeta "application/octet-stream" 5 0)]
             = calls freshRemote ++ [CallIterateFolderChildren "w1";
                                     CallGetFileRevisionUploader (nd_uid node)
                                       (mkMeta "application/octet-stream" 5 0)])
  ∨ ((∃ nodes, listed smallDriveClient (drive freshRemote) "w1" nodes)
     ∧ (∀ node, ¬ fileNamed smallDriveClient (drive freshRemote) "w1" "a.txt" node)
     ∧ [CallIterateFolderChildren "w1";
        CallGetFileRevisionUploader "f1" (mkMeta "application/octet-stream" 5 0)]
       = calls freshRemote ++ [CallIterateFolderChildren "w1";
                               CallGetFileUploader "w1" "a.txt"
                                 (mkMeta "application/octet-stream" 5 0)])
  ∨ (∃ e, iterateFolderChildren smallDriveClient "w1" (drive freshRemote)
          = Thrown e
          ∧ Returned "f1" = Thrown e
          ∧ mkRemote tt [CallIterateFolderChildren "w1";
                         CallGetFileRevisionUploader "f1"
                           (mkMeta "application/octet-stream" 5 0)]
            = journal (CallIterateFolderChildren "w1") freshRemote).
Proof.
  apply (uploadFile_revision_or_new unit smallDriveClient "w1" "/l/a.txt" "a.txt"
           (mkStats false 5 0) freshRemote
           (mkRemote tt [CallIterateFolderChildren "w1";
                         CallGetFileRevisionUploader "f1"
                           (mkMeta "application/octet-stream" 5 0)])
           (Returned "f1")).
  vm_compute. reflexivity.
Defined.

(** Creating a directory that is there creates nothing. When the local
    path is a directory (or does not exist and ends with a slash), the root
    folder is available and the remote tree has a folder for every
    component of the path, [create] answers success with the uid of a
    folder that is listed under the name of the directory, with a uid that
    is not empty, in a folder the parent components of the path lead to;
    it leaves the drive as it was, and makes the root lookup and one
    listing per component: no [createFolder] call. *)
Theorem create_existing_directory_creates_nothing :
  ∀ (Drive : Type) (client : @ProtonDriveClient Drive)
    (statSync : string → option Stats) (localPath : string)
    (w : @Remote Drive) (rootUid : string),
    match statSync localPath with
    | Some st => st_isDirectory st = true
    | None => Js.endsWithSlash localPath = true
    end →
    rootFolderIs client (drive w) rootUid →
    foldersAlong client (drive w) rootUid
      ((parsePath localPath).1 ++ [(parsePath localPath).2]) →
    ∃ parent node w' listings,
      create client statSync localPath w
      = (Returned (mkCreate true (Some (nd_uid node)) None true), w')
      ∧ folderChain client (drive w) rootUid (parsePath localPath).1 parent
      ∧ folderNamed client (drive w) parent (parsePath localPath).2 node
      ∧ nd_type node = "folder" ∧ nd_name node = (parsePath localPath).2
      ∧ drive w' = drive w
      ∧ calls w' = calls w ++ CallGetMyFilesRootFolder :: listings
      ∧ Forall isListing listings
      ∧ length listings = S (length (parsePath localPath).1).
Proof. intros Drive client. apply create_existing_directory. Qed.

Lemma create_existing_directory_creates_nothing_witness :
  ∃ parent node w' listings,
    create smallDriveClient noLocalFiles "w/" freshRemote
    = (Returned (mkCreate true (Some (nd_uid node)) None true), w')
    ∧ folderChain smallDriveClient (drive freshRemote) "root"
        (parsePath "w/").1 parent
    ∧ folderNamed smallDriveClient (drive freshRemote) parent
        (parsePath "w/").2 node
    ∧ nd_type node = "folder" ∧ nd_name node = (parsePath "w/").2
    ∧ drive w' = drive freshRemote
    ∧ calls w' = calls freshRemote ++ CallGetMyFilesRootFolder :: listings
    ∧ Forall isListing listings
    ∧ length listings = S (length (parsePath "w/").1).
Proof.
  apply (create_existing_directory_creates_nothing unit smallDriveClient
           noLocalFiles "w/" freshRemote "root").
  - reflexivity.
  - by exists (mkUidResult true (Some "root") EmptyString).
  - assert (Hparse : parsePath "w/" = ([], "w")) by (vm_compute; reflexivity).
    rewrite Hparse. simpl. split; [|done].
    exists (mkNode "w" "w1" "folder"). split; [|split; [done | discriminate]].
    exists [mkNodeResult true (Some (mkNode "w" "w1" "folder"))],
           (mkNodeResult true (Some (mkNode "w" "w1" "folder"))).
    split; [reflexivity|]. split; [left | done].
Defined.

(* ====================================================================== *)
(** ** The change buffer *)
(* ====================================================================== *)

Section Buffer.

Context {V : Type}.

Implicit Types (m : list (string * V)) (k : string) (v : V).

Lemma mapSet_keys k v m :
  ∀ k', k' ∈ (mapSet k v m).*1 ↔ k' = k ∨ k' ∈ m.*1.
Proof.
  induction m as [|[k0 v0] m IH]; intros k'; simpl.
  - rewrite list_elem_of_singleton, elem_of_nil. tauto.
  - destruct (decide (k0 = k)) as [->|Hne]; simpl.
    + rewrite !elem_of_cons. tauto.
    + rewrite !elem_of_cons, IH. tauto.
Qed.

Lemma mapSet_NoDup k v m : NoDup m.*1 → NoDup (mapSet k v m).*1.
Proof.
  induction m as [|[k0 v0] m IH]; simpl; intros Hnd.
  - apply NoDup_singleton.
  - apply NoDup_cons in Hnd as [Hnot Hnd].
    destruct (decide (k0 = k)) as [->|Hne]; simpl.
    + by apply NoDup_cons.
    + apply NoDup_cons. split; [|by apply IH].
      rewrite mapSet_keys. intros [?|?]; done.
Qed.

Lemma mapSet_new k v m : (k, v) ∈ mapSet k v m.
Proof.
  induction m as [|[k0 v0] m IH]; simpl; [left|].
  destruct (decide (k0 = k)); [left | by right].
Qed.

Lemma mapSet_entries k v m k' v' :
  NoDup m.*1 →
  (k', v') ∈ mapSet k v m ↔ (k' = k ∧ v' = v) ∨ (k' ≠ k ∧ (k', v') ∈ m).
Proof.
  induction m as [|[k0 v0] m IH]; simpl; intros Hnd.
  - rewrite list_elem_of_singleton, elem_of_nil. split.
    + intros [= -> ->]. by left.
    + intros [[-> ->]|[_ []]]. done.
  - apply NoDup_cons in Hnd as [Hnot Hnd].
    destruct (decide (k0 = k)) as [->|Hne].
    + rewrite !elem_of_cons. split.
      * intros [[= -> ->]|Hin]; [by left|]. right. split; [|by right].
        intros ->. apply Hnot. by apply (list_elem_of_fmap_2 fst) in Hin.
      * intros [[-> ->]|[Hk [[= ? ?]|Hin]]]; [by left | done | by right].
    + rewrite !elem_of_cons, (IH Hnd). split.
      * intros [[= -> ->]|[[-> ->]|[Hk Hin]]].
        -- right. split; [done | by left].
        -- by left.
        -- right. split; [done | by right].
      * intros [[-> ->]|[Hk [[= -> ->]|Hin]]].
        -- right. by left.
        -- by left.
        -- right. right. done.
Qed.

End Buffer.

Section Debounce.

Context {Drive : Type}.

(** The loop of [queueChange] calls over the files of one batch. *)
Lemma queue_batch watchDir files : ∀ st : SyncState Drive,
  NoDup (pendingChanges st).*1 →
  let st' := foldl (λ acc file, queueChange (mkChange file watchDir None) acc)
                   st files in
  sys st' = sys st
  ∧ NoDup (pendingChanges st').*1
  ∧ (∀ k, k ∈ (pendingChanges st').*1
          ↔ k ∈ (pendingChanges st).*1 ∨ k ∈ (wf_name <$> files))
  ∧ (∀ k c, (k, c) ∈ pendingChanges st' →
            ((k, c) ∈ pendingChanges st ∧ k ∉ (wf_name <$> files))
            ∨ ∃ l1 f l2, files = l1 ++ f :: l2 ∧ (wf_name f ∉ (wf_name <$> l2))
                         ∧ k = wf_name f ∧ c = mkChange f watchDir None)
  ∧ (∀ l1 f l2, files = l1 ++ f :: l2 → wf_name f ∉ (wf_name <$> l2) →
                (wf_name f, mkChange f watchDir None) ∈ pendingChanges st').
Proof.
  induction files as [|f files IH]; intros st Hnd; simpl.
  - split; [done|]. split; [done|]. split; [|split].
    + intros k. rewrite elem_of_nil. tauto.
    + intros k c Hin. left. split; [done|]. apply not_elem_of_nil.
    + intros l1 f l2 Heq. by destruct l1.
  - set (st1 := queueChange (mkChange f watchDir None) st).
    assert (Hnd1 : NoDup (pendingChanges st1).*1) by (by apply mapSet_NoDup).
    destruct (IH st1 Hnd1) as (Hsys & Hnd' & Hkeys & Hentries & Hlatest).
    split; [done|]. split; [done|]. split; [|split].
    + intros k. rewrite Hkeys. unfold st1. simpl.
      rewrite mapSet_keys, elem_of_cons. tauto.
    + intros k c Hin. apply Hentries in Hin
        as [[Hin Hnot] | (l1 & g & l2 & -> & Hlast & -> & ->)].
      * unfold st1 in Hin. simpl in Hin.
        apply (mapSet_entries _ _ _ _ _ Hnd) in Hin as [[-> ->]|[Hk Hin]].
        -- right. exists [], f, files. done.
        -- left. split; [done|]. rewrite ?fmap_cons, not_elem_of_cons. done.
      * right. exists (f :: l1), g, l2. done.
    + intros l1 g l2 Heq Hlast. destruct l1 as [|f' l1].
      * simpl in Heq. injection Heq as <- <-.
        assert (Hin : (wf_name f, mkChange f watchDir None) ∈ pendingChanges st1)
          by apply mapSet_new.
        assert (Hkeep : ∀ fs (s0 : SyncState Drive),
                   wf_name f ∉ (wf_name <$> fs) →
                   (wf_name f, mkChange f watchDir None) ∈ pendingChanges s0 →
                   NoDup (pendingChanges s0).*1 →
                   (wf_name f, mkChange f watchDir None)
                   ∈ pendingChanges
                       (foldl (λ acc file,
                                 queueChange (mkChange file watchDir None) acc)
                              s0 fs)).
        { induction fs as [|x fs IHfs]; intros s0 Hnot Hin0 Hnd0; [done|].
          simpl. rewrite ?fmap_cons, not_elem_of_cons in Hnot.
          destruct Hnot as [Hx Hnot]. apply IHfs; [done| |by apply mapSet_NoDup].
          simpl. apply (mapSet_entries _ _ _ _ _ Hnd0). right. done. }
        by apply Hkeep.
      * simpl in Heq. injection Heq as <- ->. by eapply Hlatest.
Qed.

End Debounce.

(** The buffer keeps the latest change of a path. After the answer of
    Watchman for a directory is handled, the buffer still has one entry
    per name; its names are the ones it had and the names of the batch; the
    entry of a name of the batch is the last record of that name in the
    batch, filed under this watch root (an entry that another root had
    under the same relative name is replaced); the other entries are as
    they were. *)
Theorem buffer_keeps_latest_change :
  ∀ (Drive : Type) (dryRun : bool) (watchDir : string)
    (resp : WatchmanQueryResponse) (st : SyncState Drive),
    NoDup (pendingChanges st).*1 →
    let st' := handleResponse dryRun watchDir resp st in
    NoDup (pendingChanges st').*1
    ∧ (∀ k, k ∈ (pendingChanges st').*1
            ↔ k ∈ (pendingChanges st).*1 ∨ k ∈ (wf_name <$> resp_files resp))
    ∧ (∀ k c, (k, c) ∈ pendingChanges st' →
              ((k, c) ∈ pendingChanges st ∧ k ∉ (wf_name <$> resp_files resp))
              ∨ ∃ l1 f l2, resp_files resp = l1 ++ f :: l2
                           ∧ (wf_name f ∉ (wf_name <$> l2))
                           ∧ k = wf_name f ∧ c = mkChange f watchDir None)
    ∧ (∀ l1 f l2, resp_files resp = l1 ++ f :: l2 →
                  wf_name f ∉ (wf_name <$> l2) →
                  (wf_name f, mkChange f watchDir None) ∈ pendingChanges st').
Proof.
  intros Drive dryRun watchDir resp st Hnd st'. subst st'.
  unfold handleResponse.
  set (st1 := if Js.nonEmpty (resp_clock resp) then _ else st).
  assert (Hsame : pendingChanges st1 = pendingChanges st).
  { unfold st1. by destruct (Js.nonEmpty (resp_clock resp)). }
  rewrite <- Hsame in Hnd.
  destruct (queue_batch watchDir (resp_files resp) st1 Hnd)
    as (_ & Hnd' & Hkeys & Hentries & Hlatest).
  rewrite Hsame in Hkeys, Hentries. done.
Qed.

Lemma buffer_keeps_latest_change_witness :
  NoDup (pendingChanges
           (handleResponse false "/w" (movedBatch "/w" None) freshSync)).*1.
Proof.
  exact (proj1 (buffer_keeps_latest_change unit false "/w" (movedBatch "/w" None)
                  freshSync (NoDup_nil_2 : NoDup (pendingChanges freshSync).*1))).
Defined.

(* ====================================================================== *)
(** ** The clocks and the dry run of the one-shot run *)
(* ====================================================================== *)

Section OneShot.

Context {Drive : Type}.

Lemma handleResponse_db dryRun watchDir resp (st : SyncState Drive) :
  db (sys (handleResponse dryRun watchDir resp st))
  = if Js.nonEmpty (resp_clock resp)
    then setClock watchDir (resp_clock resp) dryRun (db (sys st))
    else db (sys st).
Proof.
  unfold handleResponse.
  set (st1 := if Js.nonEmpty (resp_clock resp) then _ else st).
  assert (Hsys : ∀ files (s0 : SyncState Drive),
             sys (foldl (λ acc file,
                           queueChange (mkChange file watchDir None) acc)
                        s0 files) = sys s0).
  { induction files as [|f fs IH]; intros s0; [done|]. simpl. by rewrite IH. }
  rewrite Hsys. unfold st1. by destruct (Js.nonEmpty (resp_clock resp)).
Qed.

Lemma queryAll_cons dryRun watchman dir dirs (st : SyncState Drive) :
  queryAll dryRun watchman (dir :: dirs) st
  = queryAll dryRun watchman dirs (queryAll dryRun watchman [dir] st).
Proof. reflexivity. Qed.

Lemma queryStep_clock dryRun watchman (st : SyncState Drive) dir dir' :
  getClock dir' (db (sys (queryAll dryRun watchman [dir] st)))
  = let resp := watchman dir (sinceOf (getClock dir (db (sys st)))) in
    if decide (dir' = dir)
    then (if Js.nonEmpty (resp_clock resp) && negb dryRun
          then Some (resp_clock resp) else getClock dir (db (sys st)))
    else getClock dir' (db (sys st)).
Proof.
  unfold queryAll. simpl. rewrite handleResponse_db. simpl.
  destruct (Js.nonEmpty (resp_clock _)); simpl.
  - unfold setClock, getClock. destruct dryRun; simpl.
    + by destruct (decide (dir' = dir)) as [->|].
    + destruct (decide (dir' = dir)) as [->|Hne].
      * by rewrite lookup_insert_eq.
      * by rewrite lookup_insert_ne.
  - by destruct (decide (dir' = dir)) as [->|].
Qed.

Lemma queryAll_clock_other dryRun watchman dirs : ∀ (st : SyncState Drive) dir,
  dir ∉ dirs →
  getClock dir (db (sys (queryAll dryRun watchman dirs st)))
  = getClock dir (db (sys st)).
Proof.
  induction dirs as [|d ds IH]; intros st dir Hnot; [done|].
  apply not_elem_of_cons in Hnot as [Hne Hnot].
  rewrite queryAll_cons, IH by done. rewrite queryStep_clock. cbv zeta.
  by destruct (decide (dir = d)).
Qed.

Lemma queryAll_clock watchman dirs : ∀ (st : SyncState Drive) dir,
  NoDup dirs → dir ∈ dirs →
  getClock dir (db (sys (queryAll false watchman dirs st)))
  = let resp := watchman dir (sinceOf (getClock dir (db (sys st)))) in
    if Js.nonEmpty (resp_clock resp) then Some (resp_clock resp)
    else getClock dir (db (sys st)).
Proof.
  induction dirs as [|d ds IH]; intros st dir Hnd Hin.
  - by apply elem_of_nil in Hin.
  - apply NoDup_cons in Hnd as [Hd Hnd]. rewrite queryAll_cons.
    apply elem_of_cons in Hin as [->|Hin].
    + rewrite queryAll_clock_other by done. rewrite queryStep_clock. cbv zeta.
      destruct (decide (d = d)); [|done].
      by destruct (Js.nonEmpty (resp_clock _)).
    + rewrite IH by done. cbv zeta.
      assert (Hne : dir ≠ d) by (by intros ->).
      rewrite !queryStep_clock. cbv zeta.
      by destruct (decide (dir = d)).
Qed.

Lemma queryAll_dry watchman dirs : ∀ st : SyncState Drive,
  db (sys (queryAll true watchman dirs st)) = db (sys st).
Proof.
  induction dirs as [|d ds IH]; intros st; [done|].
  rewrite queryAll_cons, IH. unfold queryAll. simpl.
  rewrite handleResponse_db. simpl. by destruct (Js.nonEmpty _).
Qed.

Lemma enqueueChanges_dry remoteRoot now changes : ∀ s : Sys Drive,
  db (enqueueChanges true remoteRoot now changes s) = db s
  ∧ remote (enqueueChanges true remoteRoot now changes s) = remote s.
Proof.
  induction changes as [|[path change] rest IH]; intros s; [done|].
  unfold enqueueChanges in *. cbn [foldl].
  destruct (IH (enqueueChange true remoteRoot now s (path, change)))
    as [Hdb Hrem].
  rewrite Hdb, Hrem. done.
Qed.

Lemma processAllPendingJobs_dry_db client createNode ticks :
  ∀ (s s' : Sys Drive) n,
    processAllPendingJobs client createNode true ticks s = Some (n, s') →
    db s' = db s.
Proof.
  induction ticks as [|tk rest IH]; intros s s' n; [done|]. simpl.
  pose proof (processNextJob_dry client createNode tk s) as (Hdb & _ & _).
  destruct (processNextJob client createNode true tk s) as [[] s1].
  - destruct (processAllPendingJobs client createNode true rest s1)
      as [[count s2]|] eqn:Hrest; [|done].
    intros [= <- <-]. apply IH in Hrest. simpl in Hdb. congruence.
  - by intros [= <- <-].
Qed.

End OneShot.

Section RunClocks.

Context {Drive : Type}.
Variable dryRun : bool.
Variable remoteRoot : string.
Variable protonClient : option (@ProtonDriveClient Drive).
Variable createNode : string → string → @M Drive CreateResult.

Lemma enqueueChanges_clocks now changes : ∀ s : Sys Drive,
  clocks (db (enqueueChanges dryRun remoteRoot now changes s)) = clocks (db s).
Proof.
  induction changes as [|[path change] rest IH]; intros s; [done|].
  unfold enqueueChanges in *. cbn [foldl]. rewrite IH.
  unfold enqueueChange, enqueueJob. simpl. by destruct dryRun.
Qed.

Lemma processChanges_clocks now ticks (st st' : SyncState Drive) :
  processChanges dryRun remoteRoot protonClient createNode now ticks st
  = Some st' →
  clocks (db (sys st')) = clocks (db (sys st)).
Proof.
  unfold processChanges. destruct protonClient as [client|]; [|by intros [= <-]].
  destruct (isProcessing st); [by intros [= <-]|].
  destruct (processAllPendingJobs client createNode dryRun ticks _)
    as [[processed s2]|] eqn:Hrun; [|done].
  apply processAllPendingJobs_keeps in Hrun as (_ & _ & Hclocks).
  rewrite enqueueChanges_clocks in Hclocks.
  intros [= <-]. simpl. by destruct (bool_decide (0 < processed)%nat).
Qed.

Lemma runOneShotSync_clocks watchman dirs now ticks (st st' : SyncState Drive) :
  runOneShotSync dryRun remoteRoot protonClient createNode watchman dirs now
                 ticks st = Some st' →
  clocks (db (sys st')) = clocks (db (sys (queryAll dryRun watchman dirs st))).
Proof.
  unfold runOneShotSync.
  destruct (pendingChanges (queryAll dryRun watchman dirs st)).
  - by intros [= <-].
  - apply processChanges_clocks.
Qed.

End RunClocks.

(** After a one-shot run every root has the clock of its answer. When
    [runOneShotSync] returns from a run that is not a dry run over
    directories that are pairwise different, the clock saved for each
    directory is the clock of the answer to its query, the query having
    been made since the clock saved before the run; a directory whose
    answer has an empty clock keeps its old clock, and so does every
    directory that is not in the run. *)
Theorem one_shot_run_saves_each_clock :
  ∀ (Drive : Type) (remoteRoot : string)
    (protonClient : option (@ProtonDriveClient Drive))
    (createNode : string → string → @M Drive CreateResult)
    (watchman : string → option string → WatchmanQueryResponse)
    (dirs : list string) (now : Z) (ticks : list Tick)
    (st st' : SyncState Drive),
    runOneShotSync false remoteRoot protonClient createNode watchman dirs now
                   ticks st = Some st' →
    NoDup dirs →
    (∀ dir, dir ∈ dirs →
       getClock dir (db (sys st'))
       = let resp := watchman dir (sinceOf (getClock dir (db (sys st)))) in
         if Js.nonEmpty (resp_clock resp) then Some (resp_clock resp)
         else getClock dir (db (sys st)))
    ∧ (∀ dir, dir ∉ dirs →
         getClock dir (db (sys st')) = getClock dir (db (sys st))).
Proof.
  intros Drive remoteRoot protonClient createNode watchman dirs now ticks st st'
         Hrun Hnd.
  apply runOneShotSync_clocks in Hrun. unfold getClock. rewrite Hrun.
  split.
  - intros dir Hin. by apply (queryAll_clock watchman dirs st dir).
  - intros dir Hnot. by apply (queryAll_clock_other false watchman dirs st dir).
Qed.

Lemma one_shot_run_saves_each_clock_witness :
  match movedRun with
  | Some st' => getClock "/w" (db (sys st')) = Some "c:1"
  | None => False
  end.
Proof.
  destruct movedRun as [st'|] eqn:Hrun; [|by vm_compute in Hrun].
  assert (Hnd : NoDup ["/w"]) by (apply NoDup_singleton).
  destruct (one_shot_run_saves_each_clock unit EmptyString
              (Some emptyDriveClient) createNodeOk movedBatch ["/w"] 0
              threeTicks freshSync st' Hrun Hnd) as [Hin _].
  apply (Hin "/w"). left.
Defined.

(** A dry run of the one-shot run writes nothing. When [runOneShotSync]
    returns from a dry run, the database (the jobs, the sequence and the
    clocks) is exactly what it was before. *)
Theorem dry_one_shot_run_keeps_database :
  ∀ (Drive : Type) (remoteRoot : string)
    (protonClient : option (@ProtonDriveClient Drive))
    (createNode : string → string → @M Drive CreateResult)
    (watchman : string → option string → WatchmanQueryResponse)
    (dirs : list string) (now : Z) (ticks : list Tick)
    (st st' : SyncState Drive),
    runOneShotSync true remoteRoot protonClient createNode watchman dirs now
                   ticks st = Some st' →
    db (sys st') = db (sys st).
Proof.
  intros Drive remoteRoot protonClient createNode watchman dirs now ticks st st'.
  unfold runOneShotSync.
  pose proof (queryAll_dry watchman dirs st) as Hq.
  destruct (pendingChanges (queryAll true watchman dirs st)).
  - by intros [= <-].
  - unfold processChanges.
    destruct protonClient as [client|]; [|by intros [= <-]].
    destruct (isProcessing _); [by intros [= <-]|].
    destruct (processAllPendingJobs client createNode true ticks _)
      as [[processed s2]|] eqn:Hrun; [|done].
    apply processAllPendingJobs_dry_db in Hrun.
    destruct (enqueueChanges_dry remoteRoot now
                (pendingChanges (queryAll true watchman dirs st))
                (sys (queryAll true watchman dirs st))) as [Hdb _].
    intros [= <-]. simpl.
    destruct (bool_decide (0 < processed)%nat); simpl; congruence.
Qed.

Lemma dry_one_shot_run_keeps_database_witness :
  match runOneShotSync true EmptyString (Some emptyDriveClient) createNodeOk
          movedBatch ["/w"] 0 threeTicks freshSync with
  | Some st' => db (sys st') = db (sys freshSync)
  | None => False
  end.
Proof.
  destruct (runOneShotSync true EmptyString (Some emptyDriveClient) createNodeOk
              movedBatch ["/w"] 0 threeTicks freshSync) as [st'|] eqn:Hrun;
    [|by vm_compute in Hrun].
  exact (dry_one_shot_run_keeps_database unit EmptyString
           (Some emptyDriveClient) createNodeOk movedBatch ["/w"] 0 threeTicks
           freshSync st' Hrun).
Defined.


(* ====================================================================== *)
(** ** The flush of the change buffer, from the buffer to the job store *)
(* ====================================================================== *)

Section FlushRows.

Context {Drive : Type}.



End FlushRows.




(* ====================================================================== *)
(** ** Watch mode of the sync command *)
(* ====================================================================== *)

Section WatchModeFacts.

Context {Drive : Type}.
Variable dryRun : bool.
Variable remoteRoot : string.
Variable protonClient : option (@ProtonDriveClient Drive).
Variable createNode : string → string → @M Drive CreateResult.
Variable realpathSync : string → string.

Lemma queueAndSchedule_fold root clock files : ∀ st : DaemonState Drive,
  sys (sync (foldl (λ acc file,
                      queueAndSchedule (mkChange file root clock) acc)
                   st files))
  = sys (sync st).
Proof.
  induction files as [|f fs IH]; intros st; [done|]. simpl. by rewrite IH.
Qed.

Lemma onSubscription_sys syncDirs resp (st : DaemonState Drive) :
  sys (sync (onSubscription realpathSync syncDirs resp st)) = sys (sync st).
Proof.
  unfold onSubscription.
  destruct (negb (Js.startsWith (sub_subscription resp) SUB_NAME)); [done|].
  destruct (negb (Js.nonEmpty _)); [done|].
  apply queueAndSchedule_fold.
Qed.

Lemma daemonStep_clocks syncDirs (st st' : DaemonState Drive) :
  daemonStep dryRun remoteRoot protonClient createNode realpathSync syncDirs
             st st' →
  clocks (db (sys (sync st'))) = clocks (db (sys (sync st))).
Proof.
  intros [resp s0 | now ticks s0 s1 _ Hfire].
  - by rewrite onSubscription_sys.
  - unfold onDebounce in Hfire.
    destruct (processChanges dryRun remoteRoot protonClient createNode now
                ticks (sync s0)) as [sync'|] eqn:Hflush; [|done].
    injection Hfire as <-. simpl.
    by eapply processChanges_clocks.
Qed.

Lemma prefix_append (p t : string) : String.prefix p (p +:+ t) = true.
Proof.
  induction p as [|a p IH]; simpl; [by destruct t|].
  by destruct (Ascii.ascii_dec a a).
Qed.

Lemma sliceFrom_append (p t : string) :
  Js.sliceFrom (String.length p) (p +:+ t) = t.
Proof.
  unfold Js.sliceFrom, Js.chars, Js.str.
  induction p as [|a p IH]; simpl; [apply string_of_list_ascii_of_string|].
  apply IH.
Qed.

Lemma cutFirst_prefix (pat s : string) :
  pat ≠ EmptyString → cutFirst pat (pat +:+ s) = s.
Proof.
  intros Hne. destruct pat as [|c pat]; [done|].
  change (String c pat +:+ s) with (String c (pat +:+ s)).
  cbn [cutFirst].
  change (String c (pat +:+ s)) with (String c pat +:+ s).
  by rewrite prefix_append, sliceFrom_append.
Qed.

Lemma subscriptionName_starts (d : string) :
  Js.startsWith (subscriptionName d) SUB_NAME = true.
Proof. apply prefix_append. Qed.

Lemma subscriptionName_cut (d : string) :
  cutFirst (SUB_NAME +:+ "-") (subscriptionName d) = Js.basename d.
Proof.
  change (cutFirst "proton-drive-sync-"
            ("proton-drive-sync-" +:+ Js.basename d) = Js.basename d).
  by apply cutFirst_prefix.
Qed.

Lemma onSubscription_routes syncDirs dir files clock (st : DaemonState Drive) :
  dir ∈ syncDirs → dir ≠ EmptyString →
  (∀ d', d' ∈ syncDirs →
         Js.basename (realpathSync d') = Js.basename (realpathSync dir) →
         d' = dir) →
  onSubscription realpathSync syncDirs
    (mkNotification (subscriptionName (realpathSync dir)) files clock) st
  = foldl (λ acc file,
             queueAndSchedule (mkChange file (realpathSync dir) clock) acc)
          st files.
Proof.
  intros Hin Hne Honly. unfold onSubscription.
  cbn [sub_subscription sub_files sub_clock].
  rewrite subscriptionName_starts, subscriptionName_cut. cbn [negb]. cbv zeta.
  destruct (List.find _ syncDirs) as [d1|] eqn:Hfind.
  - apply find_some in Hfind as [Hd1 Hb%bool_decide_eq_true].
    apply list_elem_of_In in Hd1. rewrite (Honly d1 Hd1 Hb). cbn [default].
    unfold Js.nonEmpty. by rewrite bool_decide_eq_false_2.
  - exfalso. apply list_elem_of_In in Hin.
    pose proof (find_none _ _ Hfind dir Hin) as Hno. simpl in Hno.
    by rewrite bool_decide_eq_true_2 in Hno.
Qed.

End WatchModeFacts.

(** Watch mode of the sync command never saves a clock. Whatever
    notifications arrive and however often the debounce timer fires and
    flushes the buffer, dry run or not, the clocks table stays as it was:
    the clock a notification attaches to its changes is dropped. *)
Theorem watch_mode_never_saves_clock :
  ∀ (Drive : Type) (dryRun : bool) (remoteRoot : string)
    (protonClient : option (@ProtonDriveClient Drive))
    (createNode : string → string → @M Drive CreateResult)
    (realpathSync : string → string) (syncDirs : list string)
    (st st' : DaemonState Drive),
    rtc (daemonStep dryRun remoteRoot protonClient createNode realpathSync
                    syncDirs) st st' →
    clocks (db (sys (sync st'))) = clocks (db (sys (sync st))).
Proof.
  intros Drive dryRun remoteRoot protonClient createNode realpathSync syncDirs
         st st' Hrun.
  induction Hrun as [s | s s1 s2 Hstep _ IH]; [done|].
  rewrite IH. by eapply daemonStep_clocks.
Qed.

Lemma watch_mode_never_saves_clock_witness :
  clocks (db (sys (sync flushedDaemon))) = clocks (db (sys (sync freshDaemon)))
  ∧ length (syncJobs (db (sys (sync flushedDaemon)))) = 2%nat.
Proof.
  split; [|reflexivity].
  apply (watch_mode_never_saves_clock unit false EmptyString
           (Some emptyDriveClient) createNodeOk (λ d, d) ["/w"]).
  apply (rtc_l _ _ notifiedDaemon).
  - assert (Heq : notifiedDaemon
                  = onSubscription (λ d, d) ["/w"] movedNotification freshDaemon)
      by (vm_compute; reflexivity).
    rewrite Heq. apply StepNotify.
  - apply rtc_once. apply (StepDebounce _ _ _ _ _ _ 0 threeTicks).
    + reflexivity.
    + vm_compute. reflexivity.
Defined.

(** In watch mode a notification finds its directory by the base name.
    When the configured directories have pairwise different base names
    (of their real paths), a notification of the subscription named after a
    configured directory queues every file of the notification, in order,
    as a change of that directory, each with the clock of the
    notification, and arms the debounce timer. *)
Theorem watch_mode_routes_by_basename :
  ∀ (Drive : Type) (realpathSync : string → string) (syncDirs : list string)
    (dir : string) (files : list WatchmanFile) (clock : option string)
    (st : DaemonState Drive),
    dir ∈ syncDirs → dir ≠ EmptyString →
    (∀ d', d' ∈ syncDirs →
           Js.basename (realpathSync d') = Js.basename (realpathSync dir) →
           d' = dir) →
    onSubscription realpathSync syncDirs
      (mkNotification (subscriptionName (realpathSync dir)) files clock) st
    = foldl (λ acc file,
               queueAndSchedule (mkChange file (realpathSync dir) clock) acc)
            st files.
Proof. intros Drive. apply onSubscription_routes. Qed.

Lemma watch_mode_routes_by_basename_witness :
  onSubscription (λ d, d) ["/w"]
    (mkNotification (subscriptionName "/w") movedPair (Some "c:2")) freshDaemon
  = foldl (λ acc file, queueAndSchedule (mkChange file "/w" (Some "c:2")) acc)
          freshDaemon movedPair.
Proof.
  apply (watch_mode_routes_by_basename unit (λ d, d) ["/w"] "/w" movedPair
           (Some "c:2") freshDaemon).
  - left.
  - discriminate.
  - intros d' Hd' _. by apply list_elem_of_singleton in Hd'.
Defined.


(* ====================================================================== *)
(** ** Watch mode of the watcher *)
(* ====================================================================== *)

Section WatchSubscriptionsFacts.

Context {H : Type}.
Variable WATCHMAN_SUB_NAME : string.
Variable settleConfig : string.
Variable realpathSync : string → string.
Variable configPath : string → string.
Variable writeFails : string → bool.
Variable watchProject : string → option WatchProjectResponse.
Variable subscribeFails : string → string → bool.
Variable onFileChangeBatch : list FileChange → Db * H → Db * H.
Variable dryRun : bool.

Lemma watcherSubName_inj (d1 d2 : string) :
  watcherSubName WATCHMAN_SUB_NAME d1 = watcherSubName WATCHMAN_SUB_NAME d2 →
  Js.basename d1 = Js.basename d2.
Proof.
  unfold watcherSubName. intros Heq.
  apply (String.app_inj WATCHMAN_SUB_NAME) in Heq.
  by apply (String.app_inj "-") in Heq.
Qed.

Lemma watcherSubName_starts (dir : string) :
  Js.startsWith (watcherSubName WATCHMAN_SUB_NAME dir) WATCHMAN_SUB_NAME = true.
Proof. apply prefix_append. Qed.

Lemma teardown_routingInv ws :
  routingInv ws → routingInv (teardownWatchSubscriptions ws).
Proof.
  intros Hinv. unfold teardownWatchSubscriptions.
  destruct (bool_decide _); [done|].
  intros name. simpl. split.
  - intros Hsome. by apply lookup_empty_is_Some in Hsome.
  - intros Hin. by apply elem_of_nil in Hin.
Qed.

Lemma teardown_clears ws :
  routingInv ws →
  subscriptionToSourcePath (teardownWatchSubscriptions ws) = ∅
  ∧ activeSubscriptions (teardownWatchSubscriptions ws) = [].
Proof.
  intros Hinv. unfold teardownWatchSubscriptions.
  destruct (bool_decide _) eqn:Hlen; [|done].
  apply bool_decide_eq_true in Hlen. apply nil_length_inv in Hlen.
  split; [|done]. apply map_empty. intros name.
  apply eq_None_not_Some. rewrite (Hinv name), Hlen. apply not_elem_of_nil.
Qed.

Lemma teardown_commands ws :
  commands (teardownWatchSubscriptions ws)
  = commands ws ++ ((λ s, CmdUnsubscribe s.1 s.2) <$> activeSubscriptions ws).
Proof.
  unfold teardownWatchSubscriptions.
  destruct (bool_decide _) eqn:Hlen; [|done].
  apply bool_decide_eq_true in Hlen. apply nil_length_inv in Hlen.
  rewrite Hlen. simpl. by rewrite app_nil_r.
Qed.

Lemma subscribeDir_routingInv d acc dir :
  routingInv acc.1 →
  routingInv (subscribeDir WATCHMAN_SUB_NAME settleConfig realpathSync configPath
                writeFails watchProject subscribeFails d acc dir).1.
Proof.
  intros Hinv. unfold subscribeDir.
  destruct (watchProject _) as [resp|]; [|exact Hinv].
  destruct (subscribeFails _ _); [exact Hinv|].
  intros name. cbn [fst activeSubscriptions subscriptionToSourcePath].
  rewrite lookup_insert_is_Some', fmap_app, elem_of_app, (Hinv name).
  cbn [fmap list_fmap snd]. rewrite list_elem_of_singleton.
  split; (intros [Hl | Hr]; [right | left]; done).
Qed.

Lemma subscribeDirs_routingInv d dirs : ∀ acc,
  routingInv acc.1 →
  routingInv (foldl (subscribeDir WATCHMAN_SUB_NAME settleConfig realpathSync
                       configPath writeFails watchProject subscribeFails d)
                    acc dirs).1.
Proof.
  induction dirs as [|dir dirs IH]; intros acc Hinv; [done|].
  simpl. apply IH. by apply subscribeDir_routingInv.
Qed.

Lemma setup_routingInv d dirs ws :
  routingInv ws →
  routingInv (setupWatchSubscriptions WATCHMAN_SUB_NAME settleConfig realpathSync
                configPath writeFails watchProject subscribeFails d dirs ws).1.
Proof.
  intros Hinv. unfold setupWatchSubscriptions.
  apply subscribeDirs_routingInv. simpl. by apply teardown_routingInv.
Qed.

Lemma subscribeDirs_other d name dirs : ∀ acc,
  Forall (λ d', Js.basename (realpathSync d') ≠ name) dirs →
  subscriptionToSourcePath
    (foldl (subscribeDir WATCHMAN_SUB_NAME settleConfig realpathSync configPath
              writeFails watchProject subscribeFails d) acc dirs).1
  !! (WATCHMAN_SUB_NAME +:+ "-" +:+ name)
  = subscriptionToSourcePath acc.1 !! (WATCHMAN_SUB_NAME +:+ "-" +:+ name).
Proof.
  induction dirs as [|dir dirs IH]; intros acc Hall; [done|].
  apply Forall_cons in Hall as [Hdir Hall].
  simpl. rewrite (IH _ Hall). unfold subscribeDir.
  destruct (watchProject _) as [resp|]; [|done].
  destruct (subscribeFails _ _); [done|].
  cbn [fst subscriptionToSourcePath]. apply lookup_insert_ne.
  unfold watcherSubName. intros Heq.
  apply (String.app_inj WATCHMAN_SUB_NAME) in Heq.
  by apply (String.app_inj "-") in Heq.
Qed.

Lemma setup_routes d before dir after ws resp :
  watchProject (realpathSync dir) = Some resp →
  subscribeFails (wp_watch resp)
                 (watcherSubName WATCHMAN_SUB_NAME (realpathSync dir)) = false →
  Forall (λ d', Js.basename (realpathSync d') ≠ Js.basename (realpathSync dir))
         after →
  subscriptionToSourcePath
    (setupWatchSubscriptions WATCHMAN_SUB_NAME settleConfig realpathSync
       configPath writeFails watchProject subscribeFails d
       (before ++ dir :: after) ws).1
  !! watcherSubName WATCHMAN_SUB_NAME (realpathSync dir)
  = Some (realpathSync dir).
Proof.
  intros Hwatch Hsub Hafter. unfold setupWatchSubscriptions.
  rewrite foldl_app. cbn [foldl]. unfold watcherSubName at 1.
  rewrite (subscribeDirs_other _ _ _ _ Hafter).
  unfold subscribeDir at 1. rewrite Hwatch, Hsub.
  cbn [fst subscriptionToSourcePath]. apply lookup_insert_eq.
Qed.

Lemma onSubscriptionEvent_known currentDirs ws dir name files clock st :
  subscriptionToSourcePath ws !! name = Some (realpathSync dir) →
  Js.startsWith name WATCHMAN_SUB_NAME = true →
  realpathSync dir ≠ EmptyString →
  dir ∈ currentDirs →
  onSubscriptionEvent WATCHMAN_SUB_NAME realpathSync onFileChangeBatch dryRun
    currentDirs ws (mkNotification name files clock) st
  = let st1 :=
      if bool_decide (0 < length files)%nat
      then onFileChangeBatch ((λ f, mkChange f (realpathSync dir) None) <$> files) st
      else st in
    if truthy clock
    then (setClock (realpathSync dir) (default EmptyString clock) dryRun st1.1,
          st1.2)
    else st1.
Proof.
  intros Hknown Hstarts Hne Hin. unfold onSubscriptionEvent.
  cbn [sub_subscription sub_files sub_clock].
  rewrite Hstarts, Hknown. cbn [negb].
  unfold Js.nonEmpty. rewrite bool_decide_eq_false_2 by done. cbn [negb].
  destruct (List.find _ currentDirs) as [d1|] eqn:Hfind.
  - by rewrite length_fmap.
  - exfalso. apply list_elem_of_In in Hin.
    pose proof (find_none _ _ Hfind dir Hin) as Hno. simpl in Hno.
    by rewrite bool_decide_eq_true_2 in Hno.
Qed.

Lemma onSubscriptionEvent_unknown currentDirs ws resp st :
  subscriptionToSourcePath ws = ∅ →
  onSubscriptionEvent WATCHMAN_SUB_NAME realpathSync onFileChangeBatch dryRun
    currentDirs ws resp st = st.
Proof.
  intros Hempty. unfold onSubscriptionEvent.
  destruct (negb _); [done|]. by rewrite Hempty, lookup_empty.
Qed.

Lemma emitSubscription_unknown currentDirs ws resp st :
  subscriptionToSourcePath ws = ∅ →
  emitSubscription WATCHMAN_SUB_NAME realpathSync onFileChangeBatch dryRun
    currentDirs ws resp st = st.
Proof.
  intros Hempty. unfold emitSubscription.
  induction (subscriptionListeners ws) as [|n IH]; [done|].
  rewrite Nat.iter_succ, IH. by apply onSubscriptionEvent_unknown.
Qed.

Lemma ensureWatchmanConfig_keeps watchDir files path content :
  files !! path = Some content →
  ensureWatchmanConfig settleConfig configPath writeFails watchDir files !! path
  = Some content.
Proof.
  intros Hfile. unfold ensureWatchmanConfig.
  destruct (bool_decide _) eqn:Hex; [done|].
  destruct (writeFails _); [done|].
  apply bool_decide_eq_false in Hex.
  rewrite lookup_insert_ne; [done|].
  intros Heq. apply Hex. rewrite Heq. by eexists.
Qed.

Lemma subscribeDirs_keep_files d path content dirs : ∀ acc,
  configFiles acc.1 !! path = Some content →
  configFiles
    (foldl (subscribeDir WATCHMAN_SUB_NAME settleConfig realpathSync configPath
              writeFails watchProject subscribeFails d) acc dirs).1
  !! path = Some content.
Proof.
  induction dirs as [|dir dirs IH]; intros acc Hfile; [done|].
  simpl. apply IH. unfold subscribeDir.
  destruct (watchProject _) as [resp|];
    [destruct (subscribeFails _ _)|];
    cbn [fst configFiles]; by apply ensureWatchmanConfig_keeps.
Qed.

Lemma teardown_files ws :
  configFiles (teardownWatchSubscriptions ws) = configFiles ws.
Proof. unfold teardownWatchSubscriptions. by destruct (bool_decide _). Qed.

Lemma setup_keeps_files d dirs ws path content :
  configFiles ws !! path = Some content →
  configFiles
    (setupWatchSubscriptions WATCHMAN_SUB_NAME settleConfig realpathSync
       configPath writeFails watchProject subscribeFails d dirs ws).1
  !! path = Some content.
Proof.
  intros Hfile. unfold setupWatchSubscriptions.
  apply subscribeDirs_keep_files. cbn [fst configFiles].
  by rewrite teardown_files.
Qed.

End WatchSubscriptionsFacts.

Lemma watcher_run_routingInv N cfg ws ws' :
  rtc (watcherStep N cfg) ws ws' → routingInv ws → routingInv ws'.
Proof.
  induction 1 as [s | s s1 s2 Hstep _ IH]; [done|].
  intros Hinv. apply IH. destruct Hstep.
  - by apply setup_routingInv.
  - by apply teardown_routingInv.
Qed.

Lemma noWatcher_routingInv files : routingInv (noWatcher files).
Proof.
  intros name. simpl. split.
  - intros Hsome. by apply lookup_empty_is_Some in Hsome.
  - intros Hin. by apply elem_of_nil in Hin.
Qed.

(** Over any sequence of set-ups and tear-downs of the watcher, started
    with no subscription, the routing map knows exactly the names of the
    active subscriptions: a name has a source path in the map if and only
    if a subscription of that name is recorded as active. *)
Theorem routing_map_matches_active_subscriptions :
  ∀ (WATCHMAN_SUB_NAME settleConfig : string) (files : gmap string string)
    (ws : WatcherState) (name : string),
    rtc (watcherStep WATCHMAN_SUB_NAME settleConfig) (noWatcher files) ws →
    is_Some (subscriptionToSourcePath ws !! name)
    ↔ name ∈ (activeSubscriptions ws).*2.
Proof.
  intros N cfg files ws name Hrun.
  apply (watcher_run_routingInv _ _ _ _ Hrun), noWatcher_routingInv.
Qed.

Lemma routing_map_matches_active_subscriptions_witness :
  is_Some (subscriptionToSourcePath twoSameNamed !! "pds-w")
  ↔ "pds-w" ∈ (activeSubscriptions twoSameNamed).*2.
Proof.
  apply (routing_map_matches_active_subscriptions "pds" "{}" ∅ twoSameNamed).
  apply rtc_once. apply StepSetup.
Defined.

(** A notification is handled as a change of the directory that
    subscribed last under its name. After a set-up in which the commands
    for a directory succeed and no directory handled after it has the same
    base name, a notification under the subscription name of that directory
    (while the directory is still configured) hands the files, marked with
    the real path of the directory, to the batch handler when there are
    any, and afterwards saves the clock of the notification for that path
    when it has one. Directories handled earlier under the same base name
    lose their notifications to it. *)
Theorem notification_goes_to_last_subscriber :
  ∀ (H : Type) (WATCHMAN_SUB_NAME settleConfig : string)
    (realpathSync configPath : string → string) (writeFails : string → bool)
    (watchProject : string → option WatchProjectResponse)
    (subscribeFails : string → string → bool)
    (onFileChangeBatch : list FileChange → Db * H → Db * H) (dryRun : bool)
    (d : Db) (before : list string) (dir : string) (after : list string)
    (ws : WatcherState) (watchResp : WatchProjectResponse)
    (currentDirs : list string) (files : list WatchmanFile)
    (clock : option string) (st : Db * H),
    watchProject (realpathSync dir) = Some watchResp →
    subscribeFails (wp_watch watchResp)
      (watcherSubName WATCHMAN_SUB_NAME (realpathSync dir)) = false →
    Forall (λ d', Js.basename (realpathSync d') ≠ Js.basename (realpathSync dir))
           after →
    realpathSync dir ≠ EmptyString →
    dir ∈ currentDirs →
    onSubscriptionEvent WATCHMAN_SUB_NAME realpathSync onFileChangeBatch dryRun
      currentDirs
      (setupWatchSubscriptions WATCHMAN_SUB_NAME settleConfig realpathSync
         configPath writeFails watchProject subscribeFails d
         (before ++ dir :: after) ws).1
      (mkNotification (watcherSubName WATCHMAN_SUB_NAME (realpathSync dir))
                      files clock) st
    = let st1 :=
        if bool_decide (0 < length files)%nat
        then onFileChangeBatch
               ((λ f, mkChange f (realpathSync dir) None) <$> files) st
        else st in
      if truthy clock
      then (setClock (realpathSync dir) (default EmptyString clock) dryRun st1.1,
            st1.2)
      else st1.
Proof.
  intros H N cfg realpathSync configPath writeFails watchProject subscribeFails
         onFileChangeBatch dryRun d before dir after ws watchResp currentDirs
         files clock st Hwatch Hsub Hafter Hne Hin.
  apply onSubscriptionEvent_known; [|apply watcherSubName_starts|done|done].
  by eapply setup_routes.
Qed.

Lemma notification_goes_to_last_subscriber_witness :
  onSubscriptionEvent "pds" (λ p, p) (λ _ (st : Db * unit), st) false
    ["/a/w"; "/b/w"] twoSameNamed
    (mkNotification (watcherSubName "pds" "/b/w") movedPair (Some "c:3"))
    (emptyDb, ())
  = (setClock "/b/w" "c:3" false emptyDb, ()).
Proof.
  apply (notification_goes_to_last_subscriber unit "pds" "{}" (λ p, p)
           (λ p, p +:+ "/.watchmanconfig") (λ _, false) watchesItself
           (λ _ _, false) (λ _ st, st) false emptyDb ["/a/w"] "/b/w" []
           (noWatcher ∅) (mkWatchProject "/b/w" None) ["/a/w"; "/b/w"]
           movedPair (Some "c:3") (emptyDb, ())).
  - reflexivity.
  - reflexivity.
  - constructor.
  - discriminate.
  - right. left.
Defined.

(** After a tear-down the watcher handles no notification. Whatever
    set-ups and tear-downs came before, after
    [teardownWatchSubscriptions] no subscription is recorded as active,
    one [unsubscribe] has been sent for each subscription that was, in
    their order, and the listeners that are still registered leave the
    database and the state of the batch handler as they are on every
    notification. *)
Theorem teardown_silences_watcher :
  ∀ (H : Type) (WATCHMAN_SUB_NAME settleConfig : string)
    (realpathSync : string → string)
    (onFileChangeBatch : list FileChange → Db * H → Db * H) (dryRun : bool)
    (files : gmap string string) (ws : WatcherState)
    (currentDirs : list string) (resp : SubscriptionResponse) (st : Db * H),
    rtc (watcherStep WATCHMAN_SUB_NAME settleConfig) (noWatcher files) ws →
    activeSubscriptions (teardownWatchSubscriptions ws) = []
    ∧ commands (teardownWatchSubscriptions ws)
      = commands ws
        ++ ((λ s, CmdUnsubscribe s.1 s.2) <$> activeSubscriptions ws)
    ∧ emitSubscription WATCHMAN_SUB_NAME realpathSync onFileChangeBatch
        dryRun currentDirs (teardownWatchSubscriptions ws) resp st = st.
Proof.
  intros H N cfg realpathSync onFileChangeBatch dryRun files ws currentDirs
         resp st Hrun.
  pose proof (watcher_run_routingInv _ _ _ _ Hrun (noWatcher_routingInv files))
    as Hinv.
  destruct (teardown_clears ws Hinv) as [Hmap Hactive].
  split; [done|]. split; [apply teardown_commands|].
  by apply emitSubscription_unknown.
Qed.

Lemma teardown_silences_watcher_witness :
  activeSubscriptions (teardownWatchSubscriptions twoSameNamed) = []
  ∧ commands (teardownWatchSubscriptions twoSameNamed)
    = commands twoSameNamed
      ++ ((λ s, CmdUnsubscribe s.1 s.2) <$> activeSubscriptions twoSameNamed)
  ∧ emitSubscription "pds" (λ p, p) (λ _ (st : Db * unit), st) false
      ["/a/w"; "/b/w"] (teardownWatchSubscriptions twoSameNamed)
      (mkNotification "pds-w" movedPair (Some "c:3")) (emptyDb, ())
    = (emptyDb, ()).
Proof.
  apply (teardown_silences_watcher unit "pds" "{}" (λ p, p) (λ _ st, st) false
           ∅ twoSameNamed).
  apply rtc_once. apply StepSetup.
Defined.

(** The watcher never overwrites a [.watchmanconfig]. Over any sequence
    of set-ups and tear-downs a file that is on disk keeps its content. *)
Theorem existing_watchmanconfig_kept :
  ∀ (WATCHMAN_SUB_NAME settleConfig : string) (ws ws' : WatcherState)
    (path content : string),
    rtc (watcherStep WATCHMAN_SUB_NAME settleConfig) ws ws' →
    configFiles ws !! path = Some content →
    configFiles ws' !! path = Some content.
Proof.
  intros N cfg ws ws' path content Hrun.
  induction Hrun as [s | s s1 s2 Hstep _ IH]; [done|].
  intros Hfile. apply IH. destruct Hstep.
  - by apply setup_keeps_files.
  - by rewrite teardown_files.
Qed.

Lemma existing_watchmanconfig_kept_witness :
  configFiles
    (setupWatchSubscriptions "pds" "{}" (λ p, p) (λ p, p +:+ "/.watchmanconfig")
       (λ _, false) watchesItself (λ _ _, false) emptyDb ["/a/w"; "/b/w"]
       (noWatcher {["/a/w/.watchmanconfig" := "mine"]})).1
  !! "/a/w/.watchmanconfig" = Some "mine".
Proof.
  apply (existing_watchmanconfig_kept "pds" "{}"
           (noWatcher {["/a/w/.watchmanconfig" := "mine"]})).
  - apply rtc_once. apply StepSetup.
  - reflexivity.
Defined.

(* ====================================================================== *)
(** ** Waiting for Watchman *)
(* ====================================================================== *)

Lemma waitFrom_round probe maxAttempts remaining attempt sleeps :
  waitFrom probe maxAttempts (S remaining) attempt sleeps
  = if probe attempt then WaitReady sleeps
    else if bool_decide (attempt = maxAttempts) then WaitExit sleeps
    else waitFrom probe maxAttempts remaining (S attempt) (S sleeps).
Proof. reflexivity. Qed.

Lemma waitFrom_outcome probe maxAttempts : ∀ remaining attempt sleeps,
  (attempt + remaining = maxAttempts)%nat →
  waitFrom probe maxAttempts (S remaining) attempt sleeps
  = match List.find probe (seq attempt (S remaining)) with
    | Some n => WaitReady (sleeps + (n - attempt))
    | None => WaitExit (sleeps + remaining)
    end.
Proof.
  induction remaining as [|r IH]; intros attempt sleeps Hsum.
  - simpl. destruct (probe attempt); [f_equal; lia|].
    rewrite bool_decide_eq_true_2 by lia. f_equal; lia.
  - rewrite waitFrom_round, <- cons_seq. cbn [List.find].
    destruct (probe attempt); [f_equal; lia|].
    rewrite bool_decide_eq_false_2 by lia.
    rewrite IH by lia.
    destruct (List.find probe (seq (S attempt) (S r))) as [n|] eqn:Hfind.
    + apply find_some in Hfind as [Hn _]. apply in_seq in Hn. f_equal. lia.
    + f_equal. lia.
Qed.

(** [waitForWatchman] returns at the first attempt at which Watchman
    answers, after one wait for each failed attempt before it; when none
    of the [maxAttempts] attempts is answered the process exits, after
    [maxAttempts - 1] waits. With [maxAttempts] zero it returns at once
    without having asked Watchman. *)
Theorem waitForWatchman_outcome :
  ∀ (probe : nat → bool) (maxAttempts : nat),
    waitForWatchman probe maxAttempts
    = match maxAttempts with
      | O => WaitNoProbe
      | S _ =>
          match List.find probe (seq 1 maxAttempts) with
          | Some n => WaitReady (n - 1)
          | None => WaitExit (maxAttempts - 1)
          end
      end.
Proof.
  intros probe [|m]; [done|].
  unfold waitForWatchman. rewrite waitFrom_outcome by lia.
  destruct (List.find _ _); f_equal; lia.
Qed.


(* ====================================================================== *)
(** ** The components of a remote path *)
(* ====================================================================== *)

Lemma chars_str (l : list ascii) : Js.chars (Js.str l) = l.
Proof. apply list_ascii_of_string_of_list_ascii. Qed.

Lemma splitAux_segments (l : list ascii) : ∀ cur,
  Js.slash ∉ cur →
  Forall (λ s, Js.slash ∉ Js.chars s) (Js.splitAux cur l).
Proof.
  induction l as [|c l IH]; intros cur Hcur; simpl.
  - constructor; [|constructor]. by rewrite chars_str, elem_of_reverse.
  - unfold Js.isSlash. destruct (bool_decide (c = Js.slash)) eqn:Hc.
    + constructor; [by rewrite chars_str, elem_of_reverse|].
      apply IH, not_elem_of_nil.
    + apply bool_decide_eq_false in Hc. apply IH.
      rewrite not_elem_of_cons. split; [congruence | done].
Qed.

Lemma takeWhile_notSlash (l : list ascii) :
  Js.slash ∉ Js.takeWhile Js.notSlash l.
Proof.
  induction l as [|c l IH]; simpl; [apply not_elem_of_nil|].
  unfold Js.notSlash, Js.isSlash.
  destruct (bool_decide (c = Js.slash)) eqn:Hc; simpl; [apply not_elem_of_nil|].
  apply bool_decide_eq_false in Hc.
  rewrite not_elem_of_cons. split; [congruence | exact IH].
Qed.

Lemma basename_no_slash (p : string) : Js.slash ∉ Js.chars (Js.basename p).
Proof.
  unfold Js.basename. rewrite chars_str, elem_of_reverse.
  apply takeWhile_notSlash.
Qed.

(** [parsePath] yields names. For every path, each parent part it returns
    is a non-empty string without a slash, and the name it returns has no
    slash. *)
Theorem parsePath_yields_names :
  ∀ localPath : string,
    Forall (λ part, part ≠ EmptyString ∧ Js.slash ∉ Js.chars part)
           (parsePath localPath).1
    ∧ Js.slash ∉ Js.chars (parsePath localPath).2.
Proof.
  intros localPath. unfold parsePath. cbv zeta.
  match goal with
  | |- context [Js.dirname ?p] => generalize p
  end.
  intros p.
  destruct (bool_decide (Js.dirname p = ".") || bool_decide (Js.dirname p = EmptyString));
    simpl; (split; [|apply basename_no_slash]); [constructor|].
  apply Forall_forall. intros part Hin.
  apply list_elem_of_In, filter_In in Hin as [Hin Hne].
  split.
  - unfold Js.nonEmpty in Hne. apply negb_true_iff, bool_decide_eq_false in Hne.
    exact Hne.
  - pose proof (splitAux_segments (Js.chars (Js.dirname p)) [] (not_elem_of_nil _))
      as Hall.
    rewrite Forall_forall in Hall. apply Hall. by apply list_elem_of_In.
Qed.
